(** * Slash-command autocomplete: text utilities and editing hook

    A shallow embedding of
      - [stripMarkdown] and [getSkillDescription]
        (components/features/chat/components/slash-command-menu.tsx),
      - the [useSlashCommand] hook (hooks/chat/use-slash-command.ts), and
      - the rows of [SlashCommandMenu] and its place in
        [ChatInputContainer],
    together with the properties stated about them.

    JavaScript strings are modelled as lists of code units.  The
    development covers code units below 256 (Latin-1), one [ascii] each;
    the character classes [\s], [.] and the case mapping are the
    ECMAScript ones restricted to that range.  JavaScript numbers that
    hold offsets and indices are modelled in [Z]. *)

From Stdlib Require Import Ascii String.
From Stdlib Require Import List ZArith Lia Bool Arith.
Import ListNotations.

(** ** Strings *)

Definition str : Type := list ascii.

Definition NL : ascii := "010"%char.
Definition CR : ascii := "013"%char.
Definition TAB : ascii := "009"%char.
Definition DQUOTE : ascii := "034"%char.
Definition SQUOTE : ascii := "039"%char.
Definition BACKSLASH : ascii := "092"%char.

Definition hexval (c : ascii) : option nat :=
  let n := nat_of_ascii c in
  if (48 <=? n) && (n <=? 57) then Some (n - 48)
  else if (97 <=? n) && (n <=? 102) then Some (n - 87)
  else if (65 <=? n) && (n <=? 70) then Some (n - 55)
  else None.

(** Reads a string literal the way JavaScript source does: the escapes
    [\n], [\r], [\t], [\\] and [\xHH] denote one code unit. *)
Fixpoint unescape (s : str) : str :=
  match s with
  | [] => []
  | c :: t =>
      if Ascii.eqb c BACKSLASH then
        match t with
        | e :: t' =>
            if Ascii.eqb e "n" then NL :: unescape t'
            else if Ascii.eqb e "r" then CR :: unescape t'
            else if Ascii.eqb e "t" then TAB :: unescape t'
            else if Ascii.eqb e "x" then
              match t' with
              | h1 :: h2 :: t'' =>
                  match hexval h1, hexval h2 with
                  | Some a, Some b => ascii_of_nat (16 * a + b) :: unescape t''
                  | _, _ => e :: unescape t'
                  end
              | _ => e :: unescape t'
              end
            else e :: unescape t'
        | [] => [c]
        end
      else c :: unescape t
  end.

Definition js (s : string) : str := unescape (list_ascii_of_string s).

(** ECMAScript [WhiteSpace] and [LineTerminator] code points below 256:
    TAB, LF, VT, FF, CR, SP and NBSP.  This is the class [\s] and the set
    removed by [String.prototype.trim]. *)
Definition isLineTerminator (c : ascii) : bool :=
  Ascii.eqb c NL || Ascii.eqb c CR.

Definition isWhiteSpace (c : ascii) : bool :=
  let n := nat_of_ascii c in
  ((9 <=? n) && (n <=? 13)) || (n =? 32) || (n =? 160).

Fixpoint dropWhile (p : ascii -> bool) (s : str) : str :=
  match s with
  | [] => []
  | c :: t => if p c then dropWhile p t else s
  end.

Definition trimStart (s : str) : str := dropWhile isWhiteSpace s.
Definition trimEnd (s : str) : str := rev (dropWhile isWhiteSpace (rev s)).
Definition trim (s : str) : str := trimEnd (trimStart s).

Fixpoint prefixb (p s : str) : bool :=
  match p, s with
  | [], _ => true
  | _ :: _, [] => false
  | a :: p', b :: s' => Ascii.eqb a b && prefixb p' s'
  end.

Definition startsWith (s p : str) : bool := prefixb p s.
Definition endsWith (s p : str) : bool := prefixb (rev p) (rev s).

(** [s.includes(needle)]: some suffix of [s] starts with [needle]. *)
Fixpoint includes (s needle : str) : bool :=
  prefixb needle s ||
  match s with
  | [] => false
  | _ :: t => includes t needle
  end.

(** [String.prototype.slice] with its relative (negative) indices. *)
Definition relIndex (len i : Z) : Z :=
  if (i <? 0)%Z then Z.max (len + i) 0 else Z.min i len.

Definition slice (s : str) (b e : Z) : str :=
  let len := Z.of_nat (length s) in
  let from := relIndex len b in
  let to := relIndex len e in
  firstn (Z.to_nat (to - from)) (skipn (Z.to_nat from) s).

Definition sliceFrom (s : str) (b : Z) : str :=
  slice s b (Z.of_nat (length s)).

(** [split] on a one-character separator. *)
Fixpoint splitOn (sep : ascii) (s : str) : list str :=
  match s with
  | [] => [[]]
  | c :: t =>
      if Ascii.eqb c sep then [] :: splitOn sep t
      else match splitOn sep t with
           | l :: ls => (c :: l) :: ls
           | [] => [[c]]
           end
  end.

(** [toLowerCase] on the code units below 256, where it maps every code
    unit by itself: A-Z and the accented capitals U+00C0-U+00DE (U+00D7,
    the multiplication sign, apart) move up by 32.  Beyond these code
    units the mapping depends on the neighbours (the final sigma) and
    does not go through concatenation; [Greek] below has that case for
    the filter. *)
Definition lowerChar (c : ascii) : ascii :=
  let n := nat_of_ascii c in
  if ((65 <=? n) && (n <=? 90)) ||
     ((192 <=? n) && (n <=? 222) && negb (n =? 215))
  then ascii_of_nat (n + 32) else c.

Definition toLowerCase (s : str) : str := map lowerChar s.

(** ** Regular expressions

    A backtracking matcher with ECMAScript's priorities: alternatives
    left to right, greedy quantifiers longest first, lazy ones shortest
    first.  Every quantifier of the source applies to a one-character
    atom, which is what [Star] covers; [x+] is [x x*] and [x+?] is
    [x x*?]. *)

Inductive regex : Type :=
| Eps
| Chr (p : ascii -> bool)
| Seq (r1 r2 : regex)
| Alt (r1 r2 : regex)
| Star (greedy : bool) (p : ascii -> bool)
| Group (n : nat) (r : regex)
| Bol
| Eol.

Record mstate : Type := MState {
  m_prev : option ascii;       (* the code unit before the position *)
  m_rest : str;                (* the input from the position on *)
  m_caps : list (nat * str)    (* capture groups, latest first *)
}.

Fixpoint capture (n : nat) (caps : list (nat * str)) : option str :=
  match caps with
  | [] => None
  | (m, v) :: t => if Nat.eqb m n then Some v else capture n t
  end.

Definition orElse {A} (a b : option A) : option A :=
  match a with Some x => Some x | None => b end.

Section Matcher.

(** The [m] flag. *)
Variable multiline : bool.

Fixpoint star (greedy : bool) (p : ascii -> bool) (prev : option ascii)
         (rest : str) (caps : list (nat * str))
         (k : mstate -> option mstate) {struct rest} : option mstate :=
  match rest with
  | c :: t =>
      if p c then
        if greedy
        then orElse (star greedy p (Some c) t caps k)
                    (k (MState prev rest caps))
        else orElse (k (MState prev rest caps))
                    (star greedy p (Some c) t caps k)
      else k (MState prev rest caps)
  | [] => k (MState prev rest caps)
  end.

Definition atBol (st : mstate) : bool :=
  match m_prev st with
  | None => true
  | Some c => multiline && isLineTerminator c
  end.

Definition atEol (st : mstate) : bool :=
  match m_rest st with
  | [] => true
  | c :: _ => multiline && isLineTerminator c
  end.

Fixpoint rmatch (r : regex) (st : mstate) (k : mstate -> option mstate)
  : option mstate :=
  match r with
  | Eps => k st
  | Chr p =>
      match m_rest st with
      | c :: t => if p c then k (MState (Some c) t (m_caps st)) else None
      | [] => None
      end
  | Seq r1 r2 => rmatch r1 st (fun st' => rmatch r2 st' k)
  | Alt r1 r2 => orElse (rmatch r1 st k) (rmatch r2 st k)
  | Star greedy p => star greedy p (m_prev st) (m_rest st) (m_caps st) k
  | Group n r1 =>
      rmatch r1 st (fun st' =>
        let len := length (m_rest st) - length (m_rest st') in
        k (MState (m_prev st') (m_rest st')
                  ((n, firstn len (m_rest st)) :: m_caps st')))
  | Bol => if atBol st then k st else None
  | Eol => if atEol st then k st else None
  end.

(** One attempt at the current position. *)
Definition matchHere (r : regex) (prev : option ascii) (s : str)
  : option mstate :=
  rmatch r (MState prev s []) Some.

(** The result of [RegExp.prototype.exec] / [String.prototype.match]
    without the [g] flag. *)
Record result : Type := Result {
  r_index : nat;            (* where the match starts *)
  r_match : str;            (* [m[0]] *)
  r_caps : list (nat * str) (* [m[1]], [m[2]], ... *)
}.

Fixpoint execFrom (r : regex) (prev : option ascii) (s : str) (idx : nat)
  : option result :=
  match matchHere r prev s with
  | Some st' =>
      Some (Result idx (firstn (length s - length (m_rest st')) s)
                   (m_caps st'))
  | None =>
      match s with
      | [] => None
      | c :: t => execFrom r (Some c) t (S idx)
      end
  end.

Definition exec (r : regex) (s : str) : option result :=
  execFrom r None s 0.

Definition group (n : nat) (res : result) : str :=
  match capture n (r_caps res) with Some v => v | None => [] end.

(** [s.replace(r, ...)] with the [g] flag: matches are sought left to
    right, each after the end of the one before; [subst] builds the
    replacement from the captures.  [skip] counts the code units of
    the current match still to be passed over. *)
Fixpoint replaceFrom (r : regex) (subst : list (nat * str) -> str)
         (prev : option ascii) (s : str) (skip : nat) : str :=
  match s with
  | [] =>
      match skip with
      | O => match matchHere r prev [] with
             | Some st' => subst (m_caps st')
             | None => []
             end
      | S _ => []
      end
  | c :: t =>
      match skip with
      | S n => replaceFrom r subst (Some c) t n
      | O =>
          match matchHere r prev s with
          | Some st' =>
              subst (m_caps st') ++
              match length s - length (m_rest st') with
              | O => c :: replaceFrom r subst (Some c) t 0
              | S n => replaceFrom r subst (Some c) t n
              end
          | None => c :: replaceFrom r subst (Some c) t 0
          end
      end
  end.

Definition replaceAll (r : regex) (subst : list (nat * str) -> str)
           (s : str) : str :=
  replaceFrom r subst None s 0.

(** [s.replace(r, replacement)] without the [g] flag: the first match
    only. *)
Definition replaceFirst (r : regex) (replacement : str) (s : str) : str :=
  match exec r s with
  | Some res =>
      firstn (r_index res) s ++ replacement ++
      skipn (r_index res + length (r_match res)) s
  | None => s
  end.

End Matcher.

(** The replacement pattern ["$1"]. *)
Definition dollar1 (caps : list (nat * str)) : str :=
  match capture 1 caps with Some v => v | None => [] end.

(** Building blocks for writing the source's patterns. *)
Definition isChar (c : ascii) : ascii -> bool := Ascii.eqb c.
Definition notChar (c : ascii) : ascii -> bool :=
  fun x => negb (Ascii.eqb c x).
Definition anyChar : ascii -> bool := fun _ => true.          (* [\s\S] *)
Definition dot : ascii -> bool := fun c => negb (isLineTerminator c).
Definition nonSpace : ascii -> bool := fun c => negb (isWhiteSpace c).

Definition cat (rs : list regex) : regex := fold_right Seq Eps rs.
Definition lit (s : str) : regex := cat (map (fun c => Chr (isChar c)) s).
Definition plus (greedy : bool) (p : ascii -> bool) : regex :=
  Seq (Chr p) (Star greedy p).

Fixpoint streq (a b : str) : bool :=
  match a, b with
  | [], [] => true
  | x :: a', y :: b' => Ascii.eqb x y && streq a' b'
  | _, _ => false
  end.

(** ** slash-command-menu.tsx: [stripMarkdown] *)

Module Menu.

(** Images, [![alt](url)]: an exclamation mark, a bracketed group of
    characters other than the closing bracket (captured), and a
    parenthesised run of characters other than the closing parenthesis;
    flag [g]. *)
Definition reImage : regex :=
  cat [lit (js "!["); Group 1 (Star true (notChar "]")); lit (js "](");
       Star true (notChar ")"); lit (js ")")].

(** Links, [[text](url)]: the image pattern without its exclamation
    mark; flag [g]. *)
Definition reLink : regex :=
  cat [lit (js "["); Group 1 (Star true (notChar "]")); lit (js "](");
       Star true (notChar ")"); lit (js ")")].

(** The pattern "/d(.+?)d/g" for a delimiter d, one of "\*{3}", "\*{2}",
    "\*", "_{3}", "_{2}", "_", the backquote and "~~". *)
Definition reDelim (d : str) : regex :=
  cat [lit d; Group 1 (plus false dot); lit d].

Definition BACKQUOTE : ascii := "096"%char.

Definition stripMarkdown (text : str) : str :=
  let text := replaceAll false reImage dollar1 text in
  let text := replaceAll false reLink dollar1 text in
  let text := replaceAll false (reDelim (js "***")) dollar1 text in
  let text := replaceAll false (reDelim (js "**")) dollar1 text in
  let text := replaceAll false (reDelim (js "*")) dollar1 text in
  let text := replaceAll false (reDelim (js "___")) dollar1 text in
  let text := replaceAll false (reDelim (js "__")) dollar1 text in
  let text := replaceAll false (reDelim (js "_")) dollar1 text in
  let text := replaceAll false (reDelim [BACKQUOTE]) dollar1 text in
  replaceAll false (reDelim (js "~~")) dollar1 text.

(** ** slash-command-menu.tsx: [getSkillDescription] *)

(** The pattern "/^---\s*\n([\s\S]*?)\n---/". *)
Definition reFrontmatter : regex :=
  cat [Bol; lit (js "---"); Star true isWhiteSpace; Chr (isChar NL);
       Group 1 (Star false anyChar); Chr (isChar NL); lit (js "---")].

(** The pattern "/^description:\s*(.+)$/m". *)
Definition reDescription : regex :=
  cat [Bol; lit (js "description:"); Star true isWhiteSpace;
       Group 1 (plus true dot); Eol].

Definition isTerminator (c : ascii) : bool :=
  Ascii.eqb c "." || Ascii.eqb c "!" || Ascii.eqb c "?".

(** The pattern "/^[^.!?\n]*[.!?]/". *)
Definition reSentence : regex :=
  cat [Bol; Star true (fun c => negb (isTerminator c || Ascii.eqb c NL));
       Chr isTerminator].

(** The test of the [find] over the trimmed lines. *)
Definition isMeaningful (line : str) : bool :=
  (0 <? length line) && negb (startsWith line (js "#")) &&
  negb (streq line (js "---")).

(** [sentence?.[0] || stripped] for [sentence] the match of
    [reSentence] in [stripped]. *)
Definition sentenceOrAll (stripped : str) : str :=
  match exec false reSentence stripped with
  | Some sentence =>
      match r_match sentence with
      | [] => stripped
      | s0 => s0
      end
  | None => stripped
  end.

(** The part of [getSkillDescription] after the frontmatter has been
    dealt with: [body] is the variable of that name. *)
Definition describeBody (body : str) : option str :=
  match find isMeaningful (map trim (splitOn NL body)) with
  | None => None
  | Some [] => None
  | Some meaningful => Some (sentenceOrAll (stripMarkdown meaningful))
  end.

Definition unquote (desc : str) : str :=
  if (startsWith desc [DQUOTE] && endsWith desc [DQUOTE]) ||
     (startsWith desc [SQUOTE] && endsWith desc [SQUOTE])
  then slice desc 1 (-1)
  else desc.

Definition getSkillDescription (content : str) : option str :=
  match exec false reFrontmatter content with
  | Some frontmatterMatch =>
      match exec true reDescription (group 1 frontmatterMatch) with
      | Some descMatch =>
          let desc := trim (group 1 descMatch) in
          Some (stripMarkdown (unquote desc))
      | None =>
          describeBody
            (sliceFrom content
               (Z.of_nat (length (r_match frontmatterMatch))))
      end
  | None => describeBody content
  end.

End Menu.

(** ** use-slash-command.ts *)

Module Hook.

(** [Skill | Microagent], with the fields the hook reads. *)
Record Skill : Type := mkSkill {
  name : str;
  type : str;
  content : option str;
  triggers : option (list str)
}.

Record SlashCommandItem : Type := mkItem {
  skill : Skill;
  command : str
}.

(** The editable surface behind [chatInputRef]: its plain text (read as
    [innerText], written as [textContent]), the caret as the number of
    code units before it ([None]: no selection), whether it has focus,
    and the number of [input] events dispatched on it. *)
Record Element : Type := mkElement {
  innerText : str;
  caret : option nat;
  focused : bool;
  inputEvents : nat
}.

Record SlashRange : Type := mkRange {
  range_start : Z;
  range_end : Z
}.

(** The hook's state: the three [useState] cells and [slashRangeRef]. *)
Record State : Type := mkState {
  isMenuOpen : bool;
  filterText : str;
  selectedIndex : Z;
  slashRange : option SlashRange
}.

Definition initialState : State := mkState false [] 0 None.

Definition len (s : str) : Z := Z.of_nat (length s).

Definition getCursorOffset (element : Element) : Z :=
  match caret element with
  | None => (-1)%Z
  | Some n => Z.of_nat n
  end.

(** *** [slashItems] *)

Definition push (items : list SlashCommandItem) (item : SlashCommandItem)
  : list SlashCommandItem := items ++ [item].

Definition slashTriggersOf (s : Skill) : list str :=
  filter (fun t => startsWith t (js "/"))
         (match triggers s with Some ts => ts | None => [] end).

(** The body of [skills.forEach]. *)
Definition addSkill (items : list SlashCommandItem) (s : Skill)
  : list SlashCommandItem :=
  let slashTriggers := slashTriggersOf s in
  if (0 <? length slashTriggers)%nat then
    fold_left (fun items trigger => push items (mkItem s trigger))
              slashTriggers items
  else if streq (type s) (js "agentskills") then
    push items (mkItem s (js "/" ++ name s))
  else items.

Definition slashItems (skills : option (list Skill))
  : list SlashCommandItem :=
  match skills with
  | None => []
  | Some l => fold_left addSkill l []
  end.

(** *** [filteredItems] *)

Definition matchesFilter (lower : str) (item : SlashCommandItem) : bool :=
  includes (toLowerCase (sliceFrom (command item) 1)) lower ||
  includes (toLowerCase (name (skill item))) lower.

Definition filteredItems (slashItems : list SlashCommandItem)
           (filterText : str) : list SlashCommandItem :=
  match filterText with
  | [] => slashItems
  | _ => filter (matchesFilter (toLowerCase filterText)) slashItems
  end.

(** *** [getSlashText] *)

(** Trailing line breaks: one or more of LF and CR, then the end. *)
Definition reTrailingNewlines : regex :=
  cat [plus true isLineTerminator; Eol].

(** A slash word ending at the caret: (start or one white space), then
    (a slash and non-space characters), then the end. *)
Definition reSlashWord : regex :=
  cat [Group 1 (Alt Bol (Chr isWhiteSpace));
       Group 2 (Seq (Chr (isChar "/")) (Star true nonSpace));
       Eol].

(** The non-space characters at the start. *)
Definition reLeadingNonSpace : regex :=
  cat [Bol; Star true nonSpace].

Definition currentText (element : Element) : str :=
  replaceFirst false reTrailingNewlines [] (innerText element).

Record SlashText : Type := mkSlashText {
  st_text : str;
  st_start : Z;
  st_end : Z
}.

Definition getSlashText (chatInput : option Element) : option SlashText :=
  match chatInput with
  | None => None
  | Some element =>
      let text := currentText element in
      let cursor := getCursorOffset element in
      if (cursor <? 0)%Z then None
      else
        let textBeforeCursor := slice text 0 cursor in
        match exec false reSlashWord textBeforeCursor with
        | None => None
        | Some m =>
            let slashWord := group 2 m in
            let start := (len textBeforeCursor - len slashWord)%Z in
            let afterCursor := sliceFrom text cursor in
            let trailing := exec false reLeadingNonSpace afterCursor in
            let end_ :=
              (cursor + match trailing with
                        | Some tr => len (r_match tr)
                        | None => 0
                        end)%Z in
            Some (mkSlashText (sliceFrom slashWord 1) start end_)
        end
  end.

(** *** [updateSlashMenu] *)

Definition updateSlashMenu (skills : option (list Skill))
           (chatInput : option Element) (st : State) : State :=
  match getSlashText chatInput with
  | Some result =>
      if (0 <? length (slashItems skills))%nat then
        mkState true (st_text result) (selectedIndex st)
                (Some (mkRange (st_start result) (st_end result)))
      else mkState false [] (selectedIndex st) None
  | None => mkState false [] (selectedIndex st) None
  end.

(** *** [selectItem] *)

Definition selectItem (chatInput : option Element) (st : State)
           (item : SlashCommandItem) : option Element * State :=
  match chatInput with
  | None => (None, st)
  | Some element =>
      let currentText := currentText element in
      let replacement := command item ++ js " " in
      let edited :=
        match slashRange st with
        | Some r =>
            let textContent :=
              slice currentText 0 (range_start r) ++ replacement ++
              sliceFrom currentText (range_end r) in
            let cursorPos := (range_start r + len replacement)%Z in
            match textContent with
            | [] => (textContent, caret element)   (* no text node *)
            | _ => (textContent,
                    Some (Z.to_nat (Z.min cursorPos (len textContent))))
            end
        | None => (replacement, Some (length replacement))
        end in
      (Some (mkElement (fst edited) (snd edited) true
                       (S (inputEvents element))),
       mkState false [] 0 None)
  end.

(** *** [handleSlashKeyDown] *)

Record KeyResult : Type := mkKeyResult {
  consumed : bool;            (* the handler's return value *)
  defaultPrevented : bool;    (* [e.preventDefault()] was called *)
  key_input : option Element;
  key_state : State
}.

Definition item_at (items : list SlashCommandItem) (i : Z)
  : option SlashCommandItem :=
  if (i <? 0)%Z then None else nth_error items (Z.to_nat i).

Definition handleSlashKeyDown (skills : option (list Skill))
           (chatInput : option Element) (st : State) (key : str)
  : KeyResult :=
  let items := filteredItems (slashItems skills) (filterText st) in
  let ignored := mkKeyResult false false chatInput st in
  if negb (isMenuOpen st) || (length items =? 0)%nat then ignored
  else if streq key (js "ArrowDown") then
    let prev := selectedIndex st in
    let next :=
      if (prev <? Z.of_nat (length items) - 1)%Z then (prev + 1)%Z
      else 0%Z in
    mkKeyResult true true chatInput
      (mkState (isMenuOpen st) (filterText st) next (slashRange st))
  else if streq key (js "ArrowUp") then
    let prev := selectedIndex st in
    let next :=
      if (prev >? 0)%Z then (prev - 1)%Z
      else (Z.of_nat (length items) - 1)%Z in
    mkKeyResult true true chatInput
      (mkState (isMenuOpen st) (filterText st) next (slashRange st))
  else if streq key (js "Enter") || streq key (js "Tab") then
    match item_at items (selectedIndex st) with
    | None => ignored
    | Some item =>
        let r := selectItem chatInput st item in
        mkKeyResult true true (fst r) (snd r)
    end
  else if streq key (js "Escape") then
    mkKeyResult true true chatInput
      (mkState false (filterText st) (selectedIndex st) (slashRange st))
  else if streq key (js "ArrowLeft") || streq key (js "ArrowRight") ||
          streq key (js "Home") || streq key (js "End") then
    mkKeyResult false false chatInput
      (mkState false (filterText st) (selectedIndex st) (slashRange st))
  else ignored.

Definition closeMenu (st : State) : State :=
  mkState false (filterText st) (selectedIndex st) (slashRange st).

(** *** The effect on [filterText]

    [useEffect(() => setSelectedIndex(0), [filterText])] runs after a
    render whose [filterText] differs from the one of the render
    before. *)
Definition resetIndexEffect (renderedFilter : str) (st : State) : State :=
  if streq renderedFilter (filterText st) then st
  else mkState (isMenuOpen st) (filterText st) 0 (slashRange st).

(** What the hook's callers can do to it. *)
Inductive Action : Type :=
| UpdateSlashMenu
| SelectItem (item : SlashCommandItem)
| KeyDown (key : str)
| CloseMenu.

Definition perform (skills : option (list Skill))
           (chatInput : option Element) (st : State) (a : Action)
  : option Element * State :=
  match a with
  | UpdateSlashMenu => (chatInput, updateSlashMenu skills chatInput st)
  | SelectItem item => selectItem chatInput st item
  | KeyDown key =>
      let r := handleSlashKeyDown skills chatInput st key in
      (key_input r, key_state r)
  | CloseMenu => (chatInput, closeMenu st)
  end.

(** One action, then the render and the effects it schedules. *)
Definition step (skills : option (list Skill))
           (chatInput : option Element) (st : State) (a : Action)
  : option Element * State :=
  let r := perform skills chatInput st a in
  (fst r, resetIndexEffect (filterText st) (snd r)).

End Hook.

(** ** The properties, in the words of the specification *)

(** The code unit before the position once [d] has been read. *)
Definition prevAfter (prev : option ascii) (d : str) : option ascii :=
  fold_left (fun _ c => Some c) d prev.

(** The continuation that accepts at the end of input only. *)
Definition atEnd (st : mstate) : option mstate :=
  if atEol false st then Some st else None.

(** Every capture satisfies [C]. *)
Definition capsAll (C : str -> Prop) (caps : list (nat * str)) : Prop :=
  Forall (fun nv => C (snd nv)) caps.

(** A matcher state whose remaining input satisfies [I] and whose
    captures satisfy [C]. *)
Definition stateOk (I C : str -> Prop) (st : mstate) : Prop :=
  I (m_rest st) /\ capsAll C (m_caps st).

Module Spec.

Import Menu Hook.

(** *** Markdown-decorated strings without nesting

    A decorated string is a sequence of items: plain characters,
    images, links and spans, a span being a non-empty plain text on one
    line between two copies of a delimiter. *)

Inductive delim : Type :=
| Star3 | Star2 | Star1 | Under3 | Under2 | Under1 | Code | Strike.

Definition delimChar (d : delim) : ascii :=
  match d with
  | Star3 | Star2 | Star1 => "*"%char
  | Under3 | Under2 | Under1 => "_"%char
  | Code => BACKQUOTE
  | Strike => "~"%char
  end.

Definition delimLen (d : delim) : nat :=
  match d with
  | Star3 | Under3 => 3
  | Star2 | Under2 | Strike => 2
  | Star1 | Under1 | Code => 1
  end.

Definition delimStr (d : delim) : str := repeat (delimChar d) (delimLen d).

Inductive item : Type :=
| Text (c : ascii)
| Image (alt url : str)
| Link (text url : str)
| Span (d : delim) (inner : str).

Definition source (i : item) : str :=
  match i with
  | Text c => [c]
  | Image alt url => js "![" ++ alt ++ js "](" ++ url ++ js ")"
  | Link text url => js "[" ++ text ++ js "](" ++ url ++ js ")"
  | Span d inner => delimStr d ++ inner ++ delimStr d
  end.

(** What an item reads as once its delimiters are gone. *)
Definition itemText (i : item) : str :=
  match i with
  | Text c => [c]
  | Image alt _ => alt
  | Link text _ => text
  | Span _ inner => inner
  end.

Definition sourceOf (items : list item) : str := flat_map source items.
Definition textOf (items : list item) : str := flat_map itemText items.

(** The characters that take part in the markup. *)
Definition isMarkup (c : ascii) : bool :=
  Ascii.eqb c "*" || Ascii.eqb c "_" || Ascii.eqb c BACKQUOTE ||
  Ascii.eqb c "~" || Ascii.eqb c "[" || Ascii.eqb c "]".

Definition Plain (s : str) : Prop := Forall (fun c => isMarkup c = false) s.

Definition WfItem (i : item) : Prop :=
  match i with
  | Text c => isMarkup c = false
  | Image alt url => Plain alt /\ Forall (fun c => c <> ")"%char) url
  | Link text url =>
      Plain text /\
      Forall (fun c => c <> ")"%char /\ c <> "["%char) url
  | Span _ inner =>
      inner <> [] /\ Plain inner /\
      Forall (fun c => isLineTerminator c = false) inner
  end.

(** What may follow an item: no link right after an exclamation mark
    (that is an image), and after a span neither a span with the same
    delimiter character nor a link or image without text. *)
Definition Follows (i : item) (next : list item) : Prop :=
  match i, next with
  | Text c, Link _ _ :: _ => c <> "!"%char
  | Span d _, Span d' _ :: _ => delimChar d <> delimChar d'
  | Span _ _, Link t _ :: _ => t <> []
  | Span _ _, Image t _ :: _ => t <> []
  | _, _ => True
  end.

Fixpoint WellFormed (items : list item) : Prop :=
  match items with
  | [] => True
  | i :: rest => WfItem i /\ Follows i rest /\ WellFormed rest
  end.

(** The passes of [stripMarkdown], in order, and the pass that strips
    an item. *)
Definition passes : list regex :=
  [reImage; reLink;
   reDelim (delimStr Star3); reDelim (delimStr Star2);
   reDelim (delimStr Star1); reDelim (delimStr Under3);
   reDelim (delimStr Under2); reDelim (delimStr Under1);
   reDelim (delimStr Code); reDelim (delimStr Strike)].

Definition stageOfDelim (d : delim) : nat :=
  match d with
  | Star3 => 2 | Star2 => 3 | Star1 => 4
  | Under3 => 5 | Under2 => 6 | Under1 => 7
  | Code => 8 | Strike => 9
  end.

Definition stageOf (i : item) : nat :=
  match i with
  | Text _ => 0
  | Image _ _ => 0
  | Link _ _ => 1
  | Span d _ => stageOfDelim d
  end.

(** The text after the first [k] passes. *)
Definition renderItem (k : nat) (i : item) : str :=
  if (stageOf i <? k)%nat then itemText i else source i.

Definition render (k : nat) (items : list item) : str :=
  flat_map (renderItem k) items.

(** The common part of the image and link patterns, from the text in
    brackets on. *)
Definition bracketTail : list regex :=
  [Group 1 (Star true (notChar "]")); lit (js "](");
   Star true (notChar ")"); lit (js ")")].

(** The first character of [t], if any, is not [h]. *)
Definition headNot (h : ascii) (t : str) : Prop :=
  match t with
  | c :: _ => c <> h
  | [] => True
  end.

(** A decorated string with one item of each kind:
    "see [docs](http://example.com) **bold** ![alt](i.png)`x`". *)
Definition demoDoc : list item :=
  map Text (js "see ") ++
  [Link (js "docs") (js "http://example.com"); Text " ";
   Span Star2 (js "bold"); Text " ";
   Image (js "alt") (js "i.png"); Span Code (js "x")].

(** The strings on which the second run of [stripMarkdown] differs. *)
Definition bracketThenEmphasis : str := js "[a]*(b)*".
Definition emptyLinkBetween : str := js "[a][](u)(b)".

(** A sentence terminator. *)
Definition Terminator (c : ascii) : Prop :=
  c = "."%char \/ c = "!"%char \/ c = "?"%char.

(** The class of [reSentence]'s quantifier. *)
Definition sentenceClass (c : ascii) : bool :=
  negb (isTerminator c || Ascii.eqb c NL).

(** A line that can serve as the description: not empty, not a
    heading, not a frontmatter delimiter. *)
Definition Meaningful (line : str) : Prop :=
  line <> [] /\ (forall rest, line <> "#"%char :: rest) /\
  line <> js "---".

(** [res] is the first sentence of [s]: the prefix up to and including
    the first terminator, or the whole of [s] when it has none. *)
Definition FirstSentence (s res : str) : Prop :=
  (exists pre c post,
      s = pre ++ c :: post /\ Terminator c /\
      Forall (fun x => ~ Terminator x) pre /\ res = pre ++ [c]) \/
  (Forall (fun x => ~ Terminator x) s /\ res = s).

(** The frontmatter block is what [reFrontmatter] matches at the start
    of the content; the description field is what [reDescription]
    finds in it. *)
Definition NoDescriptionField (content : str) : Prop :=
  match exec false reFrontmatter content with
  | Some fm => exec true reDescription (group 1 fm) = None
  | None => True
  end.

(** The closing fence, a line break and three dashes, does not start
    inside [fm]. *)
Definition NoFence (fm : str) : Prop :=
  forall a b, fm = a ++ b -> b <> [] ->
              prefixb (NL :: js "---") (b ++ NL :: js "---") = false.

(** [a] ends a line: what comes after it starts one. *)
Definition LineStart (a : str) : Prop :=
  a = [] \/ exists a' c, a = a' ++ [c] /\ isLineTerminator c = true.

(** No line of [before] starts with the field's name. *)
Definition NoFieldBefore (before : str) : Prop :=
  forall a b, before = a ++ b -> b <> [] -> LineStart a ->
              prefixb (js "description:") (b ++ js "description:") = false.

Definition withoutFrontmatter (content : str) : str :=
  match exec false reFrontmatter content with
  | Some fm => skipn (length (r_match fm)) content
  | None => content
  end.

(** Candidate construction, in the words of the rule.  A trigger
    counts when its first character is the slash. *)
Definition slashed (t : str) : bool :=
  match t with
  | c :: _ => if ascii_dec c "/"%char then true else false
  | [] => false
  end.

Definition slashedTriggers (s : Skill) : list str :=
  match triggers s with
  | Some ts => filter slashed ts
  | None => []
  end.

(** The candidates one skill contributes: one per trigger that starts
    with a slash, with that trigger as the command; when there is none,
    the command "/name" for a skill of type "agentskills"; else
    nothing. *)
Definition candidatesOf (s : Skill) : list SlashCommandItem :=
  match slashedTriggers s with
  | [] =>
      if list_eq_dec ascii_dec (type s) (js "agentskills")
      then [mkItem s ("/"%char :: name s)]
      else []
  | ts => map (mkItem s) ts
  end.

(** The capital letters among the code units below 256, as Unicode has
    them: A to Z, and the accented capitals U+00C0 to U+00DE without
    the multiplication sign U+00D7.  The small letter of a capital
    stands 32 places after it, and no other code unit below 256 has a
    case. *)
Definition Capital (c : ascii) : Prop :=
  let n := nat_of_ascii c in
  (65 <= n <= 90) \/ (192 <= n <= 222 /\ n <> 215).

Definition SmallOf (C c : ascii) : Prop :=
  Capital C /\ nat_of_ascii c = nat_of_ascii C + 32.

(** The same character up to case. *)
Definition SameLetter (a b : ascii) : Prop :=
  a = b \/ SmallOf a b \/ SmallOf b a.

(** [x] contains [f] case-insensitively: some substring of [x] is [f]
    character by character up to case. *)
Definition ContainsCI (f x : str) : Prop :=
  exists pre mid post,
    x = pre ++ mid ++ post /\ Forall2 SameLetter mid f.

(** The rule of the filter. *)
Definition Matches (f : str) (item : SlashCommandItem) : Prop :=
  ContainsCI f (tl (command item)) \/ ContainsCI f (name (skill item)).

(** [u] does not end with a line break. *)
Definition NoTrailingBreak (u : str) : Prop :=
  forall v c, u = v ++ [c] -> isLineTerminator c = false.

(** The claim's example of a commit: the command to insert and the
    state after detection on the given input. *)
Definition foobar : SlashCommandItem :=
  mkItem (mkSkill (js "foobar") (js "agentskills") None None)
         (js "/foobar").

(** The highlighted index is one of the list's. *)
Definition InBounds (i : Z) (items : list SlashCommandItem) : Prop :=
  (0 <= i < Z.of_nat (length items))%Z.

(** The list the menu shows: [filteredItems] of the current render. *)
Definition shown (skills : option (list Skill)) (st : State)
  : list SlashCommandItem :=
  filteredItems (slashItems skills) (filterText st).

Definition cursorKeys : list str :=
  [js "ArrowLeft"; js "ArrowRight"; js "Home"; js "End"].

Definition handledKeys : list str :=
  [js "ArrowDown"; js "ArrowUp"; js "Enter"; js "Tab"; js "Escape"]
  ++ cursorKeys.

(** A skill list, an input and a state to run the hook on. *)
Definition demoSkills : option (list Skill) :=
  Some [mkSkill (js "random-number") (js "knowledge") None
                (Some [js "/random-number"]);
        mkSkill (js "code-search") (js "agentskills") None (Some [])].

Definition demoInput (text : string) (pos : nat) : option Element :=
  Some (mkElement (js text) (Some pos) true 0).

Definition demoOpen (i : Z) : State := mkState true [] i None.

Definition detected (text : string) (pos : nat) : State :=
  updateSlashMenu demoSkills (demoInput text pos) initialState.

End Spec.

(** ** slash-command-menu.tsx: the menu and its rows *)

Module MenuView.

Import Menu Hook.

(** One [SlashCommandMenuItem]: the command, the description when it is
    rendered, and [aria-selected]. *)
Record Row : Type := mkRow {
  row_command : str;
  row_description : option str;
  row_selected : bool
}.

(** [item.skill.content ? getSkillDescription(item.skill.content) : null] *)
Definition description (item : SlashCommandItem) : option str :=
  match content (skill item) with
  | None => None
  | Some [] => None
  | Some c => getSkillDescription c
  end.

(** [{description && ...}]: an empty description renders nothing. *)
Definition rendered (d : option str) : option str :=
  match d with
  | Some [] => None
  | _ => d
  end.

Definition menuItem (item : SlashCommandItem) (isSelected : bool) : Row :=
  mkRow (command item) (rendered (description item)) isSelected.

(** [items.map((item, index) => ...)] from [index] on. *)
Fixpoint rowsFrom (index : nat) (items : list SlashCommandItem)
         (selectedIndex : Z) : list Row :=
  match items with
  | [] => []
  | item :: rest =>
      menuItem item (Z.of_nat index =? selectedIndex)%Z
      :: rowsFrom (S index) rest selectedIndex
  end.

(** [SlashCommandMenu]: nothing for an empty list, else the rows. *)
Definition slashCommandMenu (items : list SlashCommandItem)
           (selectedIndex : Z) : option (list Row) :=
  match items with
  | [] => None
  | _ => Some (rowsFrom 0 items selectedIndex)
  end.

(** The menu inside [ChatInputContainer]:
    [isSlashMenuOpen && onSlashSelect && <SlashCommandMenu ... />].
    A property that is not passed takes its default: closed, no items,
    index 0; [onSlashSelect] says whether the callback was passed. *)
Definition containerMenu (isSlashMenuOpen : option bool)
           (slashItems : option (list SlashCommandItem))
           (slashSelectedIndex : option Z) (onSlashSelect : bool)
  : option (list Row) :=
  let isSlashMenuOpen :=
    match isSlashMenuOpen with Some b => b | None => false end in
  let slashItems :=
    match slashItems with Some l => l | None => [] end in
  let slashSelectedIndex :=
    match slashSelectedIndex with Some i => i | None => 0%Z end in
  if isSlashMenuOpen && onSlashSelect
  then slashCommandMenu slashItems slashSelectedIndex
  else None.

End MenuView.

(** ** Further notions used by the properties *)

(** [a] is [b] with some characters deleted. *)
Inductive Subseq : str -> str -> Prop :=
| Subseq_nil : Subseq [] []
| Subseq_keep (c : ascii) (a b : str) : Subseq a b -> Subseq (c :: a) (c :: b)
| Subseq_drop (c : ascii) (a b : str) : Subseq a b -> Subseq a (c :: b).

(** A matcher state inside the input [s0]: the remaining input is a
    suffix of [s0], and every capture lies in [s0] before it. *)
Definition Within (s0 : str) (st : mstate) : Prop :=
  (exists x, s0 = x ++ m_rest st) /\
  Forall (fun nv => exists x y, s0 = x ++ snd nv ++ y ++ m_rest st)
         (m_caps st).

(** What [reSlashWord] gives from a slash on: the rest of the input must
    be the slash and characters that are not white space; [g1] is the
    first capture. *)
Definition slashRun (g1 t : str) : option mstate :=
  match t with
  | c :: w =>
      if isChar "/" c && forallb nonSpace w
      then Some (MState (prevAfter (Some c) w) [] [(2, c :: w); (1, g1)])
      else None
  | [] => None
  end.

(** [pre] ends a word: it is empty or ends with white space. *)
Definition WordStart (pre : str) : Prop :=
  pre = [] \/ exists pre' c, pre = pre' ++ [c] /\ isWhiteSpace c = true.

(** [rest] starts after a word: it is empty or starts with white
    space. *)
Definition WordEnd (rest : str) : Prop :=
  match rest with
  | [] => True
  | c :: _ => isWhiteSpace c = true
  end.

(** The states the hook can be in: the initial one, and those one
    action later, whatever the skill list and the surface are when the
    action runs.  [useConversationSkills] is read at every render, so
    the list may differ from one action to the next. *)
Inductive Reachable : Hook.State -> Prop :=
| Reachable_init : Reachable Hook.initialState
| Reachable_step (skills : option (list Hook.Skill)) (st : Hook.State)
                 (chatInput : option Hook.Element) (a : Hook.Action) :
    Reachable st ->
    Reachable (snd (Hook.step skills chatInput st a)).

(** [SteadyRun skills st]: [st] is reached by a run in which the skill
    list changed only while the highlighted index was 0, and the list
    is [skills] now.  These are the runs in which the list stays the
    same, and those in which it arrives or is replaced before an arrow
    key has moved the highlight; a change of the list makes no action
    and no effect run, so it leaves the state as it is. *)
Inductive SteadyRun : option (list Hook.Skill) -> Hook.State -> Prop :=
| Steady_init (skills : option (list Hook.Skill)) :
    SteadyRun skills Hook.initialState
| Steady_step (skills : option (list Hook.Skill)) (st : Hook.State)
              (chatInput : option Hook.Element) (a : Hook.Action) :
    SteadyRun skills st ->
    SteadyRun skills (snd (Hook.step skills chatInput st a))
| Steady_reload (skills skills' : option (list Hook.Skill))
                (st : Hook.State) :
    SteadyRun skills st ->
    Hook.selectedIndex st = 0%Z ->
    SteadyRun skills' st.

(** Two skill lists for a run in which the list shrinks. *)
Definition twoSkills : option (list Hook.Skill) :=
  Some [Hook.mkSkill (js "alpha") (js "agentskills") None None;
        Hook.mkSkill (js "beta") (js "agentskills") None None].

Definition oneSkill : option (list Hook.Skill) :=
  Some [Hook.mkSkill (js "alpha") (js "agentskills") None None].

(** The state after "/" was typed and ArrowDown pressed while the list
    was [twoSkills]: the menu is open and the second candidate is
    highlighted. *)
Definition secondHighlighted : Hook.State :=
  snd (Hook.step twoSkills (Some (Hook.mkElement (js "/") (Some 1) true 0))
         (snd (Hook.step twoSkills
                 (Some (Hook.mkElement (js "/") (Some 1) true 0))
                 Hook.initialState Hook.UpdateSlashMenu))
         (Hook.KeyDown (js "ArrowDown"))).

(** ** Lines, trimmed lines and field values, for the description *)


(** [core] neither starts nor ends with white space. *)
Definition Tight (core : str) : Prop :=
  (exists x t, core = x :: t /\ isWhiteSpace x = false) /\
  (exists t y, core = t ++ [y] /\ isWhiteSpace y = false).

(** [core] is [l] without the white space at its two ends. *)
Definition Trimmed (l core : str) : Prop :=
  exists lead trail,
    l = lead ++ core ++ trail /\
    Forall (fun c => isWhiteSpace c = true) lead /\
    Forall (fun c => isWhiteSpace c = true) trail /\
    (core = [] \/ Tight core).


(** The text "A **bold** move" as items. *)
Definition valueDoc : list Spec.item :=
  [Spec.Text "A"; Spec.Text " "; Spec.Span Spec.Star2 (js "bold");
   Spec.Text " "] ++ map Spec.Text (js "move").

(** The lines [ls] written one after the other, a line feed between
    two of them. *)
Fixpoint joinLines (ls : list str) : str :=
  match ls with
  | [] => []
  | [l] => l
  | l :: rest => l ++ NL :: joinLines rest
  end.

(** A line the scan for the description passes over: blank, a heading,
    or three dashes, white space at its ends apart. *)
Definition Skipped (l : str) : Prop :=
  exists core,
    Trimmed l core /\
    (core = [] \/ (exists t, core = "#"%char :: t) \/ core = js "---").

(** No line of [fm] starts with the name of the description field. *)
Definition NoField (fm : str) : Prop :=
  forall a t, fm = a ++ js "description:" ++ t -> ~ Spec.LineStart a.

(** [body] is what is left of [content] without its frontmatter block.
    A content that does not start with three dashes has no block.  A
    block is a line of three dashes, lines that do not start with white
    space, hold no description field and in which no line feed is
    followed by three dashes, and a closing line of three dashes; the
    body starts at the end of that line. *)
Inductive BodyOf : str -> str -> Prop :=
| BodyOf_plain (content : str) :
    (forall t, content <> js "---" ++ t) -> BodyOf content content
| BodyOf_block (c : ascii) (fm' rest : str) :
    isWhiteSpace c = false ->
    Spec.NoFence (c :: fm') ->
    NoField (c :: fm') ->
    match rest with x :: _ => x = NL | [] => True end ->
    BodyOf (js "---" ++ NL :: (c :: fm') ++ NL :: js "---" ++ rest) rest.

(** The text "A **bold** move. More." as items. *)
Definition sentenceDoc : list Spec.item :=
  valueDoc ++ map Spec.Text (js ". More.").

(** ** The filter beyond the code units below 256

    There [String.prototype.toLowerCase] is not a map of single
    characters: a capital sigma becomes the final small sigma when a
    cased letter stands before it and none after it (Unicode's
    Final_Sigma; case-ignorable characters in between do not count),
    and the small sigma otherwise.  This module has the filter of
    use-slash-command.ts on texts over the slash and five Greek
    letters: every one of these letters is cased, and the slash is
    neither cased nor case-ignorable, so the rule is as written in
    [lowerFrom]. *)

Module Greek.

Inductive letter : Type :=
| Slash        (* U+002F *)
| Alpha        (* U+0391, the capital alpha *)
| Sigma        (* U+03A3, the capital sigma *)
| alpha        (* U+03B1 *)
| sigma        (* U+03C3 *)
| finalSigma.  (* U+03C2 *)

Definition text : Type := list letter.

Definition eqb (a b : letter) : bool :=
  match a, b with
  | Slash, Slash | Alpha, Alpha | Sigma, Sigma
  | alpha, alpha | sigma, sigma | finalSigma, finalSigma => true
  | _, _ => false
  end.

Definition cased (c : letter) : bool :=
  match c with
  | Slash => false
  | _ => true
  end.

(** [toLowerCase] from a position on: [prev] is the letter before it. *)
Fixpoint lowerFrom (prev : option letter) (s : text) : text :=
  match s with
  | [] => []
  | c :: t =>
      let before := match prev with Some p => cased p | None => false end in
      let after := match t with n :: _ => cased n | [] => false end in
      match c with
      | Alpha => alpha
      | Sigma => if before && negb after then finalSigma else sigma
      | _ => c
      end :: lowerFrom (Some c) t
  end.

Definition toLowerCase (s : text) : text := lowerFrom None s.

Fixpoint prefixb (p s : text) : bool :=
  match p, s with
  | [], _ => true
  | _ :: _, [] => false
  | a :: p', b :: s' => eqb a b && prefixb p' s'
  end.

Fixpoint includes (s needle : text) : bool :=
  prefixb needle s ||
  match s with
  | [] => false
  | _ :: t => includes t needle
  end.

(** [item.skill.name] and [item.command]. *)
Record Item : Type := mkItem {
  name : text;
  command : text
}.

Definition matchesFilter (lower : text) (item : Item) : bool :=
  includes (toLowerCase (skipn 1 (command item))) lower ||
  includes (toLowerCase (name item)) lower.

Definition filteredItems (slashItems : list Item) (filterText : text)
  : list Item :=
  match filterText with
  | [] => slashItems
  | _ => filter (matchesFilter (toLowerCase filterText)) slashItems
  end.

End Greek.

(** * Properties *)

(** ** Strings *)

Section StringFacts.

Lemma ascii_eqb_eq (a b : ascii) : Ascii.eqb a b = true <-> a = b.
Proof. apply Ascii.eqb_eq. Qed.

Lemma streq_refl (a : str) : streq a a = true.
Proof.
  induction a as [|x a IH]; simpl; [reflexivity|].
  now rewrite Ascii.eqb_refl, IH.
Qed.

Lemma streq_eq (a b : str) : streq a b = true <-> a = b.
Proof.
  split.
  - revert b; induction a as [|x a IH]; intros [|y b]; simpl;
      try discriminate; [reflexivity|].
    intros H. apply andb_prop in H as [H1 H2].
    apply Ascii.eqb_eq in H1. apply IH in H2. now subst.
  - intros ->. apply streq_refl.
Qed.

Lemma streq_neq (a b : str) : a <> b -> streq a b = false.
Proof.
  intros H. destruct (streq a b) eqn:E; [|reflexivity].
  apply streq_eq in E. contradiction.
Qed.

Lemma prefixb_app (p t : str) : prefixb p (p ++ t) = true.
Proof.
  induction p as [|a p IH]; simpl; [reflexivity|].
  now rewrite Ascii.eqb_refl, IH.
Qed.

Lemma prefixb_spec (p s : str) :
  prefixb p s = true <-> exists t, s = p ++ t.
Proof.
  split.
  - revert s; induction p as [|a p IH]; intros s H.
    + now exists s.
    + destruct s as [|b s]; simpl in H; [discriminate|].
      apply andb_prop in H as [H1 H2].
      apply Ascii.eqb_eq in H1. apply IH in H2 as [t ->].
      exists t. now subst.
  - intros [t ->]. apply prefixb_app.
Qed.

Lemma includes_spec (s needle : str) :
  includes s needle = true <-> exists pre post, s = pre ++ needle ++ post.
Proof.
  split.
  - induction s as [|c s IH]; simpl; intros H.
    + rewrite orb_false_r in H. apply prefixb_spec in H as [t Ht].
      now exists [], t.
    + apply orb_prop in H as [H|H].
      * apply prefixb_spec in H as [t Ht]. now exists [], t.
      * apply IH in H as (pre & post & ->). now exists (c :: pre), post.
  - intros (pre & post & ->).
    induction pre as [|c pre IH].
    + assert (H := prefixb_app needle post).
      simpl app. destruct (needle ++ post); simpl; now rewrite H.
    + simpl. rewrite IH. apply orb_true_r.
Qed.

Lemma sliceFrom_nat (s : str) (n : nat) :
  sliceFrom s (Z.of_nat n) = skipn n s.
Proof.
  unfold sliceFrom, slice, relIndex.
  destruct (Z.ltb_spec (Z.of_nat n) 0); [lia|].
  destruct (Z.ltb_spec (Z.of_nat (length s)) 0); [lia|].
  rewrite Z.min_id.
  destruct (Nat.le_gt_cases n (length s)) as [Hle|Hgt].
  - rewrite Z.min_l by lia. rewrite Nat2Z.id.
    apply firstn_all2. rewrite length_skipn. lia.
  - rewrite Z.min_r by lia. rewrite Nat2Z.id.
    rewrite !skipn_all2 by lia. now rewrite firstn_nil.
Qed.

Lemma slice_0_nat (s : str) (n : nat) :
  slice s 0 (Z.of_nat n) = firstn n s.
Proof.
  unfold slice, relIndex. simpl (0 <? 0)%Z. cbv iota.
  destruct (Z.ltb_spec (Z.of_nat n) 0); [lia|].
  rewrite (Z.min_l 0) by lia. simpl skipn. rewrite Z.sub_0_r.
  destruct (Nat.le_gt_cases n (length s)) as [Hle|Hgt].
  - rewrite Z.min_l by lia. now rewrite Nat2Z.id.
  - rewrite Z.min_r by lia. rewrite Nat2Z.id.
    rewrite !firstn_all2 by lia. reflexivity.
Qed.

Lemma sliceFrom_1 (s : str) : sliceFrom s 1 = tl s.
Proof. change 1%Z with (Z.of_nat 1). rewrite sliceFrom_nat. now destruct s. Qed.

Lemma firstn_prefix_len (a b : str) :
  firstn (length (a ++ b) - length b) (a ++ b) = a.
Proof.
  rewrite length_app, Nat.add_sub.
  rewrite firstn_app, Nat.sub_diag, firstn_all. apply app_nil_r.
Qed.

End StringFacts.

(** ** The matcher *)

Section MatcherFacts.

Variable multiline : bool.

Lemma prevAfter_app (prev : option ascii) (a b : str) :
  prevAfter prev (a ++ b) = prevAfter (prevAfter prev a) b.
Proof. apply fold_left_app. Qed.

Lemma rmatch_cat_cons (r : regex) (rs : list regex) (st : mstate)
      (k : mstate -> option mstate) :
  rmatch multiline (cat (r :: rs)) st k =
  rmatch multiline r st (fun st' => rmatch multiline (cat rs) st' k).
Proof. reflexivity. Qed.

Lemma rmatch_cat_nil (st : mstate) (k : mstate -> option mstate) :
  rmatch multiline (cat []) st k = k st.
Proof. reflexivity. Qed.

Lemma rmatch_lit (d : str) (prev : option ascii) (s : str)
      (caps : list (nat * str)) (k : mstate -> option mstate) :
  rmatch multiline (lit d) (MState prev s caps) k =
  if prefixb d s
  then k (MState (prevAfter prev d) (skipn (length d) s) caps)
  else None.
Proof.
  revert prev s; induction d as [|a d IH]; intros prev s.
  - reflexivity.
  - change (lit (a :: d)) with (Seq (Chr (isChar a)) (lit d)).
    destruct s as [|c s]; [reflexivity|].
    simpl. unfold isChar. destruct (Ascii.eqb a c) eqn:E; [|reflexivity].
    apply Ascii.eqb_eq in E. subst c. simpl. apply IH.
Qed.

Lemma rmatch_lit_app (d : str) (prev : option ascii) (s : str)
      (caps : list (nat * str)) (k : mstate -> option mstate) :
  rmatch multiline (lit d) (MState prev (d ++ s) caps) k =
  k (MState (prevAfter prev d) s caps).
Proof.
  rewrite rmatch_lit, prefixb_app.
  now rewrite skipn_app, skipn_all, Nat.sub_diag.
Qed.

Lemma rmatch_lit_head (d : str) (a : ascii) (prev : option ascii)
      (s : str) (caps : list (nat * str)) (k : mstate -> option mstate) :
  match s with c :: _ => c <> a | [] => True end ->
  rmatch multiline (lit (a :: d)) (MState prev s caps) k = None.
Proof.
  intros H. rewrite rmatch_lit. destruct s as [|c s]; [reflexivity|].
  simpl. destruct (Ascii.eqb a c) eqn:E; [|reflexivity].
  apply Ascii.eqb_eq in E. congruence.
Qed.

(** A quantifier fails when its continuation fails after every prefix
    of characters of the class. *)
Lemma star_none (greedy : bool) (p : ascii -> bool) (prev : option ascii)
      (s : str) (caps : list (nat * str)) (k : mstate -> option mstate) :
  (forall a b, s = a ++ b -> Forall (fun c => p c = true) a ->
               k (MState (prevAfter prev a) b caps) = None) ->
  star greedy p prev s caps k = None.
Proof.
  revert prev; induction s as [|c t IH]; intros prev H.
  - simpl. apply (H [] []); [reflexivity|constructor].
  - simpl.
    assert (H0 : k (MState prev (c :: t) caps) = None)
      by (apply (H [] (c :: t)); [reflexivity|constructor]).
    destruct (p c) eqn:Ec; [|exact H0].
    assert (H1 : star greedy p (Some c) t caps k = None).
    { apply IH. intros a b -> Ha.
      apply (H (c :: a) b); [reflexivity|]. now constructor. }
    rewrite H0, H1. now destruct greedy.
Qed.

(** A greedy quantifier takes the whole run when the continuation
    accepts after it. *)
Lemma star_greedy_take (p : ascii -> bool) (prev : option ascii)
      (a b : str) (caps : list (nat * str))
      (k : mstate -> option mstate) (res : mstate) :
  Forall (fun c => p c = true) a ->
  k (MState (prevAfter prev a) b caps) = Some res ->
  match b with c :: _ => p c = false | [] => True end ->
  star true p prev (a ++ b) caps k = Some res.
Proof.
  revert prev; induction a as [|x a IH]; intros prev Ha Hk Hb.
  - simpl in *. destruct b as [|c b]; simpl; [exact Hk|].
    now rewrite Hb.
  - inversion Ha as [|? ? Hx Ha']; subst. simpl. rewrite Hx.
    rewrite (IH (Some x) Ha' Hk Hb). reflexivity.
Qed.

(** A lazy quantifier stops at the first place where the continuation
    accepts. *)
Lemma star_lazy_first (p : ascii -> bool) (prev : option ascii)
      (a b : str) (caps : list (nat * str))
      (k : mstate -> option mstate) (res : mstate) :
  Forall (fun c => p c = true) a ->
  (forall a1 a2, a = a1 ++ a2 -> a2 <> [] ->
     k (MState (prevAfter prev a1) (a2 ++ b) caps) = None) ->
  k (MState (prevAfter prev a) b caps) = Some res ->
  star false p prev (a ++ b) caps k = Some res.
Proof.
  revert prev; induction a as [|x a IH]; intros prev Ha Hfail Hk.
  - simpl in *. destruct b as [|c b]; simpl; [exact Hk|].
    rewrite Hk. now destruct (p c).
  - inversion Ha as [|? ? Hx Ha']; subst. simpl. rewrite Hx.
    assert (H0 := Hfail [] (x :: a) eq_refl).
    simpl in H0. rewrite H0 by discriminate. simpl.
    apply IH; [exact Ha'| |exact Hk].
    intros a1 a2 -> Hne. apply (Hfail (x :: a1) a2 eq_refl Hne).
Qed.

(** Global replacement, one position at a time. *)
Lemma replaceFrom_skip (r : regex) (subst : list (nat * str) -> str)
      (prev : option ascii) (x s : str) :
  replaceFrom multiline r subst prev (x ++ s) (length x) =
  replaceFrom multiline r subst (prevAfter prev x) s 0.
Proof.
  revert prev; induction x as [|c x IH]; intros prev; [reflexivity|].
  simpl. apply IH.
Qed.

Lemma replaceFrom_nomatch (r : regex) (subst : list (nat * str) -> str)
      (prev : option ascii) (c : ascii) (s : str) :
  matchHere multiline r prev (c :: s) = None ->
  replaceFrom multiline r subst prev (c :: s) 0 =
  c :: replaceFrom multiline r subst (Some c) s 0.
Proof. intros H. simpl. now rewrite H. Qed.

Lemma replaceFrom_match (r : regex) (subst : list (nat * str) -> str)
      (prev : option ascii) (m s : str) (st' : mstate) :
  m <> [] ->
  matchHere multiline r prev (m ++ s) = Some st' ->
  m_rest st' = s ->
  replaceFrom multiline r subst prev (m ++ s) 0 =
  subst (m_caps st') ++
  replaceFrom multiline r subst (prevAfter prev m) s 0.
Proof.
  intros Hm Hmatch Hrest.
  destruct m as [|c m]; [contradiction|].
  change ((c :: m) ++ s) with (c :: (m ++ s)) in *.
  cbn [replaceFrom]. rewrite Hmatch, Hrest. f_equal.
  replace (length (c :: m ++ s) - length s) with (S (length m))
    by (simpl length; rewrite length_app; lia).
  apply (replaceFrom_skip r subst (Some c) m s).
Qed.

End MatcherFacts.

(** ** What a match is made of

    The remaining input is always a suffix of the input, and a capture
    is a prefix of such a suffix.  Stated for any property [I] of
    strings that suffixes inherit and any property [C] that prefixes of
    strings with [I] have. *)

Section Invariant.

Variable multiline : bool.
Variables I C : str -> Prop.
Hypothesis I_tail : forall c t, I (c :: t) -> I t.
Hypothesis C_firstn : forall s n, I s -> C (firstn n s).

Lemma star_ok (greedy : bool) (p : ascii -> bool) (Q : mstate -> Prop)
      (s : str) :
  forall (prev : option ascii) (caps : list (nat * str))
         (k : mstate -> option mstate) (res : mstate),
    I s -> capsAll C caps ->
    (forall st', stateOk I C st' -> forall res, k st' = Some res -> Q res) ->
    star greedy p prev s caps k = Some res -> Q res.
Proof.
  induction s as [|c t IH]; intros prev caps k res Hs Hc Hk H.
  - simpl in H. apply (Hk (MState prev [] caps)); [split|]; assumption.
  - simpl in H.
    assert (Hhere : forall res, k (MState prev (c :: t) caps) = Some res ->
                                Q res).
    { intros res0. apply Hk. split; assumption. }
    assert (Hnext : forall res, star greedy p (Some c) t caps k = Some res ->
                                Q res).
    { intros res0. apply IH; eauto. }
    destruct (p c); [|auto].
    destruct greedy; unfold orElse in H.
    + destruct (star true p (Some c) t caps k) eqn:E.
      * inversion H; subst. auto.
      * auto.
    + destruct (k (MState prev (c :: t) caps)) eqn:E.
      * inversion H; subst. auto.
      * auto.
Qed.

Lemma rmatch_ok (r : regex) :
  forall (Q : mstate -> Prop) (st : mstate)
         (k : mstate -> option mstate) (res : mstate),
    stateOk I C st ->
    (forall st', stateOk I C st' -> forall res, k st' = Some res -> Q res) ->
    rmatch multiline r st k = Some res -> Q res.
Proof.
  induction r as [|p|r1 IH1 r2 IH2|r1 IH1 r2 IH2|greedy p|n r IH| |];
    intros Q st k res Hst Hk H; simpl in H.
  - eauto.
  - destruct Hst as [Hs Hc].
    destruct (m_rest st) as [|c t] eqn:E; [discriminate|].
    destruct (p c); [|discriminate].
    apply (Hk (MState (Some c) t (m_caps st))); [|exact H].
    split; [exact (I_tail c t Hs)|exact Hc].
  - refine (IH1 Q st _ res Hst _ H).
    intros st' Hst' res' H'. apply (IH2 Q st' k res' Hst' Hk H').
  - unfold orElse in H.
    destruct (rmatch multiline r1 st k) eqn:E.
    + inversion H; subst. apply (IH1 Q st k res Hst Hk E).
    + apply (IH2 Q st k res Hst Hk H).
  - destruct Hst as [Hs Hc]. apply (star_ok _ _ Q _ _ _ _ _ Hs Hc Hk H).
  - refine (IH Q st _ res Hst _ H).
    intros st' [Hs' Hc'] res'. apply Hk. split; [exact Hs'|].
    constructor; [|exact Hc']. apply C_firstn. apply Hst.
  - destruct (atBol multiline st); [eauto|discriminate].
  - destruct (atEol multiline st); [eauto|discriminate].
Qed.

Lemma matchHere_ok (r : regex) (prev : option ascii) (s : str)
      (st' : mstate) :
  I s -> matchHere multiline r prev s = Some st' -> stateOk I C st'.
Proof.
  intros Hs H. unfold matchHere in H.
  apply (rmatch_ok r (stateOk I C) (MState prev s []) Some st').
  - split; [exact Hs|constructor].
  - intros st0 H0 res0 E. now inversion E; subst.
  - exact H.
Qed.

Lemma capture_ok (n : nat) (caps : list (nat * str)) (v : str) :
  capsAll C caps -> capture n caps = Some v -> C v.
Proof.
  induction caps as [|[m w] caps IH]; simpl; intros Hc H; [discriminate|].
  inversion Hc; subst.
  destruct (Nat.eqb m n).
  - inversion H; subst. assumption.
  - auto.
Qed.

Lemma execFrom_ok (r : regex) (s : str) :
  forall (prev : option ascii) (idx : nat) (res : result),
    I s -> execFrom multiline r prev s idx = Some res ->
    capsAll C (r_caps res) /\ C (r_match res).
Proof.
  induction s as [|c t IH]; intros prev idx res Hs H; simpl in H.
  - destruct (matchHere multiline r prev []) eqn:E; [|discriminate].
    inversion H; subst. cbn [r_caps r_match]. split.
    + apply (matchHere_ok r prev [] m Hs E).
    + apply (C_firstn [] 0 Hs).
  - destruct (matchHere multiline r prev (c :: t)) eqn:E.
    + inversion H; subst. cbn [r_caps r_match]. split.
      * apply (matchHere_ok r prev (c :: t) m Hs E).
      * apply C_firstn, Hs.
    + apply (IH (Some c) (S idx) res (I_tail c t Hs) H).
Qed.

End Invariant.

(** Global replacement by the first capture adds no character. *)
Section Preservation.

Variable multiline : bool.
Variable P : ascii -> Prop.

Lemma dollar1_Forall (caps : list (nat * str)) :
  capsAll (Forall P) caps -> Forall P (dollar1 caps).
Proof.
  intros H. unfold dollar1.
  destruct (capture 1 caps) eqn:E; [|constructor].
  apply (capture_ok (Forall P) 1 caps s H E).
Qed.

Lemma Forall_tail (c : ascii) (t : str) : Forall P (c :: t) -> Forall P t.
Proof. intros H. now inversion H. Qed.

Lemma Forall_firstn (s : str) (n : nat) : Forall P s -> Forall P (firstn n s).
Proof.
  revert n; induction s as [|c s IH]; intros [|n] H; simpl;
    try constructor; inversion H; subst; auto.
Qed.

Lemma replaceFrom_Forall (r : regex) (s : str) :
  forall (prev : option ascii) (skip : nat),
    Forall P s ->
    Forall P (replaceFrom multiline r dollar1 prev s skip).
Proof.
  induction s as [|c t IH]; intros prev skip Hs.
  - simpl. destruct skip; [|constructor].
    destruct (matchHere multiline r prev []) eqn:E; [|constructor].
    apply dollar1_Forall.
    apply (matchHere_ok multiline (Forall P) (Forall P)
             Forall_tail Forall_firstn r prev [] m Hs E).
  - assert (Ht : Forall P t) by (now inversion Hs).
    assert (Hc : P c) by (now inversion Hs).
    cbn [replaceFrom]. destruct skip as [|n]; [|apply IH, Ht].
    destruct (matchHere multiline r prev (c :: t)) eqn:E.
    + apply Forall_app. split.
      * apply dollar1_Forall.
        apply (matchHere_ok multiline (Forall P) (Forall P)
                 Forall_tail Forall_firstn r prev (c :: t) m Hs E).
      * destruct (length (c :: t) - length (m_rest m)).
        -- constructor; [exact Hc|apply IH, Ht].
        -- apply IH, Ht.
    + constructor; [exact Hc|apply IH, Ht].
Qed.

End Preservation.

Lemma stripMarkdown_Forall (P : ascii -> Prop) (s : str) :
  Forall P s -> Forall P (Menu.stripMarkdown s).
Proof.
  intros H. unfold Menu.stripMarkdown, replaceAll.
  repeat apply replaceFrom_Forall. exact H.
Qed.

(** ** The hook: candidates and filtering *)

Section Candidates.

Import Hook Spec.

Lemma fold_left_push (s : Skill) (ts : list str)
      (acc : list SlashCommandItem) :
  fold_left (fun items trigger => push items (mkItem s trigger)) ts acc
  = acc ++ map (mkItem s) ts.
Proof.
  revert acc; induction ts as [|t ts IH]; intros acc; simpl.
  - now rewrite app_nil_r.
  - rewrite IH. unfold push. now rewrite <- app_assoc.
Qed.

Lemma slashed_startsWith (t : str) : startsWith t (js "/") = slashed t.
Proof.
  destruct t as [|c t]; [reflexivity|].
  unfold startsWith, slashed. change (js "/") with ["/"%char].
  cbn [prefixb]. rewrite andb_true_r.
  destruct (ascii_dec c "/"%char) as [->|Hc]; [reflexivity|].
  destruct (Ascii.eqb "/" c) eqn:E; [|reflexivity].
  apply Ascii.eqb_eq in E. congruence.
Qed.

Lemma slashTriggersOf_slashed (s : Skill) :
  slashTriggersOf s = slashedTriggers s.
Proof.
  unfold slashTriggersOf, slashedTriggers.
  destruct (triggers s) as [ts|]; [|reflexivity].
  apply filter_ext. intros t. apply slashed_startsWith.
Qed.

Lemma addSkill_candidates (items : list SlashCommandItem) (s : Skill) :
  addSkill items s = items ++ candidatesOf s.
Proof.
  unfold addSkill, candidatesOf. rewrite slashTriggersOf_slashed.
  destruct (slashedTriggers s) as [|t ts] eqn:E.
  - cbn [length Nat.ltb Nat.leb].
    destruct (list_eq_dec ascii_dec (type s) (js "agentskills")) as [Et|Et].
    + rewrite Et, streq_refl. reflexivity.
    + rewrite (streq_neq _ _ Et). now rewrite app_nil_r.
  - change (0 <? length (t :: ts))%nat with true. cbv iota.
    apply fold_left_push.
Qed.

Lemma fold_left_addSkill (l : list Skill) (acc : list SlashCommandItem) :
  fold_left addSkill l acc = acc ++ flat_map candidatesOf l.
Proof.
  revert acc; induction l as [|s l IH]; intros acc; simpl.
  - now rewrite app_nil_r.
  - rewrite IH, addSkill_candidates. now rewrite <- app_assoc.
Qed.

(** C4. No skill list gives no candidate.  Otherwise the candidate
    list is, skill after skill in the order of the skill list, what each
    skill contributes: its triggers that start with a slash, each as a
    command and in their order, when it has some; otherwise the one
    command "/name" when its type is "agentskills"; otherwise nothing.
    For the skills a (trigger "/a") and b (type "agentskills", no
    trigger) the commands are "/a" then "/b"; of the triggers "/x", "y",
    "/z" of one skill only "/x" and "/z" become commands; a skill whose
    only trigger is "y" gives "/name" when its type is "agentskills" and
    nothing when it is "knowledge". *)
Theorem slashItems_candidates :
  slashItems None = [] /\
  (forall skills : list Skill,
      slashItems (Some skills) = flat_map candidatesOf skills) /\
  (forall (ty : str) (ca cb : option str),
      let a := mkSkill (js "a") ty ca (Some [js "/a"]) in
      let b := mkSkill (js "b") (js "agentskills") cb (Some []) in
      slashItems (Some [a; b]) = [mkItem a (js "/a"); mkItem b (js "/b")]) /\
  (forall (n ty : str) (c : option str),
      let s := mkSkill n ty c (Some [js "/x"; js "y"; js "/z"]) in
      slashItems (Some [s]) = [mkItem s (js "/x"); mkItem s (js "/z")]) /\
  (forall (n : str) (c : option str),
      let s := mkSkill n (js "agentskills") c (Some [js "y"]) in
      let k := mkSkill n (js "knowledge") c (Some [js "y"]) in
      slashItems (Some [s]) = [mkItem s ("/"%char :: n)] /\
      slashItems (Some [k]) = []).
Proof.
  split; [reflexivity|]. split; [|split; [|split]].
  - intros skills. unfold slashItems. apply fold_left_addSkill.
  - intros ty ca cb. reflexivity.
  - intros n ty c. reflexivity.
  - intros n c. split; reflexivity.
Qed.

Lemma toLowerCase_app (a b : str) :
  toLowerCase (a ++ b) = toLowerCase a ++ toLowerCase b.
Proof. apply map_app. Qed.

Lemma nat_of_ascii_inj (a b : ascii) :
  nat_of_ascii a = nat_of_ascii b -> a = b.
Proof.
  intros H. rewrite <- (ascii_nat_embedding a), <- (ascii_nat_embedding b).
  now rewrite H.
Qed.

(** [lowerChar] moves the capitals to their small letters and keeps
    every other code unit. *)
Lemma lowerChar_cases (c : ascii) :
  (Capital c /\ nat_of_ascii (lowerChar c) = nat_of_ascii c + 32) \/
  (~ Capital c /\ lowerChar c = c).
Proof.
  unfold lowerChar, Capital. cbv zeta.
  assert (Hb := nat_ascii_bounded c).
  set (n := nat_of_ascii c) in *.
  destruct (Nat.leb_spec 65 n), (Nat.leb_spec n 90),
           (Nat.leb_spec 192 n), (Nat.leb_spec n 222),
           (Nat.eqb_spec n 215);
    cbn [andb orb negb];
    try (right; split; [lia|reflexivity]);
    left; (split; [lia|apply nat_ascii_embedding; lia]).
Qed.

Lemma sameLetter_lower (a b : ascii) :
  lowerChar a = lowerChar b <-> SameLetter a b.
Proof.
  unfold SameLetter, SmallOf.
  destruct (lowerChar_cases a) as [[Ha Ea]|[Ha Ea]],
           (lowerChar_cases b) as [[Hb Eb]|[Hb Eb]].
  - split.
    + intros E. left. apply nat_of_ascii_inj. rewrite E in Ea. lia.
    + intros [->|[[_ E]|[_ E]]]; [reflexivity| |];
        exfalso; unfold Capital in *; cbv zeta in *; lia.
  - rewrite Eb. split.
    + intros E. right. left. split; [exact Ha|]. now rewrite <- E.
    + intros [->|[[_ E]|[Hb' _]]]; [contradiction| |contradiction].
      apply nat_of_ascii_inj. now rewrite Ea.
  - rewrite Ea. split.
    + intros E. right. right. split; [exact Hb|]. now rewrite E.
    + intros [->|[[Ha' _]|[_ E]]]; [contradiction|contradiction|].
      apply nat_of_ascii_inj. now rewrite Eb.
  - rewrite Ea, Eb. split; [now left|].
    intros [->|[[Ha' _]|[Hb' _]]]; [reflexivity|contradiction|contradiction].
Qed.

Lemma sameLetters_lower (mid f : str) :
  toLowerCase mid = toLowerCase f <-> Forall2 SameLetter mid f.
Proof.
  revert f; induction mid as [|a mid IH]; intros [|b f]; cbn [toLowerCase map].
  - split; [constructor|reflexivity].
  - split; [discriminate|intros H; inversion H].
  - split; [discriminate|intros H; inversion H].
  - split.
    + intros E. injection E as E1 E2. constructor.
      * now apply sameLetter_lower.
      * now apply IH.
    + intros H. inversion H; subst. f_equal.
      * now apply sameLetter_lower.
      * now apply IH.
Qed.

Lemma containsCI_includes (f x : str) :
  ContainsCI f x <-> includes (toLowerCase x) (toLowerCase f) = true.
Proof.
  rewrite includes_spec. split.
  - intros (pre & mid & post & -> & Hmid).
    apply sameLetters_lower in Hmid.
    exists (toLowerCase pre), (toLowerCase post).
    now rewrite !toLowerCase_app, Hmid.
  - intros (pre' & post' & H).
    unfold toLowerCase in H at 1.
    apply map_eq_app in H as (pre & rest & -> & Hpre & Hrest).
    apply map_eq_app in Hrest as (mid & post & -> & Hmid & Hpost).
    exists pre, mid, post. split; [reflexivity|].
    now apply sameLetters_lower.
Qed.

Lemma matchesFilter_spec (f : str) (item : SlashCommandItem) :
  matchesFilter (toLowerCase f) item = true <-> Matches f item.
Proof.
  unfold matchesFilter, Matches. rewrite sliceFrom_1.
  rewrite orb_true_iff, !containsCI_includes. reflexivity.
Qed.

(** C5, for commands, skill names and filter texts of code units below
    256.  With an empty filter text the filtered list is the whole
    candidate list.  With a non-empty filter text it keeps, in their
    order, exactly the candidates whose command without its first
    character, or whose skill name, contains the filter text up to the
    case of its letters.  Filter "ra", and also "RA", over
    /random-number and /code-search keeps /random-number only; filter
    "search" keeps a candidate /cs of the skill named Code-Search. *)
Theorem filteredItems_matches :
  (forall items, filteredItems items [] = items) /\
  (forall items f,
      f <> [] ->
      exists keep : SlashCommandItem -> bool,
        filteredItems items f = filter keep items /\
        forall item, keep item = true <-> Matches f item) /\
  (forall (t1 t2 : str) (c1 c2 : option str) (g1 g2 : option (list str)),
      let random := mkItem (mkSkill (js "random-number") t1 c1 g1)
                           (js "/random-number") in
      let search := mkItem (mkSkill (js "code-search") t2 c2 g2)
                           (js "/code-search") in
      let named := mkItem (mkSkill (js "Code-Search") t2 c2 g2)
                          (js "/cs") in
      filteredItems [random; search] (js "ra") = [random] /\
      filteredItems [random; search] (js "RA") = [random] /\
      filteredItems [random; named] (js "search") = [named]).
Proof.
  split; [reflexivity|]. split.
  - intros items f Hf.
    exists (matchesFilter (toLowerCase f)). split.
    + destruct f; [contradiction|reflexivity].
    + intros item. apply matchesFilter_spec.
  - intros. repeat split; reflexivity.
Qed.

Lemma filteredItems_matches_witness :
  exists keep : SlashCommandItem -> bool,
    filteredItems (slashItems demoSkills) (js "RA") =
    filter keep (slashItems demoSkills) /\
    forall item, keep item = true <-> Matches (js "RA") item.
Proof.
  assert (H : js "RA" <> []) by (vm_compute; discriminate).
  exact (proj1 (proj2 filteredItems_matches) (slashItems demoSkills)
           (js "RA") H).
Defined.

(** C5 as the claim states it, for every text: the skill named
    ALPHA SIGMA ALPHA (capitals) contains the filter text ALPHA SIGMA
    as it stands, and the filter drops it, because the sigma that ends
    the filter text becomes the final sigma and the one inside the name
    does not. *)
Lemma filter_misses_final_sigma :
  Greek.filteredItems
    [Greek.mkItem [Greek.Alpha; Greek.Sigma; Greek.Alpha] [Greek.Slash]]
    [Greek.Alpha; Greek.Sigma] = [] /\
  [Greek.Alpha; Greek.Sigma; Greek.Alpha] =
  [] ++ [Greek.Alpha; Greek.Sigma] ++ [Greek.Alpha].
Proof. split; reflexivity. Qed.

(** On such texts a longer filter text can keep what a shorter one
    dropped. *)
Example greek_filter_widens :
  let item := Greek.mkItem [Greek.Alpha; Greek.Sigma; Greek.Alpha]
                           [Greek.Slash] in
  Greek.filteredItems [item] [Greek.Alpha; Greek.Sigma] = [] /\
  Greek.filteredItems [item] [Greek.Alpha; Greek.Sigma; Greek.Alpha] =
  [item].
Proof. split; reflexivity. Qed.

End Candidates.

(** ** The hook: keyboard navigation and menu state *)

Section Keyboard.

Import Hook Spec.

Variable skills : option (list Skill).
Variable chatInput : option Element.

#[local] Abbreviation shown := (Spec.shown skills).

Lemma handle_active (st : State) :
  isMenuOpen st = true ->
  shown st <> [] ->
  negb (isMenuOpen st) || (length (shown st) =? 0)%nat = false.
Proof.
  intros -> H. destruct (shown st); [contradiction|reflexivity].
Qed.

Ltac open_handler Hopen Hitems :=
  unfold handleSlashKeyDown; cbv zeta;
  fold (Spec.shown skills);
  rewrite handle_active by assumption.

(** C7. While the menu is open with n >= 1 filtered candidates,
    ArrowDown moves the highlighted index from i to i+1 when i < n-1 and
    from n-1 to 0, ArrowUp moves it from i to i-1 when i > 0 and from 0
    to n-1; both keys are consumed, their default action is suppressed,
    and nothing else changes. *)
Theorem arrow_keys_wrap (st : State) :
  isMenuOpen st = true ->
  (1 <= Z.of_nat (length (shown st)))%Z ->
  let n := Z.of_nat (length (shown st)) in
  let i := selectedIndex st in
  let down := handleSlashKeyDown skills chatInput st (js "ArrowDown") in
  let up := handleSlashKeyDown skills chatInput st (js "ArrowUp") in
  (consumed down = true /\ defaultPrevented down = true /\
   ((i < n - 1)%Z -> selectedIndex (key_state down) = (i + 1)%Z) /\
   (i = (n - 1)%Z -> selectedIndex (key_state down) = 0%Z)) /\
  (consumed up = true /\ defaultPrevented up = true /\
   ((i > 0)%Z -> selectedIndex (key_state up) = (i - 1)%Z) /\
   (i = 0%Z -> selectedIndex (key_state up) = (n - 1)%Z)) /\
  (forall r, r = down \/ r = up ->
     key_input r = chatInput /\
     isMenuOpen (key_state r) = true /\
     filterText (key_state r) = filterText st /\
     slashRange (key_state r) = slashRange st).
Proof.
  intros Hopen Hn n i down up.
  assert (Hitems : shown st <> []).
  { intros E. rewrite E in Hn. simpl in Hn. lia. }
  assert (Hdown : down =
    mkKeyResult true true chatInput
      (mkState (isMenuOpen st) (filterText st)
               (if (i <? n - 1)%Z then (i + 1)%Z else 0%Z) (slashRange st))).
  { subst down. open_handler Hopen Hitems. reflexivity. }
  assert (Hup : up =
    mkKeyResult true true chatInput
      (mkState (isMenuOpen st) (filterText st)
               (if (i >? 0)%Z then (i - 1)%Z else (n - 1)%Z) (slashRange st))).
  { subst up. open_handler Hopen Hitems. reflexivity. }
  clearbody down up. subst down up. simpl.
  split; [|split].
  - repeat split.
    + intros Hi. destruct (Z.ltb_spec i (n - 1)); [reflexivity|lia].
    + intros Hi. destruct (Z.ltb_spec i (n - 1)); [lia|reflexivity].
  - repeat split.
    + intros Hi. destruct (Z.gtb_spec i 0); [reflexivity|lia].
    + intros Hi. destruct (Z.gtb_spec i 0); [lia|reflexivity].
  - intros r [-> | ->]; simpl; auto.
Qed.

(** C8. While the menu is open with at least one filtered candidate,
    each of ArrowLeft, ArrowRight, Home and End closes the menu and is
    not consumed (the handler returns false and does not suppress the
    default action); a key that is none of ArrowDown, ArrowUp, Enter,
    Tab, Escape and these four changes nothing and is not consumed. *)
Theorem cursor_keys_close_unconsumed (st : State) :
  isMenuOpen st = true ->
  shown st <> [] ->
  (forall key, In key cursorKeys ->
     handleSlashKeyDown skills chatInput st key =
     mkKeyResult false false chatInput
       (mkState false (filterText st) (selectedIndex st) (slashRange st)))
  /\
  (forall key, ~ In key handledKeys ->
     handleSlashKeyDown skills chatInput st key =
     mkKeyResult false false chatInput st).
Proof.
  intros Hopen Hitems. split.
  - intros key Hkey. open_handler Hopen Hitems.
    simpl in Hkey.
    destruct Hkey as [<-|[<-|[<-|[<-|[]]]]]; reflexivity.
  - intros key Hkey. open_handler Hopen Hitems.
    assert (Hne : forall k, In k handledKeys -> streq key k = false).
    { intros k Hk. apply streq_neq. intros ->. contradiction. }
    rewrite !Hne by (simpl; tauto). reflexivity.
Qed.

Lemma handle_inactive (st : State) (key : str) :
  isMenuOpen st = false \/ shown st = [] ->
  handleSlashKeyDown skills chatInput st key =
  mkKeyResult false false chatInput st.
Proof.
  intros H. unfold handleSlashKeyDown. cbv zeta.
  fold (Spec.shown skills st).
  destruct H as [-> | ->]; [reflexivity|].
  simpl. now rewrite orb_true_r.
Qed.

(** C9. [updateSlashMenu] opens the menu exactly when a slash word is
    detected at the caret and the unfiltered candidate list is not
    empty; the filter text takes no part.  So when a slash word is
    detected, there are candidates and none matches the filter text, the
    menu is open over an empty filtered list, and then the keyboard
    handler consumes no key and changes nothing. *)
Theorem menu_opens_on_unfiltered_list (st : State) :
  (isMenuOpen (updateSlashMenu skills chatInput st) =
   match getSlashText chatInput with
   | Some _ => negb (length (slashItems skills) =? 0)%nat
   | None => false
   end) /\
  (forall word,
     getSlashText chatInput = Some word ->
     slashItems skills <> [] ->
     filteredItems (slashItems skills) (st_text word) = [] ->
     let st' := updateSlashMenu skills chatInput st in
     isMenuOpen st' = true /\
     filterText st' = st_text word /\
     shown st' = [] /\
     forall key,
       handleSlashKeyDown skills chatInput st' key =
       mkKeyResult false false chatInput st').
Proof.
  split.
  - unfold updateSlashMenu. destruct (getSlashText chatInput).
    + destruct (slashItems skills); reflexivity.
    + reflexivity.
  - intros word Hword Hitems Hnone st'.
    assert (E : st' = mkState true (st_text word) (selectedIndex st)
                        (Some (mkRange (st_start word) (st_end word)))).
    { subst st'. unfold updateSlashMenu. rewrite Hword.
      destruct (slashItems skills); [contradiction|reflexivity]. }
    assert (Hshown : shown st' = []) by (rewrite E; exact Hnone).
    repeat split; try (rewrite E; reflexivity); [exact Hshown|].
    intros key. apply handle_inactive. now right.
Qed.

(** C10. A step of the hook that changes the filter text leaves the
    highlighted index at 0, which is in bounds of every non-empty
    list. *)
Theorem filter_change_resets_index (st : State) (a : Action) :
  let st' := snd (step skills chatInput st a) in
  filterText st' <> filterText st ->
  selectedIndex st' = 0%Z /\
  (forall items, items <> [] -> InBounds (selectedIndex st') items) /\
  (shown st' <> [] -> InBounds (selectedIndex st') (shown st')).
Proof.
  intros st' Hchange.
  assert (H0 : selectedIndex st' = 0%Z).
  { subst st'. unfold step in *. simpl in *.
    unfold resetIndexEffect in *.
    destruct (streq (filterText st)
                    (filterText (snd (perform skills chatInput st a))))
      eqn:E.
    - apply streq_eq in E. congruence.
    - reflexivity. }
  assert (Hb : forall items, items <> [] -> InBounds (selectedIndex st') items).
  { intros items Hne. rewrite H0. unfold InBounds.
    destruct items; [contradiction|]. simpl length. lia. }
  auto.
Qed.

End Keyboard.

Section KeyboardWitnesses.

Import Hook Spec.

Lemma arrow_keys_wrap_witness :
  selectedIndex
    (key_state (handleSlashKeyDown demoSkills (demoInput "/" 1)
                                   (demoOpen 1) (js "ArrowDown"))) = 0%Z.
Proof.
  assert (Hn : (1 <= Z.of_nat (length (Spec.shown demoSkills (demoOpen 1))))%Z)
    by (vm_compute; discriminate).
  destruct (arrow_keys_wrap demoSkills (demoInput "/" 1) (demoOpen 1)
              eq_refl Hn) as [(_ & _ & _ & Hlast) _].
  apply Hlast. reflexivity.
Defined.

Lemma cursor_keys_close_unconsumed_witness :
  handleSlashKeyDown demoSkills (demoInput "/" 1) (demoOpen 0)
                     (js "ArrowLeft") =
  mkKeyResult false false (demoInput "/" 1) (mkState false [] 0 None).
Proof.
  assert (Hitems : Spec.shown demoSkills (demoOpen 0) <> [])
    by discriminate.
  apply (proj1 (cursor_keys_close_unconsumed demoSkills (demoInput "/" 1)
                  (demoOpen 0) eq_refl Hitems)).
  simpl. auto.
Defined.

Lemma menu_opens_on_unfiltered_list_witness :
  let st' := updateSlashMenu demoSkills (demoInput "/zzz" 4) initialState in
  isMenuOpen st' = true /\
  filterText st' = js "zzz" /\
  Spec.shown demoSkills st' = [] /\
  forall key,
    handleSlashKeyDown demoSkills (demoInput "/zzz" 4) st' key =
    mkKeyResult false false (demoInput "/zzz" 4) st'.
Proof.
  apply (proj2 (menu_opens_on_unfiltered_list demoSkills
                  (demoInput "/zzz" 4) initialState)
               (mkSlashText (js "zzz") 0 4)).
  - reflexivity.
  - discriminate.
  - reflexivity.
Defined.

Lemma filter_change_resets_index_witness :
  selectedIndex
    (snd (step demoSkills (demoInput "/ra" 3) (demoOpen 1)
               UpdateSlashMenu)) = 0%Z.
Proof.
  apply (filter_change_resets_index demoSkills (demoInput "/ra" 3)
           (demoOpen 1) UpdateSlashMenu).
  vm_compute. discriminate.
Defined.

End KeyboardWitnesses.

(** ** The hook: committing a candidate *)

Section Commit.

Import Hook Spec.

Lemma star_atEnd (p : ascii -> bool) (prev : option ascii) (s : str)
      (caps : list (nat * str)) :
  star true p prev s caps atEnd =
  if forallb p s then Some (MState (prevAfter prev s) [] caps) else None.
Proof.
  revert prev; induction s as [|c t IH]; intros prev; [reflexivity|].
  simpl. destruct (p c); [|reflexivity].
  rewrite IH. simpl. now destruct (forallb p t).
Qed.

Lemma matchHere_trailing (prev : option ascii) (s : str) :
  matchHere false reTrailingNewlines prev s =
  match s with
  | [] => None
  | _ => if forallb isLineTerminator s
         then Some (MState (prevAfter prev s) [] [])
         else None
  end.
Proof.
  destruct s as [|c t]; [reflexivity|].
  unfold matchHere, reTrailingNewlines, plus.
  cbn [cat fold_right rmatch m_rest m_prev m_caps forallb].
  destruct (isLineTerminator c); [|reflexivity].
  change (fun st' : mstate => if atEol false st' then Some st' else None)
    with atEnd.
  change (prevAfter prev (c :: t)) with (prevAfter (Some c) t).
  rewrite andb_true_l. apply star_atEnd.
Qed.

Lemma noTrailingBreak_tail (c : ascii) (u : str) :
  NoTrailingBreak (c :: u) -> NoTrailingBreak u.
Proof. intros H v x ->. apply (H (c :: v) x). reflexivity. Qed.

Lemma noTrailingBreak_forallb (u nl : str) :
  u <> [] -> NoTrailingBreak u ->
  forallb isLineTerminator (u ++ nl) = false.
Proof.
  intros Hne H.
  destruct (exists_last Hne) as (v & c & ->).
  rewrite <- app_assoc, forallb_app. simpl.
  rewrite (H v c eq_refl). apply andb_false_r.
Qed.

Lemma execFrom_trailing (prev : option ascii) (u nl : str) (idx : nat) :
  NoTrailingBreak u ->
  forallb isLineTerminator nl = true ->
  execFrom false reTrailingNewlines prev (u ++ nl) idx =
  match nl with
  | [] => None
  | _ => Some (Result (idx + length u) nl [])
  end.
Proof.
  revert prev idx; induction u as [|c u IH]; intros prev idx Hu Hnl.
  - simpl app. destruct nl as [|x nl]; [reflexivity|].
    unfold execFrom. rewrite matchHere_trailing, Hnl.
    cbn [m_rest m_caps]. change (length (@nil ascii)) with 0.
    rewrite Nat.sub_0_r, Nat.add_0_r. now rewrite firstn_all.
  - change ((c :: u) ++ nl) with (c :: (u ++ nl)).
    cbn [execFrom]. rewrite matchHere_trailing.
    change (c :: (u ++ nl)) with ((c :: u) ++ nl).
    rewrite noTrailingBreak_forallb by (discriminate || assumption).
    rewrite IH by (eauto using noTrailingBreak_tail).
    simpl length. rewrite Nat.add_succ_r. reflexivity.
Qed.

(** The text the hook works on is the surface's text without its
    trailing line breaks. *)
Lemma currentText_strips (element : Element) (u nl : str) :
  innerText element = u ++ nl ->
  NoTrailingBreak u ->
  Forall (fun c => isLineTerminator c = true) nl ->
  currentText element = u.
Proof.
  intros Htext Hu Hnl.
  unfold currentText, replaceFirst, exec. rewrite Htext.
  rewrite execFrom_trailing;
    [|assumption|now apply forallb_forall, Forall_forall].
  destruct nl as [|x nl]; [apply app_nil_r|].
  cbn [r_index r_match]. rewrite !Nat.add_0_l.
  rewrite firstn_app, Nat.sub_diag, firstn_all, firstn_O, app_nil_r.
  rewrite skipn_all2 by (rewrite length_app; lia).
  apply app_nil_r.
Qed.

Lemma match_nonempty (A B : Type) (t : list A) (x y : B) :
  t <> [] -> match t with [] => x | _ :: _ => y end = y.
Proof. destruct t; [contradiction|reflexivity]. Qed.

Lemma slice_0_Z (s : str) (n : Z) :
  (0 <= n)%Z -> slice s 0 n = firstn (Z.to_nat n) s.
Proof.
  intros H. rewrite <- (Z2Nat.id n) at 1 by assumption.
  apply slice_0_nat.
Qed.

Lemma sliceFrom_Z (s : str) (n : Z) :
  (0 <= n)%Z -> sliceFrom s n = skipn (Z.to_nat n) s.
Proof.
  intros H. rewrite <- (Z2Nat.id n) at 1 by assumption.
  apply sliceFrom_nat.
Qed.

Lemma group_length (res : result) (n N : nat) :
  capsAll (fun v => length v <= N) (r_caps res) ->
  length (group n res) <= N.
Proof.
  intros H. unfold group.
  destruct (capture n (r_caps res)) as [v|] eqn:E; [|simpl; lia].
  apply (capture_ok (fun v => length v <= N) n (r_caps res) v H E).
Qed.

(** A detected slash word lies between 0 and its end: every range that
    [updateSlashMenu] records satisfies 0 <= start <= end. *)
Lemma getSlashText_range (chatInput : option Element) (word : SlashText) :
  getSlashText chatInput = Some word ->
  (0 <= st_start word <= st_end word)%Z.
Proof.
  unfold getSlashText. destruct chatInput as [element|]; [|discriminate].
  unfold getCursorOffset. destruct (caret element) as [n|]; [|discriminate].
  destruct (Z.ltb_spec (Z.of_nat n) 0); [lia|].
  rewrite slice_0_nat.
  set (before := firstn n (currentText element)).
  destruct (exec false reSlashWord before) as [m|] eqn:E; [|discriminate].
  intros Hw. inversion Hw; subst word; clear Hw. cbn [st_start st_end].
  assert (Hcaps : capsAll (fun v => length v <= length before) (r_caps m)).
  { apply (execFrom_ok false (fun s => length s <= length before)
             (fun v => length v <= length before)) with
        (r := reSlashWord) (s := before) (prev := None) (idx := 0).
    - intros c t Hc. simpl in Hc. lia.
    - intros s k Hs. rewrite length_firstn. lia.
    - lia.
    - exact E. }
  assert (Hg := group_length m 2 (length before) Hcaps).
  assert (Hb : length before <= n) by (subst before; apply firstn_le_length).
  unfold len.
  destruct (exec false reLeadingNonSpace
                 (sliceFrom (currentText element) (Z.of_nat n))); lia.
Qed.

Lemma updateSlashMenu_range (skills : option (list Skill))
      (chatInput : option Element) (st : State) (r : SlashRange) :
  slashRange (updateSlashMenu skills chatInput st) = Some r ->
  (0 <= range_start r <= range_end r)%Z.
Proof.
  unfold updateSlashMenu.
  destruct (getSlashText chatInput) as [word|] eqn:E; [|discriminate].
  destruct (0 <? length (slashItems skills))%nat; [|discriminate].
  intros H. inversion H; subst. cbn [range_start range_end].
  apply (getSlashText_range chatInput word E).
Qed.

(** C1 (amended). Let u be the surface's text without its trailing
    line breaks, and [start, end) a recorded range with
    0 <= start <= end.  Committing a candidate with command c sets the
    surface's text to u[0..start) ++ c ++ " " ++ u[end..) and puts the
    caret right after the inserted space; the menu state is reset, an
    input event is dispatched and the surface has focus.  The original
    text after the range is kept whole: a space that followed the slash
    word stays after the inserted one. *)
Theorem selectItem_splices (element : Element) (u nl : str) (st : State)
        (r : SlashRange) (item : SlashCommandItem) :
  innerText element = u ++ nl ->
  NoTrailingBreak u ->
  Forall (fun c => isLineTerminator c = true) nl ->
  slashRange st = Some r ->
  (0 <= range_start r <= range_end r)%Z ->
  let before := firstn (Z.to_nat (range_start r)) u in
  let after := skipn (Z.to_nat (range_end r)) u in
  selectItem (Some element) st item =
  (Some (mkElement (before ++ command item ++ js " " ++ after)
                   (Some (length (before ++ command item ++ js " ")))
                   true (S (inputEvents element))),
   mkState false [] 0 None).
Proof.
  intros Htext Hu Hnl Hr Hse before after.
  unfold selectItem. rewrite Hr.
  rewrite (currentText_strips element u nl Htext Hu Hnl).
  rewrite slice_0_Z, sliceFrom_Z by lia.
  fold before after.
  assert (Hlen : Z.to_nat
            (Z.min (range_start r + len (command item ++ js " "))
               (len (before ++ (command item ++ js " ") ++ after))) =
          length (before ++ command item ++ js " ")).
  { unfold len. rewrite !length_app. subst before after.
    rewrite length_firstn, length_skipn. simpl length. lia. }
  rewrite match_nonempty.
  - cbn [fst snd]. rewrite Hlen. now rewrite <- !app_assoc.
  - intros E. apply (f_equal (@length ascii)) in E.
    rewrite !length_app in E. simpl in E. lia.
Qed.

Lemma selectItem_splices_witness :
  selectItem (demoInput "hello /foo world" 10)
             (detected "hello /foo world" 10) foobar =
  (Some (mkElement (js "hello /foobar  world") (Some 14) true 1),
   mkState false [] 0 None).
Proof.
  apply (selectItem_splices
           (mkElement (js "hello /foo world") (Some 10) true 0)
           (js "hello /foo world") [] (detected "hello /foo world" 10)
           (mkRange 6 10) foobar).
  - reflexivity.
  - intros v c E. assert (c = "d"%char); [|now subst].
    apply (f_equal (@rev ascii)) in E. rewrite rev_app_distr in E.
    vm_compute in E. congruence.
  - constructor.
  - reflexivity.
  - simpl. lia.
Defined.

(** C1, the claim's example: the detected range of "/foo" in
    "hello /foo world" is [6, 10), and committing "/foobar" does not
    give "hello /foobar world": the space after the slash word is still
    there behind the inserted one. *)
Lemma selectItem_example_keeps_both_spaces :
  slashRange (detected "hello /foo world" 10) = Some (mkRange 6 10) /\
  option_map innerText
    (fst (selectItem (demoInput "hello /foo world" 10)
                     (detected "hello /foo world" 10) foobar))
  <> Some (js "hello /foobar world").
Proof.
  split; [reflexivity|]. vm_compute. discriminate.
Qed.

End Commit.

(** ** [getSkillDescription]: the description taken from the body *)

Section Describe.

Import Menu Spec.

Lemma execFrom_bol_later (rs : list regex) (s : str) :
  forall (c : ascii) (idx : nat),
    execFrom false (cat (Bol :: rs)) (Some c) s idx = None.
Proof.
  induction s as [|x s IH]; intros c idx; [reflexivity|].
  cbn [execFrom]. unfold matchHere. rewrite rmatch_cat_cons.
  cbn [rmatch atBol m_prev andb]. apply IH.
Qed.

(** A pattern that starts with [^] is tried at the start only. *)
Lemma exec_bol (rs : list regex) (s : str) :
  exec false (cat (Bol :: rs)) s =
  match matchHere false (cat (Bol :: rs)) None s with
  | Some st' =>
      Some (Result 0 (firstn (length s - length (m_rest st')) s)
                   (m_caps st'))
  | None => None
  end.
Proof.
  unfold exec. destruct s as [|c s]; cbn [execFrom].
  - destruct (matchHere false (cat (Bol :: rs)) None []); reflexivity.
  - destruct (matchHere false (cat (Bol :: rs)) None (c :: s));
      [reflexivity|apply execFrom_bol_later].
Qed.

Lemma isTerminator_spec (c : ascii) :
  isTerminator c = true <-> Terminator c.
Proof.
  unfold isTerminator, Terminator.
  rewrite !orb_true_iff, !Ascii.eqb_eq. intuition congruence.
Qed.

Lemma isTerminator_false (c : ascii) :
  isTerminator c = false <-> ~ Terminator c.
Proof.
  rewrite <- isTerminator_spec. destruct (isTerminator c); intuition congruence.
Qed.

Lemma sentenceClass_true (c : ascii) :
  c <> NL -> ~ Terminator c -> sentenceClass c = true.
Proof.
  intros Hnl Ht. unfold sentenceClass.
  apply isTerminator_false in Ht. rewrite Ht.
  destruct (Ascii.eqb c NL) eqn:E; [|reflexivity].
  apply Ascii.eqb_eq in E. contradiction.
Qed.

Lemma sentence_found (pre post : str) (c : ascii) :
  Forall (fun x => x <> NL) pre ->
  Forall (fun x => ~ Terminator x) pre ->
  Terminator c ->
  exec false reSentence (pre ++ c :: post) =
  Some (Result 0 (pre ++ [c]) []).
Proof.
  intros Hnl Hpre Hc. unfold reSentence. rewrite exec_bol.
  unfold matchHere. rewrite rmatch_cat_cons.
  cbn [rmatch atBol m_prev m_rest m_caps cat fold_right].
  fold sentenceClass.
  rewrite (star_greedy_take sentenceClass None pre (c :: post) []
             _ (MState (Some c) post [])).
  - cbn [m_rest m_caps]. f_equal. f_equal.
    rewrite length_app. simpl length.
    replace (length pre + S (length post) - length post)
      with (length pre + 1) by lia.
    rewrite firstn_app, firstn_all2 by lia.
    replace (length pre + 1 - length pre) with 1 by lia. reflexivity.
  - rewrite Forall_forall in *. intros x Hx.
    apply sentenceClass_true; auto.
  - cbn [rmatch m_rest]. apply isTerminator_spec in Hc. now rewrite Hc.
  - unfold sentenceClass. apply isTerminator_spec in Hc. now rewrite Hc.
Qed.

Lemma sentence_missing (s : str) :
  Forall (fun x => ~ Terminator x) s ->
  exec false reSentence s = None.
Proof.
  intros Hs. unfold reSentence. rewrite exec_bol.
  unfold matchHere. rewrite rmatch_cat_cons.
  cbn [rmatch atBol m_prev m_rest m_caps cat fold_right].
  rewrite star_none; [reflexivity|].
  intros a b -> _. cbn [rmatch m_rest].
  destruct b as [|x b]; [reflexivity|].
  apply Forall_app in Hs as [_ Hb]. inversion Hb as [|? ? Hx _]; subst.
  apply isTerminator_false in Hx. now rewrite Hx.
Qed.

(** Either a string has a first terminator, or it has none. *)
Lemma first_terminator (s : str) :
  (exists pre c post, s = pre ++ c :: post /\ Terminator c /\
                      Forall (fun x => ~ Terminator x) pre) \/
  Forall (fun x => ~ Terminator x) s.
Proof.
  induction s as [|x s IH]; [right; constructor|].
  destruct (isTerminator x) eqn:E.
  - left. exists [], x, s. apply isTerminator_spec in E.
    repeat split; [assumption|constructor].
  - apply isTerminator_false in E.
    destruct IH as [(pre & c & post & -> & Hc & Hpre)|Hs].
    + left. exists (x :: pre), c, post. repeat split; auto.
    + right. now constructor.
Qed.

Lemma isMeaningful_spec (line : str) :
  isMeaningful line = true <-> Meaningful line.
Proof.
  unfold isMeaningful, Meaningful, startsWith.
  rewrite !andb_true_iff, !negb_true_iff. split.
  - intros [[Hlen Hhash] Hdash]. repeat split.
    + intros ->. discriminate.
    + intros rest ->. simpl in Hhash. discriminate.
    + intros E. apply streq_eq in E. congruence.
  - intros (Hne & Hhash & Hdash). repeat split.
    + destruct line; [contradiction|reflexivity].
    + destruct line as [|c line]; [contradiction|].
      change (prefixb (js "#") (c :: line)) with (Ascii.eqb "#" c && true).
      destruct (Ascii.eqb "#" c) eqn:E; [|reflexivity].
      apply Ascii.eqb_eq in E. subst c. now destruct (Hhash line).
    + now apply streq_neq.
Qed.

Lemma not_meaningful (line : str) :
  isMeaningful line = false -> ~ Meaningful line.
Proof. intros E H. apply isMeaningful_spec in H. congruence. Qed.

Lemma find_none_meaningful (lines : list str) :
  Forall (fun l => ~ Meaningful l) lines -> find isMeaningful lines = None.
Proof.
  induction 1 as [|l lines Hl _ IH]; [reflexivity|].
  simpl. destruct (isMeaningful l) eqn:E; [|exact IH].
  apply isMeaningful_spec in E. contradiction.
Qed.

Lemma find_first_meaningful (before after : list str) (line : str) :
  Forall (fun l => ~ Meaningful l) before -> Meaningful line ->
  find isMeaningful (before ++ line :: after) = Some line.
Proof.
  intros Hb Hl. induction Hb as [|l before H _ IH]; simpl.
  - apply isMeaningful_spec in Hl. now rewrite Hl.
  - destruct (isMeaningful l) eqn:E; [|exact IH].
    apply isMeaningful_spec in E. contradiction.
Qed.

Lemma splitOn_no_sep (sep : ascii) (s : str) :
  Forall (Forall (fun c => c <> sep)) (splitOn sep s).
Proof.
  induction s as [|c s IH]; simpl.
  - repeat constructor.
  - destruct (Ascii.eqb c sep) eqn:E.
    + constructor; [constructor|exact IH].
    + destruct (splitOn sep s) as [|l ls]; [repeat constructor|].
      * intros ->. now rewrite Ascii.eqb_refl in E.
      * inversion IH; subst. constructor; [|assumption].
        constructor; [|assumption].
        intros ->. now rewrite Ascii.eqb_refl in E.
Qed.

Lemma dropWhile_Forall (P : ascii -> Prop) (p : ascii -> bool) (s : str) :
  Forall P s -> Forall P (dropWhile p s).
Proof.
  induction 1 as [|c s Hc Hs IH]; simpl; [constructor|].
  destruct (p c); [exact IH|now constructor].
Qed.

Lemma trim_Forall (P : ascii -> Prop) (s : str) :
  Forall P s -> Forall P (trim s).
Proof.
  intros H. unfold trim, trimEnd, trimStart.
  apply Forall_rev, dropWhile_Forall, Forall_rev, dropWhile_Forall, H.
Qed.

(** [sentenceOrAll] on a stripped line. *)
Lemma sentenceOrAll_first (line : str) :
  Forall (fun c => c <> NL) line ->
  FirstSentence (stripMarkdown line) (sentenceOrAll (stripMarkdown line)).
Proof.
  intros Hnl. unfold sentenceOrAll.
  assert (Hs : Forall (fun c => c <> NL) (stripMarkdown line))
    by (apply stripMarkdown_Forall, Hnl).
  destruct (first_terminator (stripMarkdown line))
    as [(pre & c & post & E & Hc & Hpre)|Hnone].
  - rewrite E in *. apply Forall_app in Hs as [Hs _].
    rewrite (sentence_found pre post c Hs Hpre Hc). cbn [r_match].
    left. exists pre, c, post. repeat split; try assumption.
    destruct pre; reflexivity.
  - rewrite (sentence_missing _ Hnone). right. now split.
Qed.

Lemma getSkillDescription_body (content : str) :
  NoDescriptionField content ->
  getSkillDescription content = describeBody (withoutFrontmatter content).
Proof.
  unfold NoDescriptionField, getSkillDescription, withoutFrontmatter.
  destruct (exec false reFrontmatter content) as [fm|]; [|reflexivity].
  intros ->. now rewrite sliceFrom_nat.
Qed.

(** The scan of the body, on the lines as the code splits and trims
    them. *)
Lemma describe_lines (content : str) :
  NoDescriptionField content ->
  let lines := map trim (splitOn NL (withoutFrontmatter content)) in
  (Forall (fun l => ~ Meaningful l) lines ->
   getSkillDescription content = None) /\
  (forall before line after,
      lines = before ++ line :: after ->
      Forall (fun l => ~ Meaningful l) before ->
      Meaningful line ->
      getSkillDescription content =
      Some (sentenceOrAll (stripMarkdown line)) /\
      FirstSentence (stripMarkdown line)
                    (sentenceOrAll (stripMarkdown line))).
Proof.
  intros Hno lines. rewrite (getSkillDescription_body content Hno).
  unfold describeBody. fold lines. split.
  - intros Hnone. now rewrite find_none_meaningful.
  - intros before line after Hlines Hbefore Hline.
    rewrite Hlines, (find_first_meaningful before after line Hbefore Hline).
    assert (Hnl : Forall (fun c => c <> NL) line).
    { assert (H : Forall (Forall (fun c => c <> NL)) lines).
      { subst lines. apply Forall_map.
        eapply Forall_impl; [|apply splitOn_no_sep].
        intros l. apply trim_Forall. }
      rewrite Hlines in H. apply Forall_app in H as [_ H].
      now inversion H. }
    destruct Hline as (Hne & _). split.
    + destruct line; [contradiction|reflexivity].
    + apply sentenceOrAll_first, Hnl.
Qed.

(** C2, at a content whose frontmatter is not closed by a line of three
    dashes.  The frontmatter pattern asks for the end of the line after
    the opening dashes and for nothing after the closing ones, so three
    dashes that only start a line close the block and the rest of that
    line is read as the first line of the body.  "---more" closes the
    block and "more" is the description, where the first line to take is
    "name: x"; a rule of four dashes closes it too and the description
    is the fourth dash, where the first line to take is "Intro text.".
    With the closing dashes on a line of their own the description is
    the same "more". *)
Theorem closing_fence_inside_line :
  getSkillDescription (js "---\nname: x\n---more\nBody.") =
  Some (js "more") /\
  getSkillDescription (js "---\nIntro text.\n----\nMore.") =
  Some (js "-") /\
  getSkillDescription (js "---\nname: x\n---\nmore\nBody.") =
  Some (js "more") /\
  getSkillDescription (js "---\nname: x\nBody.") = Some (js "name: x").
Proof. repeat split; vm_compute; reflexivity. Qed.

(** A content that does not start with three dashes has no
    frontmatter block. *)
Lemma no_frontmatter (content : str) :
  prefixb (js "---") content = false ->
  exec false reFrontmatter content = None.
Proof.
  intros H. unfold reFrontmatter. rewrite exec_bol.
  unfold matchHere. rewrite rmatch_cat_cons.
  cbn [rmatch atBol m_prev]. rewrite rmatch_cat_cons, rmatch_lit.
  now rewrite H.
Qed.

Lemma no_frontmatter_body (content : str) :
  prefixb (js "---") content = false ->
  NoDescriptionField content /\ withoutFrontmatter content = content.
Proof.
  intros H. unfold NoDescriptionField, withoutFrontmatter.
  rewrite (no_frontmatter content H). now split.
Qed.

Lemma prefixb_app_long (p x rest : str) :
  length p <= length x -> prefixb p (x ++ rest) = prefixb p x.
Proof.
  revert x; induction p as [|a p IH]; intros x Hlen; [reflexivity|].
  destruct x as [|c x]; simpl in Hlen; [lia|].
  simpl. rewrite IH by lia. reflexivity.
Qed.

Lemma fence_absent (b rest : str) :
  b <> [] ->
  prefixb (NL :: js "---") (b ++ NL :: js "---") = false ->
  prefixb (NL :: js "---") (b ++ NL :: js "---" ++ rest) = false.
Proof.
  intros Hne H.
  change (b ++ NL :: js "---" ++ rest)
    with (b ++ (NL :: js "---") ++ rest).
  rewrite app_assoc, prefixb_app_long; [exact H|].
  rewrite length_app. simpl. lia.
Qed.

Lemma frontmatter_body (prev : option ascii) (c : ascii) (fm' rest : str) :
  NoFence (c :: fm') ->
  exists p,
    rmatch false
      (cat [Chr (isChar NL); Group 1 (Star false anyChar);
            Chr (isChar NL); lit (js "---")])
      (MState prev (NL :: (c :: fm') ++ NL :: js "---" ++ rest) []) Some =
    Some (MState p rest [(1, c :: fm')]).
Proof.
  intros Hfence.
  rewrite rmatch_cat_cons. cbn [rmatch m_rest m_prev m_caps].
  change (isChar NL NL) with true. cbv iota.
  rewrite rmatch_cat_cons. cbn [rmatch m_rest m_prev m_caps].
  eexists.
  apply (star_lazy_first anyChar (Some NL) (c :: fm')
           (NL :: js "---" ++ rest) []).
  - apply Forall_forall. reflexivity.
  - intros a1 a2 E Hne. cbn [m_rest m_prev m_caps].
    assert (Hp := fence_absent a2 rest Hne (Hfence a1 a2 E Hne)).
    change (cat [Chr (isChar NL); lit (js "---")])
      with (Seq (Chr (isChar NL)) (cat [lit (js "---")])).
    destruct a2 as [|x a2]; [contradiction|].
    cbn [rmatch m_rest m_prev m_caps app].
    cbn [app prefixb] in Hp. unfold isChar at 1.
    destruct (Ascii.eqb NL x); [|reflexivity].
    rewrite rmatch_cat_cons, rmatch_lit. cbn [andb] in Hp.
    now rewrite Hp.
  - cbn [m_rest m_prev m_caps].
    change (cat [Chr (isChar NL); lit (js "---")])
      with (Seq (Chr (isChar NL)) (cat [lit (js "---")])).
    cbn [rmatch m_rest m_prev m_caps].
    change (isChar NL NL) with true. cbv iota.
    rewrite rmatch_cat_cons, rmatch_lit_app, rmatch_cat_nil.
    assert (E := firstn_prefix_len (c :: fm') (NL :: js "---" ++ rest)).
    cbn [app] in E |- *. rewrite E. reflexivity.
Qed.

Lemma frontmatter_block (c : ascii) (fm' rest : str) :
  isWhiteSpace c = false ->
  NoFence (c :: fm') ->
  exec false reFrontmatter
       (js "---" ++ NL :: (c :: fm') ++ NL :: js "---" ++ rest) =
  Some (Result 0 (js "---" ++ NL :: (c :: fm') ++ NL :: js "---")
               [(1, c :: fm')]).
Proof.
  intros Hc Hfence.
  destruct (frontmatter_body (prevAfter None (js "---")) c fm' rest Hfence)
    as [p Hp].
  assert (Hnl : isChar NL c = false).
  { unfold isChar. destruct (Ascii.eqb NL c) eqn:E; [|reflexivity].
    apply Ascii.eqb_eq in E. subst c. discriminate. }
  unfold reFrontmatter. rewrite exec_bol.
  unfold matchHere.
  rewrite rmatch_cat_cons. cbn [rmatch atBol m_prev].
  rewrite rmatch_cat_cons, rmatch_lit_app, rmatch_cat_cons.
  cbn [rmatch m_rest m_prev m_caps].
  cbn [star].
  change (isWhiteSpace NL) with true. cbv iota.
  cbn [app star]. rewrite Hc.
  rewrite rmatch_cat_cons at 1. cbn [rmatch m_rest m_prev m_caps].
  rewrite Hnl. cbn [orElse].
  cbn [app] in Hp. rewrite Hp. cbn [m_rest m_caps].
  f_equal. f_equal.
  assert (E := firstn_prefix_len
                 (js "---" ++ NL :: (c :: fm') ++ NL :: js "---") rest).
  repeat (rewrite <- app_assoc in E || rewrite <- app_comm_cons in E).
  exact E.
Qed.

Lemma frontmatter_removed (c : ascii) (fm' rest : str) :
  isWhiteSpace c = false ->
  NoFence (c :: fm') ->
  withoutFrontmatter
    (js "---" ++ NL :: (c :: fm') ++ NL :: js "---" ++ rest) = rest.
Proof.
  intros Hc Hfence. unfold withoutFrontmatter.
  rewrite (frontmatter_block c fm' rest Hc Hfence). cbn [r_match].
  assert (E : js "---" ++ NL :: (c :: fm') ++ NL :: js "---" ++ rest =
              (js "---" ++ NL :: (c :: fm') ++ NL :: js "---") ++ rest).
  { repeat (rewrite <- app_assoc || rewrite <- app_comm_cons).
    reflexivity. }
  rewrite E, skipn_app, skipn_all, Nat.sub_diag. reflexivity.
Qed.

Section Scan.

Variable multiline : bool.

(** The search moves past the positions at which the pattern fails. *)
Lemma execFrom_skip (r : regex) (x s : str) :
  forall (prev : option ascii) (idx : nat),
    (forall a b, x = a ++ b -> b <> [] ->
                 matchHere multiline r (prevAfter prev a) (b ++ s) = None) ->
    execFrom multiline r prev (x ++ s) idx =
    execFrom multiline r (prevAfter prev x) s (idx + length x).
Proof.
  induction x as [|c x IH]; intros prev idx H.
  - simpl. now rewrite Nat.add_0_r.
  - change ((c :: x) ++ s) with (c :: (x ++ s)). cbn [execFrom].
    assert (H0 := H [] (c :: x) eq_refl). simpl in H0.
    rewrite H0 by discriminate.
    rewrite IH.
    + simpl length. now rewrite Nat.add_succ_r.
    + intros a b -> Hb. apply (H (c :: a) b eq_refl Hb).
Qed.

End Scan.

Lemma prevAfter_last (prev : option ascii) (a : str) (c : ascii) :
  prevAfter prev (a ++ [c]) = Some c.
Proof. unfold prevAfter. now rewrite fold_left_app. Qed.

Lemma atBol_lineStart (a s : str) (caps : list (nat * str)) :
  LineStart a -> atBol true (MState (prevAfter None a) s caps) = true.
Proof.
  intros [->|(a' & c & -> & Hc)]; [reflexivity|].
  unfold atBol. cbn [m_prev]. now rewrite prevAfter_last, Hc.
Qed.

Lemma atBol_midline (a s : str) (caps : list (nat * str)) :
  ~ LineStart a -> atBol true (MState (prevAfter None a) s caps) = false.
Proof.
  intros H. unfold atBol. cbn [m_prev].
  destruct (exists_last (l := a)) as (a' & c & ->).
  - intros ->. apply H. now left.
  - rewrite prevAfter_last. simpl.
    destruct (isLineTerminator c) eqn:E; [|reflexivity].
    exfalso. apply H. right. now exists a', c.
Qed.

Lemma lineStart_dec (a : str) : LineStart a \/ ~ LineStart a.
Proof.
  destruct a as [|x a] using rev_ind; [left; now left|].
  destruct (isLineTerminator x) eqn:E.
  - left. right. now exists a, x.
  - right. intros [H|(a' & c & H & Hc)].
    + now destruct a.
    + apply app_inj_tail in H as [_ ->]. congruence.
Qed.

(** The description pattern at the start of a line that holds the
    field. *)
Lemma description_here (a sp after : str) (v0 : ascii) (value' : str) :
  LineStart a ->
  Forall (fun c => isWhiteSpace c = true) sp ->
  isWhiteSpace v0 = false ->
  Forall (fun c => isLineTerminator c = false) (v0 :: value') ->
  match after with c :: _ => isLineTerminator c = true | [] => True end ->
  exists p,
    matchHere true reDescription (prevAfter None a)
              (js "description:" ++ sp ++ (v0 :: value') ++ after) =
    Some (MState p after [(1, v0 :: value')]).
Proof.
  intros Ha Hsp Hv0 Hval Hafter.
  inversion Hval as [|? ? Hd0 Hd']; subst.
  unfold matchHere, reDescription.
  rewrite rmatch_cat_cons. cbn [rmatch].
  rewrite (atBol_lineStart a _ _ Ha).
  rewrite rmatch_cat_cons, rmatch_lit_app, rmatch_cat_cons.
  cbn [rmatch m_rest m_prev m_caps].
  eexists. apply star_greedy_take; [exact Hsp| |exact Hv0].
  rewrite rmatch_cat_cons. unfold plus.
  cbn [rmatch m_rest m_prev m_caps app].
  unfold dot at 1. rewrite Hd0. cbn [negb].
  apply star_greedy_take.
  - eapply Forall_impl; [|exact Hd']. intros c Hc. unfold dot. now rewrite Hc.
  - cbn [m_rest m_prev m_caps].
    rewrite rmatch_cat_cons. cbn [rmatch].
    assert (Heol : forall pr cs, atEol true (MState pr after cs) = true).
    { intros pr cs. unfold atEol. cbn [m_rest].
      destruct after; [reflexivity|]. now rewrite Hafter. }
    rewrite Heol, rmatch_cat_nil.
    assert (E := firstn_prefix_len (v0 :: value') after).
    cbn [app] in E |- *. rewrite E. reflexivity.
  - destruct after as [|c after]; [exact I|].
    unfold dot. now rewrite Hafter.
Qed.

Lemma description_absent (a s : str) :
  ~ LineStart a \/ prefixb (js "description:") s = false ->
  matchHere true reDescription (prevAfter None a) s = None.
Proof.
  intros H. unfold matchHere, reDescription.
  rewrite rmatch_cat_cons. cbn [rmatch].
  destruct H as [H|H].
  - now rewrite (atBol_midline a _ _ H).
  - destruct (atBol true _); [|reflexivity].
    rewrite rmatch_cat_cons, rmatch_lit. now rewrite H.
Qed.

(** The first line that starts with "description:" gives the match:
    the white space after the colon is skipped and the rest of the line
    is the capture. *)
Lemma description_found (before sp after : str) (v0 : ascii)
      (value' : str) :
  LineStart before -> NoFieldBefore before ->
  Forall (fun c => isWhiteSpace c = true) sp ->
  isWhiteSpace v0 = false ->
  Forall (fun c => isLineTerminator c = false) (v0 :: value') ->
  match after with c :: _ => isLineTerminator c = true | [] => True end ->
  exists res,
    exec true reDescription
         (before ++ js "description:" ++ sp ++ (v0 :: value') ++ after) =
    Some res /\ group 1 res = v0 :: value'.
Proof.
  intros Hb Hno Hsp Hv0 Hval Hafter.
  destruct (description_here before sp after v0 value' Hb Hsp Hv0 Hval
              Hafter) as [p Hp].
  unfold exec. rewrite execFrom_skip.
  - set (line := js "description:" ++ sp ++ (v0 :: value') ++ after) in *.
    assert (Hex : forall i,
      execFrom true reDescription (prevAfter None before) line i =
      Some (Result i (firstn (length line - length after) line)
                   [(1, v0 :: value')])).
    { intros i. destruct line; cbn [execFrom]; now rewrite Hp. }
    rewrite Hex. eexists. split; reflexivity.
  - intros a b -> Hne. change None with (prevAfter None (@nil ascii)) at 1.
    change (prevAfter (prevAfter None []) a) with (prevAfter None a).
    apply description_absent.
    destruct (lineStart_dec a) as [Ha|Ha]; [right|now left].
    assert (H := Hno a b eq_refl Hne Ha).
    rewrite app_assoc, prefixb_app_long; [exact H|].
    rewrite length_app. simpl. lia.
Qed.



(** The description of a frontmatter that has the field: the rest
    of the field's line after the white space, trimmed, without its
    quotes as [unquote] removes them, and with its markdown stripped.
    The body takes no part. *)
Lemma getSkillDescription_field (c : ascii) (fm' before sp after rest : str)
      (v0 : ascii) (value' : str) :
  c :: fm' = before ++ js "description:" ++ sp ++ (v0 :: value') ++ after ->
  isWhiteSpace c = false ->
  NoFence (c :: fm') ->
  LineStart before -> NoFieldBefore before ->
  Forall (fun x => isWhiteSpace x = true) sp ->
  isWhiteSpace v0 = false ->
  Forall (fun x => isLineTerminator x = false) (v0 :: value') ->
  match after with x :: _ => isLineTerminator x = true | [] => True end ->
  getSkillDescription
    (js "---" ++ NL :: (c :: fm') ++ NL :: js "---" ++ rest) =
  Some (stripMarkdown (unquote (trim (v0 :: value')))).
Proof.
  intros Hfm Hc Hfence Hb Hno Hsp Hv0 Hval Hafter.
  unfold getSkillDescription.
  rewrite (frontmatter_block c fm' rest Hc Hfence).
  change (group 1 (Result 0 (js "---" ++ NL :: (c :: fm') ++ NL :: js "---")
                          [(1, c :: fm')])) with (c :: fm').
  rewrite Hfm.
  destruct (description_found before sp after v0 value' Hb Hno Hsp Hv0
              Hval Hafter) as (res & Hres & Hgroup).
  rewrite Hres, Hgroup. reflexivity.
Qed.

(** C3, at a description field whose value is one quote character, and
    at a description field with no value: [unquote] tests the first and
    the last character without asking for two of them, so the lone
    quote is removed and the description is empty; and the white space
    after the colon extends over the line break, so the line after an
    empty field is taken for its value. *)
Theorem description_lone_quote_and_empty_value :
  getSkillDescription (js "---\ndescription: \x22\n---\nBody") = Some [] /\
  unquote [DQUOTE] = [] /\
  unquote [SQUOTE] = [] /\
  getSkillDescription (js "---\ndescription:\nname: init\n---\nBody") =
  Some (js "name: init").
Proof. repeat split; vm_compute; reflexivity. Qed.

(** The frontmatter descriptions of the component's tests. *)
Example description_tests :
  getSkillDescription
    (js "---\nname: test\ndescription: A test skill\n---\n## Usage\nDetails here.")
  = Some (js "A test skill") /\
  getSkillDescription (js "---\ndescription: \x22Quoted\x22\n---\nBody")
  = Some (js "Quoted") /\
  getSkillDescription (js "---\ndescription: 'Single quoted'\n---\nBody.")
  = Some (js "Single quoted") /\
  getSkillDescription
    (js "---\nname: test\ntriggers: ['/test']\n---\nA helpful tool. It does things.")
  = Some (js "A helpful tool.") /\
  getSkillDescription
    (js "---\ndescription: \x22A **bold** and *italic* description\x22\n---\nBody.")
  = Some (js "A bold and italic description") /\
  getSkillDescription
    (js "# Title\n\nUse `code` and [links](http://example.com).")
  = Some (js "Use code and links.").
Proof. repeat split; vm_compute; reflexivity. Qed.

End Describe.

(** ** [stripMarkdown] *)

Section Passes.

Import Menu Spec.

(** One pass: a global replacement by the first capture. *)
#[local] Abbreviation run r prev s := (replaceFrom false r dollar1 prev s 0).

Lemma matchHere_opener (o : str) (rs : list regex) (prev : option ascii)
      (s : str) :
  prefixb o s = false ->
  matchHere false (cat (lit o :: rs)) prev s = None.
Proof.
  intros H. unfold matchHere. rewrite rmatch_cat_cons, rmatch_lit.
  now rewrite H.
Qed.

Lemma run_nil (h : ascii) (o : str) (rs : list regex)
      (prev : option ascii) :
  run (cat (lit (h :: o) :: rs)) prev [] = [].
Proof.
  cbn [replaceFrom]. now rewrite matchHere_opener.
Qed.

Lemma run_step (o : str) (rs : list regex) (prev : option ascii)
      (c : ascii) (s : str) :
  prefixb o (c :: s) = false ->
  run (cat (lit o :: rs)) prev (c :: s) =
  c :: run (cat (lit o :: rs)) (Some c) s.
Proof.
  intros H. apply replaceFrom_nomatch. now apply matchHere_opener.
Qed.

Lemma prefixb_head (h c : ascii) (o s : str) :
  c <> h -> prefixb (h :: o) (c :: s) = false.
Proof.
  intros Hc. simpl. destruct (Ascii.eqb h c) eqn:E; [|reflexivity].
  apply Ascii.eqb_eq in E. congruence.
Qed.

(** A text without the opener's first character passes unchanged. *)
Lemma run_plain (h : ascii) (o : str) (rs : list regex) (x : str) :
  Forall (fun c => c <> h) x ->
  forall (prev : option ascii) (s : str),
    run (cat (lit (h :: o) :: rs)) prev (x ++ s) =
    x ++ run (cat (lit (h :: o) :: rs)) (prevAfter prev x) s.
Proof.
  induction 1 as [|c x Hc _ IH]; intros prev s; [reflexivity|].
  simpl app. rewrite run_step by (now apply prefixb_head).
  now rewrite IH.
Qed.

(** A text without the opener's second character passes unchanged when
    that character does not follow it either. *)
Lemma run_lookahead (h1 h2 : ascii) (o : str) (rs : list regex) (x : str) :
  Forall (fun c => c <> h2) x ->
  forall (prev : option ascii) (t : str),
    headNot h2 t ->
    run (cat (lit (h1 :: h2 :: o) :: rs)) prev (x ++ t) =
    x ++ run (cat (lit (h1 :: h2 :: o) :: rs)) (prevAfter prev x) t.
Proof.
  induction 1 as [|c x Hc Hx IH]; intros prev t Ht; [reflexivity|].
  simpl app. rewrite run_step.
  - now rewrite IH.
  - simpl. destruct (Ascii.eqb h1 c); [|reflexivity]. simpl.
    destruct x as [|c2 x]; simpl.
    + destruct t as [|c2 t]; [reflexivity|].
      simpl in Ht. destruct (Ascii.eqb h2 c2) eqn:E; [|reflexivity].
      apply Ascii.eqb_eq in E. congruence.
    + inversion Hx; subst.
      destruct (Ascii.eqb h2 c2) eqn:E; [|reflexivity].
      apply Ascii.eqb_eq in E. congruence.
Qed.

Lemma prefixb_short_run (h : ascii) (t : str) :
  headNot h t ->
  forall n m, m < n -> prefixb (repeat h n) (repeat h m ++ t) = false.
Proof.
  intros Ht n. induction n as [|n IH]; intros m Hm; [lia|].
  destruct m as [|m].
  - simpl. destruct t as [|c t]; [reflexivity|].
    simpl in Ht. destruct (Ascii.eqb h c) eqn:E; [|reflexivity].
    apply Ascii.eqb_eq in E. congruence.
  - simpl. rewrite Ascii.eqb_refl. apply IH. lia.
Qed.

(** A shorter run of the delimiter's character passes unchanged when
    that character does not follow it. *)
Lemma run_short_delim (h : ascii) (n : nat) (rs : list regex) (t : str) :
  headNot h t ->
  forall (m : nat) (prev : option ascii),
    m < n ->
    run (cat (lit (repeat h n) :: rs)) prev (repeat h m ++ t) =
    repeat h m ++
    run (cat (lit (repeat h n) :: rs)) (prevAfter prev (repeat h m)) t.
Proof.
  intros Ht m. induction m as [|m IH]; intros prev Hm; [reflexivity|].
  change (repeat h (S m) ++ t) with (h :: (repeat h m ++ t)).
  rewrite run_step.
  - rewrite IH by lia. reflexivity.
  - change (h :: (repeat h m ++ t)) with (repeat h (S m) ++ t).
    now apply prefixb_short_run.
Qed.

Lemma notChar_true (c : ascii) (x : str) :
  Forall (fun y => y <> c) x -> Forall (fun y => notChar c y = true) x.
Proof.
  apply Forall_impl. intros y Hy. unfold notChar.
  destruct (Ascii.eqb c y) eqn:E; [|reflexivity].
  apply Ascii.eqb_eq in E. congruence.
Qed.

Lemma notChar_self (c : ascii) : notChar c c = false.
Proof. unfold notChar. now rewrite Ascii.eqb_refl. Qed.

(** A span is matched from its opening to its closing delimiter, and
    its inner text is the capture. *)
Lemma span_match (h : ascii) (d inner s : str) (prev : option ascii) :
  inner <> [] ->
  Forall (fun c => isLineTerminator c = false) inner ->
  Forall (fun c => c <> h) inner ->
  exists p,
    matchHere false (reDelim (h :: d)) prev
              ((h :: d) ++ inner ++ (h :: d) ++ s) =
    Some (MState p s [(1, inner)]).
Proof.
  intros Hne Hdot Hh.
  destruct inner as [|i0 inner']; [contradiction|].
  inversion Hdot as [|? ? Hdot0 Hdot']; subst.
  inversion Hh as [|? ? _ Hh']; subst.
  unfold matchHere, reDelim.
  rewrite rmatch_cat_cons, rmatch_lit_app, rmatch_cat_cons.
  unfold plus. cbn [rmatch m_rest m_prev m_caps app].
  unfold dot at 1. rewrite Hdot0. cbn [negb].
  eexists.
  apply (star_lazy_first dot (Some i0) inner' ((h :: d) ++ s) []).
  - eapply Forall_impl; [|exact Hdot'].
    intros c Hc. unfold dot. now rewrite Hc.
  - intros a1 a2 -> Hne2. cbn [m_rest m_prev m_caps].
    rewrite rmatch_cat_cons. apply rmatch_lit_head.
    destruct a2 as [|c a2]; [contradiction|].
    apply Forall_app in Hh' as [_ Hh2]. now inversion Hh2.
  - cbn [m_rest m_prev m_caps].
    rewrite rmatch_cat_cons, rmatch_lit_app, rmatch_cat_nil.
    assert (E := firstn_prefix_len (i0 :: inner') ((h :: d) ++ s)).
    cbn [app] in E |- *. rewrite E. reflexivity.
Qed.

Lemma bracket_tail_match (txt url s : str) (prev : option ascii)
      (caps : list (nat * str)) :
  Forall (fun c => c <> "]"%char) txt ->
  Forall (fun c => c <> ")"%char) url ->
  exists p,
    rmatch false (cat bracketTail)
           (MState prev (txt ++ js "](" ++ url ++ js ")" ++ s) caps) Some =
    Some (MState p s ((1, txt) :: caps)).
Proof.
  intros Htxt Hurl. unfold bracketTail.
  rewrite rmatch_cat_cons. cbn [rmatch m_rest m_prev m_caps].
  eexists.
  apply star_greedy_take.
  - apply notChar_true, Htxt.
  - cbn [m_rest m_prev m_caps].
    rewrite firstn_prefix_len.
    rewrite rmatch_cat_cons, rmatch_lit_app, rmatch_cat_cons.
    cbn [rmatch m_rest m_prev m_caps].
    apply star_greedy_take.
    + apply notChar_true, Hurl.
    + rewrite rmatch_cat_cons, rmatch_lit_app, rmatch_cat_nil.
      reflexivity.
    + apply notChar_self.
  - apply notChar_self.
Qed.

(** *** Items *)

Lemma render_cons (k : nat) (i : item) (rest : list item) :
  render k (i :: rest) = renderItem k i ++ render k rest.
Proof. reflexivity. Qed.

Lemma isMarkup_delimChar (d : delim) : isMarkup (delimChar d) = true.
Proof. destruct d; reflexivity. Qed.

Lemma plain_without (h : ascii) (x : str) :
  isMarkup h = true -> Plain x -> Forall (fun c => c <> h) x.
Proof.
  intros Hh. apply Forall_impl. intros c Hc ->. congruence.
Qed.

Lemma delimStr_cons (d : delim) :
  delimStr d = delimChar d :: repeat (delimChar d) (delimLen d - 1).
Proof. destruct d; reflexivity. Qed.

Lemma repeat_without (h c : ascii) (n : nat) :
  c <> h -> Forall (fun y => y <> h) (repeat c n).
Proof.
  intros H. induction n; simpl; constructor; assumption.
Qed.

Lemma headNot_app (h : ascii) (x t : str) :
  x <> [] -> Forall (fun c => c <> h) x -> headNot h (x ++ t).
Proof.
  intros Hne Hx. destruct x; [contradiction|]. now inversion Hx.
Qed.

Lemma headNot_delimStr (h : ascii) (d : delim) (t : str) :
  delimChar d <> h -> headNot h (delimStr d ++ t).
Proof. intros H. rewrite delimStr_cons. exact H. Qed.

(** Before the first pass an item starts with a bracket only if it is a
    link. *)
Lemma head_source (i : item) (rest : list item) :
  WfItem i ->
  match i with Link _ _ => False | _ => True end ->
  headNot "[" (render 0 (i :: rest)).
Proof.
  intros Hwf Hi. rewrite render_cons. unfold renderItem. cbn [Nat.ltb Nat.leb].
  destruct i as [c|alt url|txt url|d inner]; try contradiction; simpl in *.
  - intros ->. discriminate.
  - discriminate.
  - rewrite <- app_assoc. apply headNot_delimStr.
    destruct d; vm_compute; discriminate.
Qed.

Lemma head_after_bang (rest : list item) :
  Follows (Text "!") rest -> WellFormed rest ->
  headNot "[" (render 0 rest).
Proof.
  intros Hf Hwf. destruct rest as [|i rest]; [exact I|].
  destruct Hwf as (Hi & _ & _).
  apply head_source; [exact Hi|].
  destruct i; simpl in *; auto.
Qed.

(** From the emphasis passes on, what follows a span does not start
    with the span's delimiter character. *)
Lemma head_after_span (d : delim) (inner : str) (rest : list item)
      (k : nat) :
  2 <= k ->
  Follows (Span d inner) rest -> WellFormed rest ->
  headNot (delimChar d) (render k rest).
Proof.
  intros Hk Hf Hwf. destruct rest as [|i rest]; [exact I|].
  destruct Hwf as (Hi & _ & _). rewrite render_cons.
  assert (Hm := isMarkup_delimChar d).
  destruct i as [c|alt url|txt url|d' inner']; simpl in Hi, Hf.
  - unfold renderItem. simpl. destruct (0 <? k); simpl; congruence.
  - unfold renderItem. cbn [stageOf].
    replace (0 <? k) with true by (symmetry; apply Nat.ltb_lt; lia).
    apply headNot_app; [exact Hf|].
    apply plain_without; [exact Hm|apply Hi].
  - unfold renderItem. cbn [stageOf].
    replace (1 <? k) with true by (symmetry; apply Nat.ltb_lt; lia).
    apply headNot_app; [exact Hf|].
    apply plain_without; [exact Hm|apply Hi].
  - unfold renderItem. cbn [stageOf itemText source].
    destruct (stageOfDelim d' <? k).
    + apply headNot_app; [apply Hi|].
      apply plain_without; [exact Hm|apply Hi].
    + rewrite <- app_assoc. apply headNot_delimStr. congruence.
Qed.

Lemma stage_ge_2 (d : delim) : 2 <= stageOfDelim d.
Proof. destruct d; simpl; lia. Qed.

Lemma span_unstripped (k : nat) (d : delim) (inner : str) :
  k <= stageOfDelim d ->
  renderItem k (Span d inner) = delimStr d ++ inner ++ delimStr d.
Proof.
  intros H. unfold renderItem. cbn [stageOf].
  replace (stageOfDelim d <? k) with false; [reflexivity|].
  symmetry. apply Nat.ltb_ge. exact H.
Qed.

Lemma span_stripped (k : nat) (d : delim) (inner : str) :
  stageOfDelim d < k -> renderItem k (Span d inner) = inner.
Proof.
  intros H. unfold renderItem. cbn [stageOf].
  replace (stageOfDelim d <? k) with true; [reflexivity|].
  symmetry. apply Nat.ltb_lt. exact H.
Qed.

(** *** The passes *)

Lemma reImage_shape :
  reImage = cat (lit ["!"%char; "["%char] :: bracketTail).
Proof. reflexivity. Qed.

Lemma reLink_shape : reLink = cat (lit ["["%char] :: bracketTail).
Proof. reflexivity. Qed.

Ltac literal_chars :=
  change (js "![") with ["!"%char; "["%char] in *;
  change (js "[") with ["["%char] in *;
  change (js "](") with ["]"%char; "("%char] in *;
  change (js ")") with [")"%char] in *.

Lemma run_bracketed (o txt url s : str) (prev : option ascii) :
  o <> [] ->
  Plain txt -> Forall (fun c => c <> ")"%char) url ->
  exists p,
    run (cat (lit o :: bracketTail)) prev
        ((o ++ txt ++ js "](" ++ url ++ js ")") ++ s) =
    txt ++ run (cat (lit o :: bracketTail)) p s.
Proof.
  intros Ho Htxt Hurl.
  assert (Hb : Forall (fun c => c <> "]"%char) txt)
    by (apply plain_without; [reflexivity|exact Htxt]).
  destruct (bracket_tail_match txt url s (prevAfter prev o) [] Hb Hurl)
    as [p Hp].
  eexists.
  rewrite (replaceFrom_match false (cat (lit o :: bracketTail)) dollar1 prev
             (o ++ txt ++ js "](" ++ url ++ js ")") s
             (MState p s [(1, txt)])).
  - reflexivity.
  - destruct o; [contradiction|discriminate].
  - unfold matchHere. rewrite rmatch_cat_cons.
    rewrite <- !app_assoc. rewrite rmatch_lit_app. exact Hp.
  - reflexivity.
Qed.

Lemma image_pass (items : list item) :
  WellFormed items ->
  forall prev, run reImage prev (render 0 items) = render 1 items.
Proof.
  rewrite reImage_shape.
  induction items as [|i rest IH]; intros Hwf prev; [apply run_nil|].
  destruct Hwf as (Hi & Hf & Hrest). specialize (IH Hrest).
  rewrite !render_cons.
  destruct i as [c|alt url|txt url|d inner];
    [| | |rewrite !span_unstripped by (pose proof (stage_ge_2 d); lia)];
    unfold renderItem;
    cbn [stageOf Nat.ltb Nat.leb itemText source]; simpl in Hi.
  - destruct (ascii_dec c "!") as [->|Hc].
    + rewrite run_lookahead.
      * now rewrite IH.
      * repeat constructor. discriminate.
      * now apply head_after_bang.
    + rewrite run_plain by (repeat constructor; exact Hc).
      now rewrite IH.
  - destruct Hi as [Halt Hurl].
    destruct (run_bracketed ["!"%char; "["%char] alt url (render 0 rest)
                prev) as [p Hp]; [discriminate|assumption|assumption|].
    literal_chars. rewrite Hp. now rewrite IH.
  - destruct Hi as [Htxt Hurl]. literal_chars.
    rewrite <- !app_assoc.
    rewrite run_plain by (repeat constructor; discriminate).
    rewrite run_lookahead;
      [|apply plain_without; [reflexivity|exact Htxt]|simpl; discriminate].
    rewrite run_plain by (repeat constructor; discriminate).
    rewrite run_lookahead;
      [|eapply Forall_impl; [|exact Hurl]; intros a Ha; apply Ha
       |simpl; discriminate].
    rewrite run_plain by (repeat constructor; discriminate).
    now rewrite IH.
  - destruct Hi as (Hne & Hplain & _).
    rewrite <- !app_assoc.
    rewrite run_plain
      by (apply repeat_without; destruct d; vm_compute; discriminate).
    rewrite run_lookahead;
      [|apply plain_without; [reflexivity|exact Hplain]
       |apply headNot_delimStr; destruct d; vm_compute; discriminate].
    rewrite run_plain
      by (apply repeat_without; destruct d; vm_compute; discriminate).
    now rewrite IH.
Qed.

Lemma plain_no_bracket (c : ascii) : isMarkup c = false -> c <> "["%char.
Proof. intros H ->. discriminate. Qed.

Lemma link_pass (items : list item) :
  WellFormed items ->
  forall prev, run reLink prev (render 1 items) = render 2 items.
Proof.
  rewrite reLink_shape.
  induction items as [|i rest IH]; intros Hwf prev; [apply run_nil|].
  destruct Hwf as (Hi & Hf & Hrest). specialize (IH Hrest).
  rewrite !render_cons.
  destruct i as [c|alt url|txt url|d inner];
    [| | |rewrite !span_unstripped by (pose proof (stage_ge_2 d); lia)];
    unfold renderItem;
    cbn [stageOf Nat.ltb Nat.leb itemText source]; simpl in Hi.
  - rewrite run_plain
      by (repeat constructor; now apply plain_no_bracket).
    now rewrite IH.
  - destruct Hi as [Halt _].
    rewrite run_plain by (apply plain_without; [reflexivity|exact Halt]).
    now rewrite IH.
  - destruct Hi as [Htxt Hurl].
    destruct (run_bracketed ["["%char] txt url (render 1 rest) prev)
      as [p Hp]; [discriminate|assumption| |].
    { eapply Forall_impl; [|exact Hurl]. intros a Ha. apply Ha. }
    literal_chars. rewrite Hp. now rewrite IH.
  - destruct Hi as (Hne & Hplain & _).
    rewrite run_plain.
    + now rewrite IH.
    + apply Forall_app. split; [|apply Forall_app; split].
      * apply repeat_without. destruct d; vm_compute; discriminate.
      * apply plain_without; [reflexivity|exact Hplain].
      * apply repeat_without. destruct d; vm_compute; discriminate.
Qed.

(** The lemmas above at the pattern of a delimiter. *)
Lemma delim_run_nil (d : delim) (prev : option ascii) :
  run (reDelim (delimStr d)) prev [] = [].
Proof. destruct d; apply run_nil. Qed.

Lemma delim_run_plain (d : delim) (x : str) (prev : option ascii)
      (s : str) :
  Forall (fun c => c <> delimChar d) x ->
  run (reDelim (delimStr d)) prev (x ++ s) =
  x ++ run (reDelim (delimStr d)) (prevAfter prev x) s.
Proof. intros Hx. destruct d; apply run_plain; exact Hx. Qed.

Lemma delim_run_short (d : delim) (m : nat) (prev : option ascii)
      (t : str) :
  headNot (delimChar d) t -> m < delimLen d ->
  run (reDelim (delimStr d)) prev (repeat (delimChar d) m ++ t) =
  repeat (delimChar d) m ++
  run (reDelim (delimStr d)) (prevAfter prev (repeat (delimChar d) m)) t.
Proof.
  intros Ht Hm.
  apply (run_short_delim (delimChar d) (delimLen d)
           [Group 1 (plus false dot); lit (delimStr d)] t Ht m prev Hm).
Qed.

Lemma delim_run_match (d : delim) (inner s : str) (prev : option ascii) :
  inner <> [] -> Plain inner ->
  Forall (fun c => isLineTerminator c = false) inner ->
  exists p,
    run (reDelim (delimStr d)) prev
        ((delimStr d ++ inner ++ delimStr d) ++ s) =
    inner ++ run (reDelim (delimStr d)) p s.
Proof.
  intros Hne Hplain Hdot.
  assert (Hh : Forall (fun c => c <> delimChar d) inner)
    by (apply plain_without; [apply isMarkup_delimChar|exact Hplain]).
  rewrite delimStr_cons.
  destruct (span_match (delimChar d) (repeat (delimChar d) (delimLen d - 1))
              inner s prev Hne Hdot Hh) as [p Hp].
  eexists.
  rewrite (replaceFrom_match false _ dollar1 prev _ s
             (MState p s [(1, inner)])).
  - reflexivity.
  - discriminate.
  - rewrite <- !app_assoc. exact Hp.
  - reflexivity.
Qed.

Lemma delim_cases (d d' : delim) :
  stageOfDelim d' < stageOfDelim d \/
  d' = d \/
  (stageOfDelim d < stageOfDelim d' /\ delimChar d' <> delimChar d) \/
  (stageOfDelim d < stageOfDelim d' /\ delimChar d' = delimChar d /\
   delimLen d' < delimLen d).
Proof.
  destruct d, d'; simpl;
    first [ left; lia
          | right; left; reflexivity
          | right; right; left; split; [lia|vm_compute; discriminate]
          | right; right; right; repeat split; lia ].
Qed.

Lemma delim_pass (d : delim) (items : list item) :
  WellFormed items ->
  forall prev,
    run (reDelim (delimStr d)) prev (render (stageOfDelim d) items) =
    render (S (stageOfDelim d)) items.
Proof.
  assert (Hk := stage_ge_2 d).
  assert (Hm := isMarkup_delimChar d).
  induction items as [|i rest IH]; intros Hwf prev; [apply delim_run_nil|].
  destruct Hwf as (Hi & Hf & Hrest). specialize (IH Hrest).
  rewrite !render_cons.
  destruct i as [c|alt url|txt url|d' inner].
  - unfold renderItem. cbn [stageOf itemText source].
    assert (E : forall b : bool, (if b then [c] else [c]) = [c])
      by (now intros []).
    rewrite !E. rewrite (delim_run_plain d [c]); [now rewrite IH|].
    repeat constructor. simpl in Hi. intros ->. congruence.
  - unfold renderItem. cbn [stageOf itemText].
    replace (0 <? stageOfDelim d) with true
      by (symmetry; apply Nat.ltb_lt; lia).
    replace (0 <? S (stageOfDelim d)) with true
      by (symmetry; apply Nat.ltb_lt; lia).
    rewrite delim_run_plain; [now rewrite IH|].
    apply plain_without; [exact Hm|apply Hi].
  - unfold renderItem. cbn [stageOf itemText].
    replace (1 <? stageOfDelim d) with true
      by (symmetry; apply Nat.ltb_lt; lia).
    replace (1 <? S (stageOfDelim d)) with true
      by (symmetry; apply Nat.ltb_lt; lia).
    rewrite delim_run_plain; [now rewrite IH|].
    apply plain_without; [exact Hm|apply Hi].
  - destruct Hi as (Hne & Hplain & Hdot).
    assert (Hinner : Forall (fun c => c <> delimChar d) inner)
      by (apply plain_without; assumption).
    destruct (delim_cases d d') as [Hlt|[->|[[Hgt Hc]|(Hgt & Hc & Hlen)]]].
    + rewrite !span_stripped by lia.
      rewrite delim_run_plain by exact Hinner. now rewrite IH.
    + rewrite span_unstripped by lia. rewrite span_stripped by lia.
      destruct (delim_run_match d inner (render (stageOfDelim d) rest)
                  prev Hne Hplain Hdot) as [p Hp].
      rewrite Hp. now rewrite IH.
    + rewrite !span_unstripped by lia.
      rewrite delim_run_plain; [now rewrite IH|].
      apply Forall_app. split; [|apply Forall_app; split].
      * apply repeat_without, Hc.
      * exact Hinner.
      * apply repeat_without, Hc.
    + rewrite !span_unstripped by lia.
      assert (Es : delimStr d' = repeat (delimChar d) (delimLen d'))
        by (unfold delimStr; now rewrite Hc).
      rewrite Es, <- !app_assoc.
      rewrite (delim_run_short d (delimLen d'));
        [|apply headNot_app; assumption|exact Hlen].
      rewrite delim_run_plain by exact Hinner.
      rewrite (delim_run_short d (delimLen d'));
        [now rewrite IH| |exact Hlen].
      rewrite <- Hc. apply (head_after_span d' inner rest); assumption.
Qed.

Lemma render_source (items : list item) : render 0 items = sourceOf items.
Proof. reflexivity. Qed.

Lemma render_text (items : list item) : render 10 items = textOf items.
Proof.
  unfold render, textOf. induction items as [|i rest IH]; [reflexivity|].
  simpl. rewrite IH. f_equal.
  destruct i as [c|alt url|txt url|d inner]; try reflexivity.
  now destruct d.
Qed.

(** On a well-formed decorated string the passes remove the delimiters
    and nothing else. *)
Lemma stripMarkdown_items (items : list item) :
  WellFormed items -> stripMarkdown (sourceOf items) = textOf items.
Proof.
  intros Hwf. unfold stripMarkdown, replaceAll.
  rewrite <- render_source, <- render_text.
  rewrite (image_pass items Hwf), (link_pass items Hwf).
  rewrite (delim_pass Star3 items Hwf), (delim_pass Star2 items Hwf),
    (delim_pass Star1 items Hwf).
  rewrite (delim_pass Under3 items Hwf), (delim_pass Under2 items Hwf),
    (delim_pass Under1 items Hwf).
  rewrite (delim_pass Code items Hwf).
  apply (delim_pass Strike items Hwf).
Qed.

Lemma textOf_plain (items : list item) :
  WellFormed items -> Plain (textOf items).
Proof.
  induction items as [|i rest IH]; intros Hwf; [constructor|].
  destruct Hwf as (Hi & _ & Hrest). unfold textOf. simpl.
  apply Forall_app. split; [|apply IH, Hrest].
  destruct i; simpl in *; [repeat constructor; exact Hi|apply Hi..].
Qed.

Lemma plain_items (t : str) :
  Plain t ->
  WellFormed (map Text t) /\ sourceOf (map Text t) = t /\
  textOf (map Text t) = t.
Proof.
  induction 1 as [|c t Hc _ (IHwf & IHs & IHt)]; [repeat split|].
  repeat split.
  - exact Hc.
  - now destruct t.
  - exact IHwf.
  - unfold sourceOf in *. simpl. now rewrite IHs.
  - unfold textOf in *. simpl. now rewrite IHt.
Qed.

(** A text without markup characters is left as it is. *)
Lemma stripMarkdown_plain (t : str) : Plain t -> stripMarkdown t = t.
Proof.
  intros Ht. destruct (plain_items t Ht) as (Hwf & Hs & Htxt).
  rewrite <- Hs at 1. rewrite (stripMarkdown_items _ Hwf). exact Htxt.
Qed.

(** C6 (amended). For a string made of plain characters, images,
    links and spans that are not nested (the inner texts are plain, a
    span's is not empty and on one line), with no link right after an
    exclamation mark and, after a span, neither a span with the same
    delimiter character nor a link or image without text:
    [stripMarkdown] returns the inner texts in order, the delimiter
    pairs and the urls removed and nothing else, and running it again
    on that result changes nothing. *)
Theorem stripMarkdown_flat_idempotent (items : list item) :
  WellFormed items ->
  stripMarkdown (sourceOf items) = textOf items /\
  stripMarkdown (stripMarkdown (sourceOf items)) =
  stripMarkdown (sourceOf items).
Proof.
  intros Hwf. rewrite (stripMarkdown_items items Hwf). split.
  - reflexivity.
  - apply stripMarkdown_plain, textOf_plain, Hwf.
Qed.

Lemma stripMarkdown_flat_idempotent_witness :
  stripMarkdown (sourceOf demoDoc) = js "see docs bold altx" /\
  stripMarkdown (stripMarkdown (sourceOf demoDoc)) =
  stripMarkdown (sourceOf demoDoc).
Proof.
  apply (stripMarkdown_flat_idempotent demoDoc).
  simpl. unfold Plain.
  repeat match goal with
         | |- context [js ?s] =>
             let v := eval vm_compute in (js s) in change (js s) with v
         end.
  repeat match goal with
         | |- _ /\ _ => split
         | |- True => exact I
         | |- Forall _ _ => constructor
         | |- _ <> _ => discriminate
         | |- _ = _ => reflexivity
         end.
Defined.

(** C6, as stated, at two strings without nested delimiters: an
    emphasised parenthesis after a bracketed word, and a link without
    text between a bracketed word and a parenthesis.  The first run
    leaves "[a](b)", which the second run reads as a link. *)
Lemma stripMarkdown_not_idempotent :
  stripMarkdown bracketThenEmphasis = js "[a](b)" /\
  stripMarkdown emptyLinkBetween = js "[a](b)" /\
  stripMarkdown (stripMarkdown bracketThenEmphasis)
  <> stripMarkdown bracketThenEmphasis /\
  stripMarkdown (stripMarkdown emptyLinkBetween)
  <> stripMarkdown emptyLinkBetween.
Proof.
  repeat split; vm_compute; (reflexivity || discriminate).
Qed.

(** The stripping cases of the component's tests. *)
Example stripMarkdown_tests :
  stripMarkdown (js "a **bold** word") = js "a bold word" /\
  stripMarkdown (js "an *italic* word") = js "an italic word" /\
  stripMarkdown (js "***both***") = js "both" /\
  stripMarkdown (js "run `npm test` now") = js "run npm test now" /\
  stripMarkdown (js "see [docs](http://example.com)") = js "see docs" /\
  stripMarkdown (js "![alt text](image.png)") = js "alt text" /\
  stripMarkdown (js "~~removed~~") = js "removed" /\
  stripMarkdown (js "__bold__ and _italic_") = js "bold and italic" /\
  stripMarkdown (js "plain text") = js "plain text".
Proof. repeat split; vm_compute; reflexivity. Qed.

End Passes.

(** * Further properties *)

(** ** The hook: candidates *)

Section CandidateFacts.

Import Hook Spec.

Lemma candidatesOf_item (s : Skill) (item : SlashCommandItem) :
  In item (candidatesOf s) ->
  skill item = s /\
  (In (command item) (slashTriggersOf s) \/
   (slashTriggersOf s = [] /\ type s = js "agentskills" /\
    command item = js "/" ++ name s)).
Proof.
  unfold candidatesOf. rewrite slashTriggersOf_slashed.
  destruct (slashedTriggers s) as [|t ts] eqn:E.
  - destruct (list_eq_dec ascii_dec (type s) (js "agentskills"))
      as [Et|Et]; [|contradiction].
    intros [<-|[]]. simpl. auto.
  - intros H. apply in_map_iff in H as (t' & <- & Ht). simpl. auto.
Qed.

Lemma slashTrigger_slash (s : Skill) (t : str) :
  In t (slashTriggersOf s) ->
  startsWith t (js "/") = true /\
  exists ts, triggers s = Some ts /\ In t ts.
Proof.
  unfold slashTriggersOf. intros H. apply filter_In in H as [Hin Hs].
  split; [exact Hs|].
  destruct (triggers s) as [ts|]; [|contradiction]. now exists ts.
Qed.

(** X1. Every candidate belongs to a skill of the list and its command
    starts with a slash: it is one of the skill's own triggers, or
    "/name" for a skill of type "agentskills" that has no trigger
    starting with a slash. *)
Theorem slashItems_commands (skills : list Skill) (item : SlashCommandItem) :
  In item (slashItems (Some skills)) ->
  In (skill item) skills /\
  startsWith (command item) (js "/") = true /\
  ((exists ts, triggers (skill item) = Some ts /\ In (command item) ts) \/
   (slashTriggersOf (skill item) = [] /\
    type (skill item) = js "agentskills" /\
    command item = js "/" ++ name (skill item))).
Proof.
  unfold slashItems. rewrite fold_left_addSkill. simpl.
  intros H. apply in_flat_map in H as (s & Hs & Hitem).
  apply candidatesOf_item in Hitem as [<- Hcmd]. split; [exact Hs|].
  destruct Hcmd as [Ht|(Hnone & Hty & Hcmd)].
  - apply slashTrigger_slash in Ht as [Hslash Hts]. auto.
  - split; [now rewrite Hcmd|]. right. auto.
Qed.

Lemma slashItems_commands_witness :
  startsWith (js "/code-search") (js "/") = true.
Proof.
  assert (H : In (mkItem (mkSkill (js "code-search") (js "agentskills")
                                  None (Some []))
                         (js "/code-search"))
                 (slashItems
                    (Some [mkSkill (js "random-number") (js "knowledge")
                                   None (Some [js "/random-number"]);
                           mkSkill (js "code-search") (js "agentskills")
                                   None (Some [])])))
    by (vm_compute; auto).
  exact (proj1 (proj2 (slashItems_commands _ _ H))).
Defined.

Lemma containsCI_prefix (f g x : str) :
  ContainsCI (f ++ g) x -> ContainsCI f x /\ ContainsCI g x.
Proof.
  intros (pre & mid & post & -> & Hmid).
  apply Forall2_app_inv_r in Hmid as (m1 & m2 & H1 & H2 & ->). split.
  - exists pre, m1, (m2 ++ post). split; [|exact H1].
    now rewrite <- !app_assoc.
  - exists (pre ++ m1), m2, post. split; [|exact H2].
    now rewrite <- !app_assoc.
Qed.

Lemma filteredItems_In (items : list SlashCommandItem) (f : str)
      (item : SlashCommandItem) :
  In item (filteredItems items f) <->
  In item items /\ (f = [] \/ Matches f item).
Proof.
  destruct f as [|c f]; simpl.
  - tauto.
  - rewrite filter_In.
    rewrite (matchesFilter_spec (c :: f) item).
    split; intros [H1 H2]; split; auto.
    destruct H2 as [H2|H2]; [discriminate|exact H2].
Qed.

(** X2. For commands, skill names and filter texts of code units below
    256, typing more never adds a candidate: what a filter text keeps is
    kept by each of its two parts, and is always a candidate.  (On other
    texts lower-casing depends on the neighbours of a letter, and a
    longer filter text can keep what a shorter one dropped.) *)
Theorem filteredItems_narrows (items : list SlashCommandItem) (f g : str)
        (item : SlashCommandItem) :
  In item (filteredItems items (f ++ g)) ->
  In item (filteredItems items f) /\
  In item (filteredItems items g) /\
  In item items.
Proof.
  rewrite !filteredItems_In. intros [Hin H].
  assert (Hf : (f = [] \/ Matches f item) /\ (g = [] \/ Matches g item)).
  { destruct H as [H|H].
    - apply app_eq_nil in H as [-> ->]. auto.
    - split; right; destruct H as [H|H];
        apply containsCI_prefix in H as [H1 H2];
        unfold Matches; auto. }
  tauto.
Qed.

Lemma filteredItems_narrows_witness :
  In (mkItem (mkSkill (js "random-number") (js "knowledge") None
                      (Some [js "/random-number"]))
             (js "/random-number"))
     (filteredItems (slashItems demoSkills) (js "ra")).
Proof.
  assert (H : In (mkItem (mkSkill (js "random-number") (js "knowledge")
                                  None (Some [js "/random-number"]))
                         (js "/random-number"))
                 (filteredItems (slashItems demoSkills)
                                (js "ra" ++ js "nd")))
    by (vm_compute; auto).
  exact (proj1 (filteredItems_narrows (slashItems demoSkills) (js "ra")
                  (js "nd") _ H)).
Defined.

End CandidateFacts.

(** ** The hook: what the keyboard handler can do *)

Section HandlerFacts.

Import Hook Spec.

Variable skills : option (list Skill).
Variable chatInput : option Element.

#[local] Abbreviation shown := (Spec.shown skills).

(** The outcomes of [handleSlashKeyDown], one per branch of the
    switch. *)
Lemma handle_cases (st : State) (key : str) :
  let r := handleSlashKeyDown skills chatInput st key in
  let n := Z.of_nat (length (shown st)) in
  let i := selectedIndex st in
  r = mkKeyResult false false chatInput st \/
  (r = mkKeyResult false false chatInput (closeMenu st) /\
   isMenuOpen st = true /\ shown st <> [] /\ In key cursorKeys) \/
  (isMenuOpen st = true /\ shown st <> [] /\
   ((key = js "ArrowDown" /\
     r = mkKeyResult true true chatInput
           (mkState (isMenuOpen st) (filterText st)
                    (if (i <? n - 1)%Z then (i + 1)%Z else 0%Z)
                    (slashRange st))) \/
    (key = js "ArrowUp" /\
     r = mkKeyResult true true chatInput
           (mkState (isMenuOpen st) (filterText st)
                    (if (i >? 0)%Z then (i - 1)%Z else (n - 1)%Z)
                    (slashRange st))) \/
    ((key = js "Enter" \/ key = js "Tab") /\
     exists item,
       item_at (shown st) i = Some item /\
       r = mkKeyResult true true (fst (selectItem chatInput st item))
                       (snd (selectItem chatInput st item))) \/
    (key = js "Escape" /\
     r = mkKeyResult true true chatInput (closeMenu st)))).
Proof.
  intros r n i. subst r n i.
  unfold handleSlashKeyDown. cbv zeta. fold (shown st).
  destruct (isMenuOpen st) eqn:Hopen; [|now left].
  destruct (shown st) as [|it l] eqn:Hitems; [now left|].
  cbn [negb orb]. change (length (it :: l) =? 0)%nat with false. cbv iota.
  assert (Hne : it :: l <> []) by discriminate.
  assert (Hact : forall P : Prop, P -> true = true /\ it :: l <> [] /\ P)
    by (intros P HP; repeat split; [discriminate|exact HP]).
  destruct (streq key (js "ArrowDown")) eqn:E1.
  { apply streq_eq in E1. right. right. apply Hact. left. now split. }
  destruct (streq key (js "ArrowUp")) eqn:E2.
  { apply streq_eq in E2. right. right. apply Hact. right. left.
    now split. }
  destruct (streq key (js "Enter") || streq key (js "Tab")) eqn:E3.
  { destruct (item_at (it :: l) (selectedIndex st)) as [item|] eqn:Eitem;
      [|now left].
    right. right. apply Hact. right. right. left. split.
    - apply orb_prop in E3 as [E|E]; apply streq_eq in E; auto.
    - now exists item. }
  destruct (streq key (js "Escape")) eqn:E4.
  { apply streq_eq in E4. right. right. apply Hact.
    right. right. right. now split. }
  destruct (streq key (js "ArrowLeft") || streq key (js "ArrowRight") ||
            streq key (js "Home") || streq key (js "End")) eqn:E5;
    [|now left].
  right. left. split; [reflexivity|]. apply Hact.
  unfold cursorKeys.
  apply orb_prop in E5 as [E5|E5];
    [apply orb_prop in E5 as [E5|E5];
     [apply orb_prop in E5 as [E5|E5]|]|];
    apply streq_eq in E5; subst key; simpl; auto.
Qed.

(** X3. The handler calls [preventDefault] exactly when it returns true.
    It returns true only while the menu is open over a non-empty list,
    and only for ArrowDown, ArrowUp, Enter, Tab and Escape. When it
    returns false the surface is untouched and the state is unchanged,
    or unchanged but for the menu being closed. *)
Theorem handler_consumes_when_active (st : State) (key : str) :
  let r := handleSlashKeyDown skills chatInput st key in
  defaultPrevented r = consumed r /\
  (consumed r = true ->
   isMenuOpen st = true /\ shown st <> [] /\
   In key [js "ArrowDown"; js "ArrowUp"; js "Enter"; js "Tab";
           js "Escape"]) /\
  (consumed r = false ->
   key_input r = chatInput /\
   (key_state r = st \/ key_state r = closeMenu st)).
Proof.
  intros r. subst r.
  destruct (handle_cases st key)
    as [H|[(H & Ho & Hi & Hk)|(Ho & Hi &
         [[Hk H]|[[Hk H]|[[Hk (item & _ & H)]|[Hk H]]]])]];
    rewrite H; cbn [defaultPrevented consumed key_input key_state];
    (split; [reflexivity|split; intros Hc; try discriminate Hc]).
  - auto.
  - auto.
  - subst key. repeat split; try assumption. simpl. intuition.
  - subst key. repeat split; try assumption. simpl. intuition.
  - destruct Hk as [-> | ->]; repeat split; try assumption;
      simpl; intuition.
  - subst key. repeat split; try assumption. simpl. intuition.
Qed.

End HandlerFacts.

(** ** The hook: the highlighted index along a run *)

Section Runs.

Import Hook Spec.

Variable skills : option (list Skill).

#[local] Abbreviation shown := (Spec.shown skills).

Lemma step_keeps_index (chatInput : option Element) (st : State)
      (a : Action) :
  selectedIndex st = 0%Z \/ InBounds (selectedIndex st) (shown st) ->
  let st' := snd (step skills chatInput st a) in
  selectedIndex st' = 0%Z \/ InBounds (selectedIndex st') (shown st').
Proof.
  intros Hinv st'. subst st'. unfold step. cbn [snd].
  unfold resetIndexEffect.
  set (st1 := snd (perform skills chatInput st a)).
  destruct (streq (filterText st) (filterText st1)) eqn:E;
    [|left; reflexivity].
  apply streq_eq in E.
  assert (Hshown : shown st1 = shown st)
    by (unfold Spec.shown; now rewrite <- E).
  rewrite Hshown. clear Hshown E. subst st1.
  destruct a as [|item|key|]; cbn [perform snd].
  - replace (selectedIndex (updateSlashMenu skills chatInput st))
      with (selectedIndex st); [exact Hinv|].
    unfold updateSlashMenu.
    destruct (getSlashText chatInput); [|reflexivity].
    now destruct (0 <? length (slashItems skills))%nat.
  - destruct chatInput; [left; reflexivity|exact Hinv].
  - destruct (handle_cases skills chatInput st key)
      as [H|[(H & _)|(Ho & Hi &
           [[_ H]|[[_ H]|[[_ (item & _ & H)]|[_ H]]]])]];
      rewrite H; cbn [key_state selectedIndex closeMenu]; try exact Hinv.
    + assert (Hn : (1 <= Z.of_nat (length (shown st)))%Z).
      { destruct (shown st); [contradiction|]. simpl length. lia. }
      unfold InBounds in *.
      destruct (Z.ltb_spec (selectedIndex st)
                           (Z.of_nat (length (shown st)) - 1));
        [right|left; reflexivity].
      destruct Hinv; lia.
    + assert (Hn : (1 <= Z.of_nat (length (shown st)))%Z).
      { destruct (shown st); [contradiction|]. simpl length. lia. }
      unfold InBounds in *. right.
      destruct (Z.gtb_spec (selectedIndex st) 0); destruct Hinv; lia.
    + destruct chatInput; [left; reflexivity|exact Hinv].
  - exact Hinv.
Qed.

End Runs.

Section SteadyRuns.

Import Hook Spec.

Lemma steady_index (skills : option (list Skill)) (st : State) :
  SteadyRun skills st ->
  selectedIndex st = 0%Z \/
  InBounds (selectedIndex st) (Spec.shown skills st).
Proof.
  induction 1 as [skills|skills st chatInput a _ IH|skills skills' st _ _ H0].
  - left. reflexivity.
  - apply step_keeps_index, IH.
  - left. exact H0.
Qed.

(** X4. Along every run of the hook from its initial state in which the
    skill list stays the same, or changes only while the highlighted
    index is 0, and whatever the surface holds at each action, the
    highlighted index is one of the shown list whenever that list is not
    empty.  So while the menu is open over candidates, Enter and Tab
    find a candidate, are consumed and commit it. *)
Theorem reachable_enter_commits (skills : option (list Skill))
        (st : State) :
  SteadyRun skills st ->
  (Spec.shown skills st <> [] ->
   InBounds (selectedIndex st) (Spec.shown skills st)) /\
  (forall (chatInput : option Element) (key : str),
      isMenuOpen st = true -> Spec.shown skills st <> [] ->
      key = js "Enter" \/ key = js "Tab" ->
      exists item,
        nth_error (Spec.shown skills st) (Z.to_nat (selectedIndex st)) =
        Some item /\
        handleSlashKeyDown skills chatInput st key =
        mkKeyResult true true (fst (selectItem chatInput st item))
                    (snd (selectItem chatInput st item))).
Proof.
  intros Hreach.
  assert (Hb : Spec.shown skills st <> [] ->
               InBounds (selectedIndex st) (Spec.shown skills st)).
  { intros Hne. destruct (steady_index skills st Hreach) as [H0|H];
      [|exact H].
    rewrite H0. unfold InBounds. destruct (Spec.shown skills st);
      [contradiction|]. simpl length. lia. }
  split; [exact Hb|].
  intros chatInput key Hopen Hne Hkey. specialize (Hb Hne).
  unfold InBounds in Hb.
  destruct (nth_error (Spec.shown skills st) (Z.to_nat (selectedIndex st)))
    as [item|] eqn:Eitem.
  - exists item. split; [reflexivity|].
    unfold handleSlashKeyDown. cbv zeta. fold (Spec.shown skills st).
    rewrite (handle_active skills st Hopen Hne).
    assert (Hat : item_at (Spec.shown skills st) (selectedIndex st) =
                  Some item).
    { unfold item_at. destruct (Z.ltb_spec (selectedIndex st) 0); [lia|].
      exact Eitem. }
    destruct Hkey as [-> | ->]; cbn [streq js]; rewrite Hat; reflexivity.
  - apply nth_error_None in Eitem. lia.
Qed.

End SteadyRuns.


Section HandlerWitnesses.

Import Hook Spec.

Lemma handler_consumes_when_active_witness :
  isMenuOpen (demoOpen 0) = true /\
  Spec.shown demoSkills (demoOpen 0) <> [] /\
  In (js "Escape") [js "ArrowDown"; js "ArrowUp"; js "Enter"; js "Tab";
                    js "Escape"].
Proof.
  assert (H : consumed (handleSlashKeyDown demoSkills (demoInput "/" 1)
                          (demoOpen 0) (js "Escape")) = true)
    by reflexivity.
  exact (proj1 (proj2 (handler_consumes_when_active demoSkills
                         (demoInput "/" 1) (demoOpen 0) (js "Escape"))) H).
Defined.

Lemma reachable_enter_commits_witness :
  InBounds
    (selectedIndex
       (snd (step demoSkills (demoInput "/ra" 3) initialState
                  UpdateSlashMenu)))
    (Spec.shown demoSkills
       (snd (step demoSkills (demoInput "/ra" 3) initialState
                  UpdateSlashMenu))).
Proof.
  apply (reachable_enter_commits demoSkills _
           (Steady_step demoSkills initialState (demoInput "/ra" 3)
              UpdateSlashMenu
              (Steady_reload None demoSkills initialState
                 (Steady_init None) eq_refl))).
  vm_compute. discriminate.
Defined.

End HandlerWitnesses.

(** ** The hook: detecting the slash word *)

Section Detection.

Import Hook Spec.

(** A greedy quantifier before the end of input takes everything or
    fails; [f] is what the enclosing groups do to the state. *)
Lemma star_toEnd (p : ascii -> bool) (f : mstate -> mstate) :
  (forall st, m_rest (f st) = m_rest st) ->
  forall (s : str) (prev : option ascii) (caps : list (nat * str)),
    star true p prev s caps (fun st' => atEnd (f st')) =
    if forallb p s then Some (f (MState (prevAfter prev s) [] caps))
    else None.
Proof.
  intros Hf s. induction s as [|c t IH]; intros prev caps.
  - simpl. unfold atEnd, atEol. now rewrite Hf.
  - simpl. destruct (p c).
    + rewrite IH. simpl.
      destruct (forallb p t); [reflexivity|].
      simpl. unfold atEnd, atEol. now rewrite Hf.
    + unfold atEnd, atEol. now rewrite Hf.
Qed.

Lemma slashRun_match (prev : option ascii) (g1 t : str) :
  rmatch false
    (cat [Group 2 (Seq (Chr (isChar "/")) (Star true nonSpace)); Eol])
    (MState prev t [(1, g1)]) Some = slashRun g1 t.
Proof.
  rewrite rmatch_cat_cons. cbn [rmatch m_rest m_prev m_caps].
  destruct t as [|c w]; [reflexivity|].
  unfold slashRun. destruct (isChar "/" c); [|reflexivity].
  cbn [andb m_rest m_prev m_caps].
  rewrite (star_toEnd nonSpace
             (fun st' =>
                MState (m_prev st') (m_rest st')
                       ((2, firstn (length (c :: w) - length (m_rest st'))
                                   (c :: w)) :: m_caps st')))
    by reflexivity.
  destruct (forallb nonSpace w); [|reflexivity].
  cbn [m_rest m_prev m_caps]. change (length (@nil ascii)) with 0.
  now rewrite Nat.sub_0_r, firstn_all.
Qed.

(** One attempt of [reSlashWord]: at the start of the text the word
    may begin at once; anywhere, it may begin after one white-space
    character. *)
Lemma matchHere_slashWord (prev : option ascii) (s : str) :
  matchHere false reSlashWord prev s =
  orElse (match prev with None => slashRun [] s | Some _ => None end)
         (match s with
          | c :: t => if isWhiteSpace c then slashRun [c] t else None
          | [] => None
          end).
Proof.
  unfold matchHere, reSlashWord.
  rewrite rmatch_cat_cons. cbn [rmatch m_rest m_prev m_caps atBol].
  f_equal.
  - destruct prev as [p|]; cbn [andb]; [reflexivity|].
    rewrite Nat.sub_diag. cbn [firstn]. apply slashRun_match.
  - destruct s as [|c t]; [reflexivity|].
    destruct (isWhiteSpace c); [|reflexivity].
    cbn [m_rest m_prev m_caps length].
    replace (S (length t) - length t) with 1 by lia.
    cbn [firstn]. apply slashRun_match.
Qed.

Lemma slashRun_some (g1 t : str) (st' : mstate) :
  slashRun g1 t = Some st' ->
  exists w,
    t = "/"%char :: w /\ Forall (fun c => nonSpace c = true) w /\
    m_caps st' = [(2, "/"%char :: w); (1, g1)] /\ m_rest st' = [].
Proof.
  unfold slashRun. destruct t as [|c w]; [discriminate|].
  destruct (isChar "/" c) eqn:Ec; [|discriminate].
  destruct (forallb nonSpace w) eqn:Ew; [|discriminate].
  cbn [andb]. intros H. inversion H; subst; clear H.
  apply Ascii.eqb_eq in Ec. subst c. exists w. repeat split.
  apply Forall_forall. now apply forallb_forall.
Qed.

Lemma slashRun_slash (g1 w : str) :
  Forall (fun c => nonSpace c = true) w ->
  slashRun g1 ("/"%char :: w) =
  Some (MState (prevAfter (Some "/"%char) w) []
               [(2, "/"%char :: w); (1, g1)]).
Proof.
  intros Hw. unfold slashRun.
  replace (forallb nonSpace w) with true; [reflexivity|].
  symmetry. apply forallb_forall. now apply Forall_forall.
Qed.

Lemma whiteSpace_not_slash (c : ascii) :
  isWhiteSpace c = true -> isChar "/" c = false.
Proof.
  intros Hc. unfold isChar. destruct (Ascii.eqb "/" c) eqn:E; [|reflexivity].
  apply Ascii.eqb_eq in E. subst c. discriminate.
Qed.

Lemma slashRun_blocked (g1 x t : str) (c : ascii) :
  isWhiteSpace c = true -> slashRun g1 (x ++ c :: t) = None.
Proof.
  intros Hc. unfold slashRun. destruct x as [|y x]; cbn [app].
  - now rewrite (whiteSpace_not_slash c Hc).
  - rewrite forallb_app. cbn [forallb]. unfold nonSpace at 2. rewrite Hc.
    cbn [negb andb]. now rewrite andb_false_r, andb_false_r.
Qed.

Lemma prevAfter_some (c : ascii) (a : str) :
  exists p, prevAfter (Some c) a = Some p.
Proof.
  revert c; induction a as [|x a IH]; intros c; simpl; eauto.
Qed.

(** A successful search stopped at some position of the input, where
    one attempt succeeded. *)
Lemma execFrom_found (ml : bool) (r : regex) (s : str) :
  forall (prev : option ascii) (idx : nat) (res : result),
    execFrom ml r prev s idx = Some res ->
    exists a b st',
      s = a ++ b /\
      matchHere ml r (prevAfter prev a) b = Some st' /\
      r_caps res = m_caps st' /\
      r_index res = idx + length a /\
      r_match res = firstn (length b - length (m_rest st')) b.
Proof.
  induction s as [|c t IH]; intros prev idx res H; cbn [execFrom] in H.
  - destruct (matchHere ml r prev []) as [st'|] eqn:E; [|discriminate].
    inversion H; subst; clear H. exists [], [], st'.
    cbn [app length r_caps r_index r_match prevAfter fold_left].
    repeat split; auto.
  - destruct (matchHere ml r prev (c :: t)) as [st'|] eqn:E.
    + inversion H; subst; clear H. exists [], (c :: t), st'.
      cbn [app r_caps r_index r_match prevAfter fold_left].
      repeat split; auto.
    + destruct (IH _ _ _ H) as (a & b & st' & -> & Hm & Hc & Hi & Hr).
      exists (c :: a), b, st'. repeat split; auto.
      rewrite Hi. simpl. lia.
Qed.

(** [reSlashWord] finds a word only in a text that ends with a slash
    word at a word start; the second capture is that word. *)
Lemma exec_slashWord_shape (s : str) (res : result) :
  exec false reSlashWord s = Some res ->
  exists pre w,
    s = pre ++ "/"%char :: w /\ WordStart pre /\
    Forall (fun c => nonSpace c = true) w /\
    group 2 res = "/"%char :: w.
Proof.
  intros H. unfold exec in H.
  destruct (execFrom_found _ _ _ _ _ _ H)
    as (a & b & st' & -> & Hm & Hc & _ & _).
  rewrite matchHere_slashWord in Hm.
  unfold group. rewrite Hc.
  destruct (match prevAfter None a with
            | None => slashRun [] b
            | Some _ => None
            end) as [st1|] eqn:E1; cbn [orElse] in Hm.
  - inversion Hm; subst st1; clear Hm.
    destruct a as [|x a].
    + cbn [prevAfter fold_left] in E1.
      destruct (slashRun_some _ _ _ E1) as (w & -> & Hw & Hcaps & _).
      exists [], w. rewrite Hcaps. repeat split; auto. now left.
    + cbn [prevAfter fold_left] in E1.
      destruct (prevAfter_some x a) as [p Hp].
      unfold prevAfter in Hp. rewrite Hp in E1. discriminate.
  - destruct b as [|c t]; [discriminate|].
    destruct (isWhiteSpace c) eqn:Ec; [|discriminate].
    destruct (slashRun_some _ _ _ Hm) as (w & -> & Hw & Hcaps & _).
    exists (a ++ [c]), w. rewrite Hcaps, <- app_assoc.
    repeat split; auto. right. now exists a, c.
Qed.

(** Conversely such a text is matched, and the second capture is its
    last word. *)
Lemma exec_slashWord_found (pre w : str) :
  WordStart pre -> Forall (fun c => nonSpace c = true) w ->
  exists res,
    exec false reSlashWord (pre ++ "/"%char :: w) = Some res /\
    group 2 res = "/"%char :: w.
Proof.
  intros [-> | (pre' & c & -> & Hc)] Hw; unfold exec.
  - cbn [app execFrom]. rewrite matchHere_slashWord.
    rewrite (slashRun_slash [] w Hw). cbn [orElse].
    eexists. split; reflexivity.
  - rewrite <- app_assoc. cbn [app].
    rewrite (execFrom_skip false).
    + assert (Hm : matchHere false reSlashWord (prevAfter None pre')
                     (c :: "/"%char :: w) =
                   Some (MState (prevAfter (Some "/"%char) w) []
                                [(2, "/"%char :: w); (1, [c])])).
      { rewrite matchHere_slashWord. rewrite Hc.
        rewrite (slashRun_slash [c] w Hw).
        replace (slashRun [] (c :: "/"%char :: w)) with (@None mstate).
        - now destruct (prevAfter None pre').
        - unfold slashRun. now rewrite (whiteSpace_not_slash c Hc). }
      cbn [execFrom]. rewrite Hm. eexists. split; reflexivity.
    + intros a b -> Hb. rewrite matchHere_slashWord.
      rewrite slashRun_blocked by exact Hc.
      destruct b as [|x b]; [contradiction|]. cbn [app].
      rewrite slashRun_blocked by exact Hc.
      destruct (prevAfter None a); cbn [orElse];
        now destruct (isWhiteSpace x).
Qed.

Lemma exec_slashWord_after_space (x : str) (c : ascii) :
  isWhiteSpace c = true -> exec false reSlashWord (x ++ [c]) = None.
Proof.
  intros Hc. destruct (exec false reSlashWord (x ++ [c])) as [res|] eqn:E;
    [|reflexivity].
  destruct (exec_slashWord_shape _ _ E) as (pre & w & Hs & _ & Hw & _).
  exfalso. destruct (exists_last (l := "/"%char :: w)) as (w' & d & Hd);
    [discriminate|].
  assert (Hdn : nonSpace d = true \/ d = "/"%char).
  { destruct w' as [|y w']; cbn [app] in Hd; injection Hd as Hy Hw'.
    - right. now symmetry.
    - left. rewrite Forall_forall in Hw. apply Hw. rewrite Hw'.
      apply in_or_app. right. now left. }
  rewrite Hd, app_assoc in Hs. apply app_inj_tail in Hs as [_ ->].
  destruct Hdn as [Hn | ->]; [|discriminate].
  unfold nonSpace in Hn. now rewrite Hc in Hn.
Qed.

(** [reLeadingNonSpace] takes the characters up to the first white
    space. *)
Lemma exec_leadingNonSpace (a b : str) :
  Forall (fun c => nonSpace c = true) a -> WordEnd b ->
  exec false reLeadingNonSpace (a ++ b) = Some (Result 0 a []).
Proof.
  intros Ha Hb.
  assert (Hm : matchHere false reLeadingNonSpace None (a ++ b) =
               Some (MState (prevAfter None a) b [])).
  { unfold matchHere, reLeadingNonSpace.
    rewrite rmatch_cat_cons. cbn [rmatch atBol m_prev].
    rewrite rmatch_cat_cons. cbn [rmatch m_prev m_rest m_caps].
    apply star_greedy_take; [exact Ha|reflexivity|].
    destruct b as [|c b]; [exact I|]. unfold nonSpace.
    simpl in Hb. now rewrite Hb. }
  unfold exec.
  replace (execFrom false reLeadingNonSpace None (a ++ b) 0)
    with (Some (Result 0 (firstn (length (a ++ b) - length b) (a ++ b))
                       (@nil (nat * str)))).
  - now rewrite firstn_prefix_len.
  - destruct (a ++ b); cbn [execFrom]; now rewrite Hm.
Qed.

Lemma nonSpace_span (s : str) :
  exists a b,
    s = a ++ b /\ Forall (fun c => nonSpace c = true) a /\ WordEnd b.
Proof.
  induction s as [|c t (a & b & -> & Ha & Hb)].
  - exists [], []. repeat split. constructor.
  - destruct (isWhiteSpace c) eqn:Ec.
    + exists [], (c :: a ++ b). repeat split; [constructor|exact Ec].
    + exists (c :: a), b. repeat split; [|exact Hb].
      constructor; [|exact Ha]. unfold nonSpace. now rewrite Ec.
Qed.

End Detection.

(** ** The hook: the detected word and its range *)

Section SlashWord.

Import Hook Spec.

Lemma getSlashText_at (element : Element) (n : nat) :
  caret element = Some n ->
  getSlashText (Some element) =
  match exec false reSlashWord (firstn n (currentText element)) with
  | None => None
  | Some m =>
      Some (mkSlashText
              (sliceFrom (group 2 m) 1)
              (len (firstn n (currentText element)) - len (group 2 m))
              (Z.of_nat n +
               match exec false reLeadingNonSpace
                          (skipn n (currentText element)) with
               | Some tr => len (r_match tr)
               | None => 0
               end))
  end.
Proof.
  intros Hc. unfold getSlashText, getCursorOffset. rewrite Hc.
  destruct (Z.ltb_spec (Z.of_nat n) 0); [lia|].
  rewrite slice_0_Z, sliceFrom_Z by lia.
  now rewrite Nat2Z.id.
Qed.

Lemma len_app_sub (pre w : str) : (len (pre ++ w) - len w = len pre)%Z.
Proof. unfold len. rewrite length_app. lia. Qed.

(** What a detected word says about the surface. *)
Lemma getSlashText_shape (element : Element) (word : SlashText) :
  getSlashText (Some element) = Some word ->
  exists n pre after rest,
    caret element = Some n /\
    firstn n (currentText element) = pre ++ "/"%char :: st_text word /\
    skipn n (currentText element) = after ++ rest /\
    WordStart pre /\
    Forall (fun c => nonSpace c = true) (st_text word ++ after) /\
    WordEnd rest /\
    st_start word = len pre /\
    st_end word = (Z.of_nat n + len after)%Z.
Proof.
  intros H. destruct (caret element) as [n|] eqn:Hc;
    [|unfold getSlashText, getCursorOffset in H; rewrite Hc in H;
      discriminate].
  rewrite (getSlashText_at element n Hc) in H.
  destruct (exec false reSlashWord (firstn n (currentText element)))
    as [m|] eqn:Em; [|discriminate].
  destruct (exec_slashWord_shape _ _ Em) as (pre & w & Hs & Hpre & Hw & Hg).
  destruct (nonSpace_span (skipn n (currentText element)))
    as (after & rest & Hafter & Ha & Hrest).
  rewrite Hafter, (exec_leadingNonSpace after rest Ha Hrest) in H.
  rewrite Hg, Hs, sliceFrom_1, len_app_sub in H. cbn [tl] in H.
  inversion H; subst word; clear H. cbn [st_text st_start st_end r_match].
  exists n, pre, after, rest. repeat split; auto.
  apply Forall_app. now split.
Qed.

(** Such a surface yields the word. *)
Lemma getSlashText_found (element : Element) (n : nat)
      (pre w after rest : str) :
  caret element = Some n ->
  firstn n (currentText element) = pre ++ "/"%char :: w ->
  skipn n (currentText element) = after ++ rest ->
  WordStart pre ->
  Forall (fun c => nonSpace c = true) (w ++ after) ->
  WordEnd rest ->
  getSlashText (Some element) =
  Some (mkSlashText w (len pre) (Z.of_nat n + len after)).
Proof.
  intros Hc Hb Ha Hpre Hw Hrest. apply Forall_app in Hw as [Hw Hafter].
  rewrite (getSlashText_at element n Hc), Hb, Ha.
  destruct (exec_slashWord_found pre w Hpre Hw) as (res & -> & Hg).
  rewrite (exec_leadingNonSpace after rest Hafter Hrest).
  now rewrite Hg, sliceFrom_1, len_app_sub.
Qed.

(** X5. The detection finds a word exactly when the text before the
    caret ends with a slash that starts a word (it is the first
    character or follows white space) and is followed up to the caret by
    characters that are not white space. The filter text is what stands
    between the slash and the caret, the range starts at the slash and
    ends where the run of characters that are not white space ends after
    the caret. *)
Theorem getSlashText_exact (element : Element) (word : SlashText) :
  getSlashText (Some element) = Some word <->
  exists n pre after rest,
    caret element = Some n /\
    firstn n (currentText element) = pre ++ "/"%char :: st_text word /\
    skipn n (currentText element) = after ++ rest /\
    WordStart pre /\
    Forall (fun c => nonSpace c = true) (st_text word ++ after) /\
    WordEnd rest /\
    st_start word = len pre /\
    st_end word = (Z.of_nat n + len after)%Z.
Proof.
  split; [apply getSlashText_shape|].
  intros (n & pre & after & rest & Hc & Hb & Ha & Hpre & Hw & Hrest &
          Hs & He).
  rewrite (getSlashText_found element n pre (st_text word) after rest)
    by assumption.
  destruct word as [t s e]. cbn [st_text st_start st_end] in *.
  now subst.
Qed.

End SlashWord.

(** ** The hook: committing a candidate *)

Section Commit.

Import Hook Spec.

Lemma firstn_length_app (a b : str) : firstn (length a) (a ++ b) = a.
Proof.
  rewrite firstn_app, Nat.sub_diag, firstn_all. apply app_nil_r.
Qed.

Lemma skipn_length_app (a b : str) : skipn (length a) (a ++ b) = b.
Proof. now rewrite skipn_app, skipn_all, Nat.sub_diag. Qed.

Lemma last_case (l : str) : l = [] \/ exists l' c, l = l' ++ [c].
Proof. induction l using rev_ind; eauto. Qed.

(** Every text is a text that does not end with a line break, followed
    by line breaks. *)
Lemma trailing_breaks (t : str) :
  exists u nl,
    t = u ++ nl /\ NoTrailingBreak u /\
    Forall (fun c => isLineTerminator c = true) nl.
Proof.
  induction t as [|c t IH] using rev_ind.
  - exists [], []. repeat split; [|constructor].
    intros v c E. destruct v; discriminate.
  - destruct IH as (u & nl & -> & Hu & Hnl).
    destruct (isLineTerminator c) eqn:Ec.
    + exists u, (nl ++ [c]). rewrite app_assoc. repeat split; auto.
      apply Forall_app. split; auto.
    + exists ((u ++ nl) ++ [c]), []. rewrite app_nil_r.
      repeat split; [|constructor].
      intros v d E. apply app_inj_tail in E as [_ <-]. exact Ec.
Qed.

(** X6. The text the hook works on is the surface's text without the
    line breaks at its end: only line breaks were removed, and what is
    left does not end with a line break. *)
Theorem currentText_spec (element : Element) :
  exists nl,
    innerText element = currentText element ++ nl /\
    Forall (fun c => isLineTerminator c = true) nl /\
    NoTrailingBreak (currentText element).
Proof.
  destruct (trailing_breaks (innerText element)) as (u & nl & E & Hu & Hnl).
  rewrite (currentText_strips element u nl E Hu Hnl).
  exists nl. repeat split; assumption.
Qed.

(** The text up to a character that is not a line break is kept. *)
Lemma currentText_front (element : Element) (x y : str) (c : ascii) :
  innerText element = x ++ c :: y ->
  isLineTerminator c = false ->
  exists y', currentText element = (x ++ [c]) ++ y'.
Proof.
  intros E Hc.
  destruct (trailing_breaks y) as (y' & nl & -> & Hy & Hnl).
  exists y'. apply (currentText_strips element _ nl); [| |exact Hnl].
  - rewrite E, <- !app_assoc. reflexivity.
  - intros v d Ev. destruct (last_case y') as [-> | (y'' & e & ->)].
    + rewrite app_nil_r in Ev. apply app_inj_tail in Ev as [_ <-].
      exact Hc.
    + rewrite app_assoc in Ev. apply app_inj_tail in Ev as [_ <-].
      apply (Hy y'' e eq_refl).
Qed.

(** After a space that ends the text before the caret nothing is
    detected. *)
Lemma getSlashText_after_space (element : Element) (x y : str) :
  innerText element = x ++ " "%char :: y ->
  caret element = Some (length (x ++ [" "%char])) ->
  getSlashText (Some element) = None.
Proof.
  intros E Hc.
  destruct (currentText_front element x y " "%char E eq_refl) as [y' Hy].
  rewrite (getSlashText_at element _ Hc), Hy, firstn_length_app.
  now rewrite exec_slashWord_after_space.
Qed.

(** [selectItem] with a recorded range, whatever the surface holds. *)
Lemma selectItem_range (element : Element) (st : State) (r : SlashRange)
      (item : SlashCommandItem) :
  slashRange st = Some r ->
  (0 <= range_start r <= range_end r)%Z ->
  selectItem (Some element) st item =
  (Some (mkElement
           (firstn (Z.to_nat (range_start r)) (currentText element) ++
            command item ++ js " " ++
            skipn (Z.to_nat (range_end r)) (currentText element))
           (Some (length
                    (firstn (Z.to_nat (range_start r))
                            (currentText element) ++
                     command item ++ js " ")))
           true (S (inputEvents element))),
   mkState false [] 0 None).
Proof.
  intros Hr Hse. unfold selectItem. rewrite Hr.
  rewrite slice_0_Z, sliceFrom_Z by lia.
  set (before := firstn (Z.to_nat (range_start r)) (currentText element)).
  set (after := skipn (Z.to_nat (range_end r)) (currentText element)).
  assert (Hlen : Z.to_nat
            (Z.min (range_start r + len (command item ++ js " "))
               (len (before ++ (command item ++ js " ") ++ after))) =
          length (before ++ command item ++ js " ")).
  { unfold len. rewrite !length_app. subst before after.
    rewrite length_firstn, length_skipn. simpl length. lia. }
  rewrite match_nonempty.
  - cbn [fst snd]. rewrite Hlen. now rewrite <- !app_assoc.
  - intros E. apply (f_equal (@length ascii)) in E.
    rewrite !length_app in E. simpl in E. lia.
Qed.

(** X7. After a commit the detection finds no word on the new surface,
    so the next update of the menu leaves it closed: the caret stands
    right after the inserted space. This holds for the splice at a
    recorded range and for the replacement of the whole text. *)
Theorem commit_ends_detection (skills : option (list Skill))
        (element : Element) (st : State) (item : SlashCommandItem) :
  (forall r, slashRange st = Some r ->
             (0 <= range_start r <= range_end r)%Z) ->
  let r := selectItem (Some element) st item in
  getSlashText (fst r) = None /\
  updateSlashMenu skills (fst r) (snd r) = mkState false [] 0 None.
Proof.
  intros Hr r.
  assert (Hnone : getSlashText (fst r) = None).
  { subst r. destruct (slashRange st) as [rg|] eqn:Erg.
    - rewrite (selectItem_range element st rg item Erg (Hr rg eq_refl)).
      cbn [fst].
      apply (getSlashText_after_space _
               (firstn (Z.to_nat (range_start rg)) (currentText element) ++
                command item)
               (skipn (Z.to_nat (range_end rg)) (currentText element)));
        cbn [innerText caret js]; now rewrite <- !app_assoc.
    - unfold selectItem. rewrite Erg. cbn [fst snd].
      apply (getSlashText_after_space _ (command item) []);
        reflexivity. }
  split; [exact Hnone|].
  unfold updateSlashMenu. rewrite Hnone. reflexivity.
Qed.

(** X8. Detection followed by a commit. Let the text be pre ++ "/" ++ w
    ++ after ++ rest with the caret after w, where the slash starts a
    word, w and after hold no white space and rest is empty or starts
    with white space. With candidates present, the update of the menu
    opens it with filter text w, and a commit then replaces the whole
    word "/" ++ w ++ after, also its part after the caret, with the
    command and one space; pre and rest are kept. *)
Theorem detect_then_commit (skills : option (list Skill))
        (element : Element) (st : State) (item : SlashCommandItem)
        (n : nat) (pre w after rest : str) :
  caret element = Some n ->
  currentText element = pre ++ "/"%char :: w ++ after ++ rest ->
  n = length (pre ++ "/"%char :: w) ->
  WordStart pre ->
  Forall (fun c => nonSpace c = true) (w ++ after) ->
  WordEnd rest ->
  slashItems skills <> [] ->
  let st1 := updateSlashMenu skills (Some element) st in
  isMenuOpen st1 = true /\ filterText st1 = w /\
  selectItem (Some element) st1 item =
  (Some (mkElement (pre ++ command item ++ js " " ++ rest)
                   (Some (length (pre ++ command item ++ js " ")))
                   true (S (inputEvents element))),
   mkState false [] 0 None).
Proof.
  intros Hc Ht Hn Hpre Hw Hrest Hitems st1.
  assert (Ht1 : currentText element =
                (pre ++ "/"%char :: w) ++ after ++ rest)
    by (rewrite Ht, <- app_assoc; reflexivity).
  assert (Hword : getSlashText (Some element) =
                  Some (mkSlashText w (len pre) (Z.of_nat n + len after))).
  { apply (getSlashText_found element n pre w after rest); auto;
      rewrite Ht1, Hn.
    - apply firstn_length_app.
    - apply skipn_length_app. }
  assert (Hst1 : st1 = mkState true w (selectedIndex st)
                         (Some (mkRange (len pre)
                                        (Z.of_nat n + len after)))).
  { subst st1. unfold updateSlashMenu. rewrite Hword.
    destruct (slashItems skills); [contradiction|reflexivity]. }
  rewrite Hst1. cbn [isMenuOpen filterText]. repeat split.
  rewrite (selectItem_range element
             (mkState true w (selectedIndex st)
                      (Some (mkRange (len pre) (Z.of_nat n + len after))))
             (mkRange (len pre) (Z.of_nat n + len after)) item eq_refl);
    cbn [range_start range_end];
    [|unfold len; rewrite Hn, length_app; lia].
  assert (Hb : firstn (Z.to_nat (len pre)) (currentText element) = pre).
  { unfold len. rewrite Nat2Z.id, Ht. apply firstn_length_app. }
  assert (Ha : skipn (Z.to_nat (Z.of_nat n + len after))
                     (currentText element) = rest).
  { unfold len. rewrite <- Nat2Z.inj_add, Nat2Z.id, Ht1, Hn.
    rewrite <- length_app, app_assoc. apply skipn_length_app. }
  now rewrite Hb, Ha.
Qed.

Lemma commit_ends_detection_witness :
  getSlashText
    (fst (selectItem (Some (mkElement (js "hello /foo world") (Some 10)
                                      true 0))
                     (detected "hello /foo world" 10) foobar)) = None.
Proof.
  assert (Hr : forall r,
             slashRange (detected "hello /foo world" 10) = Some r ->
             (0 <= range_start r <= range_end r)%Z).
  { intros r H. vm_compute in H. inversion H. simpl. lia. }
  exact (proj1 (commit_ends_detection demoSkills
                  (mkElement (js "hello /foo world") (Some 10) true 0)
                  (detected "hello /foo world" 10) foobar Hr)).
Defined.

Lemma detect_then_commit_witness :
  selectItem (Some (mkElement (js "hello /foo world") (Some 9) true 0))
             (updateSlashMenu demoSkills
                (Some (mkElement (js "hello /foo world") (Some 9) true 0))
                initialState)
             foobar =
  (Some (mkElement (js "hello " ++ command foobar ++ js " " ++ js " world")
                   (Some (length (js "hello " ++ command foobar ++ js " ")))
                   true 1),
   mkState false [] 0 None).
Proof.
  assert (H1 : currentText (mkElement (js "hello /foo world") (Some 9)
                                      true 0) =
               js "hello " ++ "/"%char :: js "fo" ++ js "o" ++ js " world")
    by (vm_compute; reflexivity).
  assert (H2 : WordStart (js "hello ")).
  { right. exists (js "hello"), " "%char. split; reflexivity. }
  assert (H3 : Forall (fun c => nonSpace c = true) (js "fo" ++ js "o")).
  { vm_compute. repeat constructor. }
  assert (H4 : slashItems demoSkills <> []) by (vm_compute; discriminate).
  exact (proj2 (proj2 (detect_then_commit demoSkills
                         (mkElement (js "hello /foo world") (Some 9) true 0)
                         initialState foobar 9 (js "hello ") (js "fo")
                         (js "o") (js " world")
                         eq_refl H1 eq_refl H2 H3 eq_refl H4))).
Defined.

End Commit.

(** ** The hook: the recorded range along a run *)

Section RangeRuns.

Import Hook Spec.

Variable skills : option (list Skill).

Lemma step_keeps_range (chatInput : option Element) (st : State)
      (a : Action) :
  (forall r, slashRange st = Some r ->
             (0 <= range_start r <= range_end r)%Z) /\
  (isMenuOpen st = true -> slashRange st <> None) ->
  let st' := snd (step skills chatInput st a) in
  (forall r, slashRange st' = Some r ->
             (0 <= range_start r <= range_end r)%Z) /\
  (isMenuOpen st' = true -> slashRange st' <> None).
Proof.
  intros Hinv st'. subst st'. unfold step. cbn [snd].
  set (st1 := snd (perform skills chatInput st a)).
  assert (H1 : (forall r, slashRange st1 = Some r ->
                          (0 <= range_start r <= range_end r)%Z) /\
               (isMenuOpen st1 = true -> slashRange st1 <> None)).
  { subst st1. destruct a as [|item|key|]; cbn [perform snd].
    - split.
      + apply updateSlashMenu_range.
      + unfold updateSlashMenu.
        destruct (getSlashText chatInput); [|discriminate].
        destruct (0 <? length (slashItems skills))%nat; discriminate.
    - destruct chatInput; [split; discriminate|exact Hinv].
    - destruct (handle_cases skills chatInput st key)
        as [H|[(H & _)|(Ho & Hi &
             [[_ H]|[[_ H]|[[_ (item & _ & H)]|[_ H]]]])]];
        rewrite H; cbn [key_state closeMenu isMenuOpen slashRange];
        try exact Hinv;
        try (split; [apply Hinv|discriminate]).
      destruct chatInput; [split; discriminate|exact Hinv].
    - cbn [closeMenu isMenuOpen slashRange].
      split; [apply Hinv|discriminate]. }
  unfold resetIndexEffect.
  destruct (streq (filterText st) (filterText st1)); exact H1.
Qed.

End RangeRuns.

Section RangeInvariant.

Import Hook Spec.

(** X9. Along every run of the hook from its initial state, whatever
    the skill list and the surface are at each action, a recorded range
    has 0 <= start <= end, and while the menu is open a range is
    recorded.  So a commit made while the menu is open always splices
    the command at the recorded range and keeps the text around it: it
    never replaces the whole text. *)
Theorem reachable_commit_splices (st : State) :
  Reachable st ->
  (forall r, slashRange st = Some r ->
             (0 <= range_start r <= range_end r)%Z) /\
  (isMenuOpen st = true ->
   exists r,
     slashRange st = Some r /\
     forall (element : Element) (item : SlashCommandItem),
       option_map innerText (fst (selectItem (Some element) st item)) =
       Some (firstn (Z.to_nat (range_start r)) (currentText element) ++
             command item ++ js " " ++
             skipn (Z.to_nat (range_end r)) (currentText element))).
Proof.
  intros Hreach.
  assert (Hinv : (forall r, slashRange st = Some r ->
                            (0 <= range_start r <= range_end r)%Z) /\
                 (isMenuOpen st = true -> slashRange st <> None)).
  { induction Hreach as [|skills st chatInput a _ IH].
    - split; discriminate.
    - apply step_keeps_range, IH. }
  destruct Hinv as [Hb Ho]. split; [exact Hb|].
  intros Hopen. specialize (Ho Hopen).
  destruct (slashRange st) as [r|] eqn:Er; [|contradiction].
  exists r. split; [reflexivity|]. intros element item.
  now rewrite (selectItem_range element st r item Er (Hb r eq_refl)).
Qed.

End RangeInvariant.


Section RangeRunsWitness.

Import Hook Spec.

Lemma reachable_commit_splices_witness :
  exists r,
    slashRange (snd (step demoSkills (demoInput "/ra" 3) initialState
                          UpdateSlashMenu)) = Some r /\
    forall (element : Element) (item : SlashCommandItem),
      option_map innerText
        (fst (selectItem (Some element)
                (snd (step demoSkills (demoInput "/ra" 3) initialState
                           UpdateSlashMenu)) item)) =
      Some (firstn (Z.to_nat (range_start r)) (currentText element) ++
            command item ++ js " " ++
            skipn (Z.to_nat (range_end r)) (currentText element)).
Proof.
  assert (H : isMenuOpen
                (snd (step demoSkills (demoInput "/ra" 3) initialState
                           UpdateSlashMenu)) = true)
    by (vm_compute; reflexivity).
  exact (proj2 (reachable_commit_splices _
                  (Reachable_step demoSkills initialState
                     (demoInput "/ra" 3) UpdateSlashMenu
                     Reachable_init)) H).
Defined.

End RangeRunsWitness.

(** ** Replacement only deletes *)

Section SubseqFacts.

Lemma Subseq_nil_l (b : str) : Subseq [] b.
Proof. induction b; constructor; assumption. Qed.

Lemma Subseq_refl (a : str) : Subseq a a.
Proof. induction a; constructor; assumption. Qed.

Lemma Subseq_nil_r (a : str) : Subseq a [] -> a = [].
Proof. intros H. now inversion H. Qed.

Lemma Subseq_app (a b c d : str) :
  Subseq a b -> Subseq c d -> Subseq (a ++ c) (b ++ d).
Proof.
  intros Hab Hcd. induction Hab; cbn [app]; try constructor; assumption.
Qed.

Lemma Subseq_trans (a b c : str) : Subseq a b -> Subseq b c -> Subseq a c.
Proof.
  intros Hab Hbc. revert a Hab.
  induction Hbc as [|x b c _ IH|x b c _ IH]; intros a Hab.
  - exact Hab.
  - inversion Hab; subst.
    + constructor. now apply IH.
    + apply Subseq_drop. now apply IH.
  - apply Subseq_drop. now apply IH.
Qed.

Lemma Subseq_middle (x v y : str) : Subseq v (x ++ v ++ y).
Proof.
  rewrite <- (app_nil_l v) at 1. rewrite <- (app_nil_r v) at 1.
  apply Subseq_app; [apply Subseq_nil_l|].
  apply Subseq_app; [apply Subseq_refl|apply Subseq_nil_l].
Qed.

Lemma Subseq_firstn (n : nat) (s : str) : Subseq (firstn n s) s.
Proof.
  rewrite <- (firstn_skipn n s) at 2.
  rewrite <- (app_nil_l (firstn n s)) at 1.
  apply (Subseq_middle [] (firstn n s) (skipn n s)).
Qed.

Lemma Subseq_skipn (n : nat) (s : str) : Subseq (skipn n s) s.
Proof.
  rewrite <- (firstn_skipn n s) at 2.
  rewrite <- (app_nil_r (skipn n s)) at 2.
  apply Subseq_middle.
Qed.

Lemma Subseq_rev (a b : str) : Subseq a b -> Subseq (rev a) (rev b).
Proof.
  induction 1 as [|c a b _ IH|c a b _ IH]; cbn [rev].
  - constructor.
  - apply Subseq_app; [exact IH|apply Subseq_refl].
  - rewrite <- (app_nil_r (rev a)).
    apply Subseq_app; [exact IH|apply Subseq_nil_l].
Qed.

Lemma Subseq_dropWhile (p : ascii -> bool) (s : str) :
  Subseq (dropWhile p s) s.
Proof.
  induction s as [|c s IH]; cbn [dropWhile]; [constructor|].
  destruct (p c); [now apply Subseq_drop|apply Subseq_refl].
Qed.

Lemma Subseq_trim (s : str) : Subseq (trim s) s.
Proof.
  unfold trim, trimEnd, trimStart.
  apply (Subseq_trans _ (dropWhile isWhiteSpace s));
    [|apply Subseq_dropWhile].
  rewrite <- (rev_involutive (dropWhile isWhiteSpace s)) at 2.
  apply Subseq_rev, Subseq_dropWhile.
Qed.

Lemma Subseq_slice (s : str) (b e : Z) : Subseq (slice s b e) s.
Proof.
  unfold slice.
  eapply Subseq_trans; [apply Subseq_firstn|apply Subseq_skipn].
Qed.

Lemma Subseq_Forall (P : ascii -> Prop) (a b : str) :
  Subseq a b -> Forall P b -> Forall P a.
Proof.
  induction 1 as [|c a b _ IH|c a b _ IH]; intros H;
    [constructor| |]; inversion H; subst; auto.
Qed.

Lemma Subseq_length (a b : str) : Subseq a b -> length a <= length b.
Proof. induction 1; simpl; lia. Qed.

End SubseqFacts.

(** The captures of a match lie inside the matched text. *)
Section WithinFacts.

Variable multiline : bool.
Variable s0 : str.

Lemma Within_advance (prev prev' : option ascii) (c : ascii) (t : str)
      (caps : list (nat * str)) :
  Within s0 (MState prev (c :: t) caps) -> Within s0 (MState prev' t caps).
Proof.
  intros [[x Hx] Hc]. cbn [m_rest m_caps] in *. split; cbn [m_rest m_caps].
  - exists (x ++ [c]). rewrite <- app_assoc. exact Hx.
  - eapply Forall_impl; [|exact Hc].
    intros [n v] (a & b & E). cbn [snd] in *. exists a, (b ++ [c]).
    rewrite E. now rewrite <- !app_assoc.
Qed.

Lemma star_within (greedy : bool) (p : ascii -> bool) (Q : mstate -> Prop)
      (s : str) :
  forall (prev : option ascii) (caps : list (nat * str))
         (k : mstate -> option mstate) (res : mstate),
    Within s0 (MState prev s caps) ->
    (forall st', Within s0 st' -> (exists m, s = m ++ m_rest st') ->
                 forall res, k st' = Some res -> Q res) ->
    star greedy p prev s caps k = Some res -> Q res.
Proof.
  induction s as [|c t IH]; intros prev caps k res Hw Hk H.
  - simpl in H. apply (Hk _ Hw); [now exists []|exact H].
  - simpl in H.
    assert (Hhere : forall res, k (MState prev (c :: t) caps) = Some res ->
                                Q res).
    { intros res0. apply (Hk _ Hw). now exists []. }
    assert (Hnext : forall res, star greedy p (Some c) t caps k = Some res ->
                                Q res).
    { intros res0. apply IH.
      - apply (Within_advance prev (Some c) c t caps Hw).
      - intros st' Hw' [m Hm]. apply (Hk st' Hw'). exists (c :: m).
        now rewrite Hm. }
    destruct (p c); [|auto].
    destruct greedy; unfold orElse in H.
    + destruct (star true p (Some c) t caps k) eqn:E.
      * inversion H; subst. auto.
      * auto.
    + destruct (k (MState prev (c :: t) caps)) eqn:E.
      * inversion H; subst. auto.
      * auto.
Qed.

Lemma rmatch_within (r : regex) :
  forall (Q : mstate -> Prop) (st : mstate)
         (k : mstate -> option mstate) (res : mstate),
    Within s0 st ->
    (forall st', Within s0 st' ->
                 (exists m, m_rest st = m ++ m_rest st') ->
                 forall res, k st' = Some res -> Q res) ->
    rmatch multiline r st k = Some res -> Q res.
Proof.
  induction r as [|p|r1 IH1 r2 IH2|r1 IH1 r2 IH2|greedy p|n r IH| |];
    intros Q st k res Hst Hk H; simpl in H.
  - apply (Hk st Hst); [now exists []|exact H].
  - destruct st as [prev rest caps]. cbn [m_rest m_caps] in *.
    destruct rest as [|c t]; [discriminate|].
    destruct (p c); [|discriminate].
    apply (Hk (MState (Some c) t caps)); [| |exact H].
    + apply (Within_advance prev (Some c) c t caps Hst).
    + now exists [c].
  - refine (IH1 Q st _ res Hst _ H).
    intros st' Hst' [m Hm] res' H'.
    apply (IH2 Q st' k res' Hst'); [|exact H'].
    intros st'' Hst'' [m' Hm']. apply (Hk st'' Hst'').
    exists (m ++ m'). now rewrite Hm, Hm', app_assoc.
  - unfold orElse in H.
    destruct (rmatch multiline r1 st k) eqn:E.
    + inversion H; subst. apply (IH1 Q st k res Hst Hk E).
    + apply (IH2 Q st k res Hst Hk H).
  - destruct st as [prev rest caps]. cbn [m_rest m_caps m_prev] in *.
    apply (star_within _ _ Q _ _ _ _ _ Hst Hk H).
  - refine (IH Q st _ res Hst _ H).
    intros st' [[x Hx] Hc'] [m Hm] res'. apply Hk.
    + split; cbn [m_rest m_caps]; [now exists x|].
      constructor; [|exact Hc']. cbn [snd].
      rewrite Hm, firstn_prefix_len.
      destruct Hst as [[x0 Hx0] _]. exists x0, [].
      now rewrite Hx0, Hm.
    + now exists m.
  - destruct (atBol multiline st); [|discriminate].
    apply (Hk st Hst); [now exists []|exact H].
  - destruct (atEol multiline st); [|discriminate].
    apply (Hk st Hst); [now exists []|exact H].
Qed.

Lemma matchHere_within (r : regex) (prev : option ascii) (st' : mstate) :
  matchHere multiline r prev s0 = Some st' ->
  exists m,
    s0 = m ++ m_rest st' /\
    capsAll (fun v => exists x y, m = x ++ v ++ y) (m_caps st').
Proof.
  intros H. unfold matchHere in H.
  apply (rmatch_within r
           (fun res => exists m,
                s0 = m ++ m_rest res /\
                capsAll (fun v => exists x y, m = x ++ v ++ y) (m_caps res))
           (MState prev s0 []) Some st'); [| |exact H].
  - split; cbn [m_rest m_caps]; [now exists []|constructor].
  - intros st1 [_ Hc] [m Hm] res E. inversion E; subst res; clear E.
    cbn [m_rest] in Hm. exists m. split; [exact Hm|].
    eapply Forall_impl; [|exact Hc].
    intros [n v] (x & y & E). cbn [snd] in *. exists x, y.
    apply (app_inv_tail (m_rest st1)).
    rewrite <- !app_assoc. rewrite <- E. symmetry. exact Hm.
Qed.

End WithinFacts.

Section Deletion.

Variable multiline : bool.

Lemma dollar1_subseq (m : str) (caps : list (nat * str)) :
  capsAll (fun v => exists x y, m = x ++ v ++ y) caps ->
  Subseq (dollar1 caps) m.
Proof.
  intros H. unfold dollar1.
  destruct (capture 1 caps) as [v|] eqn:E; [|apply Subseq_nil_l].
  destruct (capture_ok _ 1 caps v H E) as (x & y & ->).
  apply Subseq_middle.
Qed.

Lemma replaceFrom_subseq (r : regex) (s : str) :
  forall (prev : option ascii) (skip : nat),
    Subseq (replaceFrom multiline r dollar1 prev s skip) (skipn skip s).
Proof.
  induction s as [|c t IH]; intros prev skip.
  - cbn [replaceFrom]. destruct skip; [|constructor].
    destruct (matchHere multiline r prev []) as [st'|] eqn:E;
      [|constructor].
    destruct (matchHere_within _ _ _ _ _ E) as (m & Hm & Hc).
    symmetry in Hm. apply app_eq_nil in Hm as [-> _].
    apply (dollar1_subseq [] _ Hc).
  - cbn [replaceFrom]. destruct skip as [|n]; [|apply IH].
    cbn [skipn].
    destruct (matchHere multiline r prev (c :: t)) as [st'|] eqn:E;
      [|constructor; apply (IH (Some c) 0)].
    destruct (matchHere_within _ _ _ _ _ E) as (m & Hm & Hc).
    assert (Hd := dollar1_subseq m _ Hc).
    assert (Hlen : length (c :: t) - length (m_rest st') = length m).
    { rewrite Hm at 1. rewrite length_app. lia. }
    rewrite Hlen.
    destruct m as [|c' m'].
    + apply Subseq_nil_r in Hd. rewrite Hd. cbn [app length].
      constructor. apply (IH (Some c) 0).
    + cbn [app] in Hm. injection Hm as <- Ht. cbn [length].
      assert (H := IH (Some c) (length m')).
      rewrite Ht in H at 2. rewrite skipn_length_app in H.
      replace (c :: t) with ((c :: m') ++ m_rest st')
        by (now rewrite Ht).
      apply Subseq_app; [exact Hd|exact H].
Qed.

Lemma replaceAll_subseq (r : regex) (s : str) :
  Subseq (replaceAll multiline r dollar1 s) s.
Proof. apply (replaceFrom_subseq r s None 0). Qed.

End Deletion.

Lemma stripMarkdown_subseq (text : str) :
  Subseq (Menu.stripMarkdown text) text.
Proof.
  unfold Menu.stripMarkdown.
  repeat (eapply Subseq_trans; [apply replaceAll_subseq|]).
  apply Subseq_refl.
Qed.

(** X11. [stripMarkdown] only deletes characters: its result is the text
    with some characters left out, the others in their order. So the
    result is never longer than the text. *)
Theorem stripMarkdown_deletes (text : str) :
  Subseq (Menu.stripMarkdown text) text /\
  length (Menu.stripMarkdown text) <= length text.
Proof.
  split; [|apply Subseq_length]; apply stripMarkdown_subseq.
Qed.

(** ** The description: what it is made of *)

Section DescriptionFacts.

Import Menu Spec.

(** What a quantifier took, whichever way it tries. *)
Lemma star_sound (greedy : bool) (p : ascii -> bool) (s : str) :
  forall (prev : option ascii) (caps : list (nat * str))
         (k : mstate -> option mstate) (res : mstate),
    star greedy p prev s caps k = Some res ->
    exists a b,
      s = a ++ b /\ Forall (fun c => p c = true) a /\
      k (MState (prevAfter prev a) b caps) = Some res.
Proof.
  induction s as [|c t IH]; intros prev caps k res H.
  - simpl in H. exists [], []. repeat split; [constructor|exact H].
  - simpl in H.
    assert (Hhere : k (MState prev (c :: t) caps) = Some res ->
                    exists a b,
                      c :: t = a ++ b /\ Forall (fun c => p c = true) a /\
                      k (MState (prevAfter prev a) b caps) = Some res).
    { intros E. exists [], (c :: t). repeat split; [constructor|exact E]. }
    destruct (p c) eqn:Ec; [|auto].
    assert (Hnext : star greedy p (Some c) t caps k = Some res ->
                    exists a b,
                      c :: t = a ++ b /\ Forall (fun c => p c = true) a /\
                      k (MState (prevAfter prev a) b caps) = Some res).
    { intros E. destruct (IH _ _ _ _ E) as (a & b & -> & Ha & Hk).
      exists (c :: a), b. repeat split; [constructor; assumption|exact Hk]. }
    destruct greedy; unfold orElse in H.
    + destruct (star true p (Some c) t caps k) eqn:E.
      * inversion H; subst. auto.
      * auto.
    + destruct (k (MState prev (c :: t) caps)) eqn:E.
      * inversion H; subst. auto.
      * auto.
Qed.

Lemma exec_subseq (multiline : bool) (r : regex) (s : str) (res : result) :
  exec multiline r s = Some res ->
  Subseq (r_match res) s /\ capsAll (fun v => Subseq v s) (r_caps res).
Proof.
  intros H. unfold exec in H.
  assert (Htail : forall c t, Subseq (c :: t) s -> Subseq t s).
  { intros c t Ht. apply (Subseq_trans _ (c :: t)); [|exact Ht].
    apply Subseq_drop, Subseq_refl. }
  assert (Hfirst : forall t n, Subseq t s -> Subseq (firstn n t) s).
  { intros t n Ht. apply (Subseq_trans _ t); [|exact Ht].
    apply Subseq_firstn. }
  destruct (execFrom_ok multiline (fun t => Subseq t s)
              (fun v => Subseq v s) Htail Hfirst r s None 0 res
              (Subseq_refl s) H) as [Hc Hm].
  split; assumption.
Qed.

Lemma group_subseq (n : nat) (res : result) (s : str) :
  capsAll (fun v => Subseq v s) (r_caps res) -> Subseq (group n res) s.
Proof.
  intros H. unfold group.
  destruct (capture n (r_caps res)) as [v|] eqn:E; [|apply Subseq_nil_l].
  apply (capture_ok _ n _ v H E).
Qed.

Lemma splitOn_subseq (sep : ascii) (s : str) :
  Forall (fun l => Subseq l s) (splitOn sep s).
Proof.
  induction s as [|c t IH]; cbn [splitOn].
  - repeat constructor.
  - assert (Hup : forall ls, Forall (fun l => Subseq l t) ls ->
                             Forall (fun l => Subseq l (c :: t)) ls).
    { intros ls. apply Forall_impl. intros l. apply Subseq_drop. }
    destruct (Ascii.eqb c sep).
    + constructor; [apply Subseq_nil_l|apply Hup, IH].
    + destruct (splitOn sep t) as [|l ls].
      * constructor; [|constructor].
        constructor. apply Subseq_nil_l.
      * inversion IH; subst. constructor; [now constructor|now apply Hup].
Qed.

Lemma sentenceOrAll_subseq (x : str) : Subseq (sentenceOrAll x) x.
Proof.
  unfold sentenceOrAll.
  destruct (exec false reSentence x) as [res|] eqn:E; [|apply Subseq_refl].
  destruct (r_match res) eqn:Em; [apply Subseq_refl|].
  rewrite <- Em. apply (exec_subseq _ _ _ _ E).
Qed.

Lemma unquote_subseq (x : str) : Subseq (unquote x) x.
Proof.
  unfold unquote.
  destruct (startsWith x [DQUOTE] && endsWith x [DQUOTE]
            || startsWith x [SQUOTE] && endsWith x [SQUOTE]);
    [apply Subseq_slice|apply Subseq_refl].
Qed.

(** The body scan gives part of one line of the body. *)
Lemma describeBody_line (body d : str) :
  describeBody body = Some d ->
  exists line, In line (splitOn NL body) /\ Subseq d line.
Proof.
  unfold describeBody.
  destruct (find isMeaningful (map trim (splitOn NL body)))
    as [m|] eqn:E; [|discriminate].
  apply find_some in E as [Hin _].
  apply in_map_iff in Hin as (line & <- & Hline).
  intros H. exists line. split; [exact Hline|].
  assert (Hd : d = sentenceOrAll (stripMarkdown (trim line)))
    by (destruct (trim line); [discriminate|now inversion H]).
  rewrite Hd.
  apply (Subseq_trans _ (stripMarkdown (trim line)));
    [apply sentenceOrAll_subseq|].
  apply (Subseq_trans _ (trim line));
    [apply stripMarkdown_subseq|apply Subseq_trim].
Qed.

(** The value [reDescription] captures holds no line break. *)
Lemma description_capture (s : str) (res : result) :
  exec true reDescription s = Some res ->
  Forall (fun c => isLineTerminator c = false) (group 1 res).
Proof.
  intros H. unfold exec in H.
  destruct (execFrom_found _ _ _ _ _ _ H)
    as (a & b & st' & _ & Hm & Hc & _ & _).
  unfold group. rewrite Hc. clear H Hc.
  unfold matchHere, reDescription in Hm.
  rewrite rmatch_cat_cons in Hm. cbn [rmatch] in Hm.
  destruct (atBol true _); [|discriminate].
  rewrite rmatch_cat_cons, rmatch_lit in Hm.
  destruct (prefixb _ b); [|discriminate].
  rewrite rmatch_cat_cons in Hm. cbn [rmatch m_rest m_prev m_caps] in Hm.
  apply star_sound in Hm as (a1 & b1 & _ & _ & Hm).
  rewrite rmatch_cat_cons in Hm.
  cbn [rmatch plus m_rest m_prev m_caps] in Hm.
  destruct b1 as [|c t]; [discriminate|].
  destruct (dot c) eqn:Ec; [|discriminate].
  cbn [m_rest m_prev m_caps] in Hm.
  apply star_sound in Hm as (a2 & b2 & -> & Ha2 & Hm).
  cbn [m_rest m_prev m_caps] in Hm.
  rewrite rmatch_cat_cons in Hm. cbn [rmatch] in Hm.
  destruct (atEol true _); [|discriminate].
  rewrite rmatch_cat_nil in Hm. inversion Hm; subst st'; clear Hm.
  cbn [m_caps capture Nat.eqb].
  assert (E : forall n, n = length ((c :: a2) ++ b2) - length b2 ->
                        firstn n (c :: a2 ++ b2) = c :: a2)
    by (intros n ->; apply (firstn_prefix_len (c :: a2) b2)).
  rewrite E by reflexivity. clear E.
  assert (Hdot : forall x, dot x = true -> isLineTerminator x = false).
  { intros x. unfold dot. now destruct (isLineTerminator x). }
  constructor; [now apply Hdot|].
  eapply Forall_impl; [|exact Ha2]. exact Hdot.
Qed.

Lemma getSkillDescription_part (content d : str) :
  getSkillDescription content = Some d ->
  Subseq d content /\ Forall (fun c => c <> NL) d.
Proof.
  assert (Hbody : forall body, Subseq body content ->
                    describeBody body = Some d ->
                    Subseq d content /\ Forall (fun c => c <> NL) d).
  { intros body Hb H.
    destruct (describeBody_line body d H) as (line & Hin & Hd). split.
    - apply (Subseq_trans _ line); [exact Hd|].
      apply (Subseq_trans _ body); [|exact Hb].
      assert (Hs := splitOn_subseq NL body).
      rewrite Forall_forall in Hs. now apply Hs.
    - apply (Subseq_Forall _ d line Hd).
      assert (Hs := splitOn_no_sep NL body).
      rewrite Forall_forall in Hs. now apply Hs. }
  unfold getSkillDescription.
  destruct (exec false reFrontmatter content) as [fm|] eqn:Efm;
    [|apply Hbody, Subseq_refl].
  destruct (exec true reDescription (group 1 fm)) as [dm|] eqn:Edm;
    [|apply Hbody; unfold sliceFrom; apply Subseq_slice].
  intros H. inversion H; subst d; clear H.
  assert (Hv : Subseq (stripMarkdown (unquote (trim (group 1 dm))))
                      (group 1 dm)).
  { apply (Subseq_trans _ (unquote (trim (group 1 dm))));
      [apply stripMarkdown_subseq|].
    apply (Subseq_trans _ (trim (group 1 dm)));
      [apply unquote_subseq|apply Subseq_trim]. }
  split.
  - apply (Subseq_trans _ (group 1 dm)); [exact Hv|].
    apply (Subseq_trans _ (group 1 fm)).
    + apply group_subseq, (exec_subseq _ _ _ _ Edm).
    + apply group_subseq, (exec_subseq _ _ _ _ Efm).
  - apply (Subseq_Forall _ _ _ Hv).
    eapply Forall_impl; [|exact (description_capture _ _ Edm)].
    intros c Hc ->. discriminate.
Qed.

(** X12. The description is made of characters of the content, in their
    order: the function only deletes. It holds no line feed. *)
Theorem getSkillDescription_deletes (content d : str) :
  getSkillDescription content = Some d ->
  Subseq d content /\ Forall (fun c => c <> NL) d.
Proof. apply getSkillDescription_part. Qed.

Lemma getSkillDescription_deletes_witness :
  Subseq (js "This is a description.")
         (js "# Title\n\nThis is a description.") /\
  Forall (fun c => c <> NL) (js "This is a description.").
Proof.
  assert (H : getSkillDescription (js "# Title\n\nThis is a description.") =
              Some (js "This is a description."))
    by (vm_compute; reflexivity).
  exact (getSkillDescription_deletes _ _ H).
Defined.




End DescriptionFacts.

(** ** The menu component *)

Section MenuFacts.

Import Menu Hook Spec MenuView.

Lemma rowsFrom_commands (items : list SlashCommandItem) (i : Z) :
  forall k, map row_command (rowsFrom k items i) = map command items.
Proof.
  induction items as [|item rest IH]; intros k; cbn [rowsFrom map];
    [reflexivity|].
  now rewrite IH.
Qed.

(** The rows marked selected, for the rows of [items] numbered from
    [k] on. *)
Lemma rowsFrom_filter (items : list SlashCommandItem) (i : Z) :
  forall k,
    filter row_selected (rowsFrom k items i) =
    match (if (Z.of_nat k <=? i)%Z
           then nth_error items (Z.to_nat i - k) else None) with
    | Some item => [menuItem item true]
    | None => []
    end.
Proof.
  induction items as [|item rest IH]; intros k; cbn [rowsFrom filter].
  - destruct (Z.of_nat k <=? i)%Z; [|reflexivity].
    now destruct (Z.to_nat i - k).
  - cbn [menuItem row_selected]. rewrite IH.
    destruct (Z.eqb_spec (Z.of_nat k) i) as [E|E].
    + subst i. rewrite Z.leb_refl.
      replace (Z.to_nat (Z.of_nat k) - k) with 0 by lia.
      cbn [nth_error].
      destruct (Z.leb_spec (Z.of_nat (S k)) (Z.of_nat k)); [lia|].
      reflexivity.
    + destruct (Z.leb_spec (Z.of_nat k) i).
      * destruct (Z.leb_spec (Z.of_nat (S k)) i); [|lia].
        replace (Z.to_nat i - k) with (S (Z.to_nat i - S k)) by lia.
        reflexivity.
      * destruct (Z.leb_spec (Z.of_nat (S k)) i); [lia|reflexivity].
Qed.

Lemma menu_selected (items : list SlashCommandItem) (i : Z) :
  filter row_selected (rowsFrom 0 items i) =
  match item_at items i with
  | Some item => [menuItem item true]
  | None => []
  end.
Proof.
  rewrite rowsFrom_filter. unfold item_at. rewrite Nat.sub_0_r.
  change (Z.of_nat 0) with 0%Z.
  destruct (Z.leb_spec 0 i), (Z.ltb_spec i 0); try lia; reflexivity.
Qed.

(** X15. The chat input shows the menu only when it is told the menu is
    open, was given a callback for the selection and a list that is not
    empty. The menu then has one row per candidate, in order and with
    the candidate's command, and the rows marked selected are: the row
    of the candidate at the given index, when that index is one of the
    list's, and no row otherwise. *)
Theorem container_menu_rows (isSlashMenuOpen : option bool)
        (slashItems : option (list SlashCommandItem))
        (slashSelectedIndex : option Z) (onSlashSelect : bool)
        (rows : list Row) :
  containerMenu isSlashMenuOpen slashItems slashSelectedIndex onSlashSelect
  = Some rows ->
  isSlashMenuOpen = Some true /\ onSlashSelect = true /\
  exists items,
    slashItems = Some items /\ items <> [] /\
    map row_command rows = map command items /\
    filter row_selected rows =
    match item_at items (match slashSelectedIndex with
                         | Some i => i
                         | None => 0%Z
                         end) with
    | Some item => [menuItem item true]
    | None => []
    end.
Proof.
  unfold containerMenu.
  destruct isSlashMenuOpen as [[|]|]; cbn [andb]; try discriminate.
  destruct onSlashSelect; try discriminate.
  destruct slashItems as [[|item items]|]; unfold slashCommandMenu;
    try discriminate.
  intros H. injection H as <-.
  split; [reflexivity|]. split; [reflexivity|].
  exists (item :: items).
  split; [reflexivity|]. split; [discriminate|]. split.
  - apply (rowsFrom_commands (item :: items) _ 0).
  - apply (menu_selected (item :: items)).
Qed.

Lemma container_menu_rows_witness :
  Some true = Some true /\ true = true /\
  exists items,
    Some [foobar] = Some items /\ items <> [] /\
    map row_command [menuItem foobar true] = map command items /\
    filter row_selected [menuItem foobar true] =
    match item_at items 0 with
    | Some item => [menuItem item true]
    | None => []
    end.
Proof.
  exact (container_menu_rows (Some true) (Some [foobar]) None true
           [menuItem foobar true] eq_refl).
Defined.

(** X16. A row shows a description only for a skill that has content
    from which [getSkillDescription] gets a description that is not
    empty; what is shown is that description: it holds no line feed
    and is made of characters of the content in their order. *)
Theorem menu_row_description (item : SlashCommandItem) (isSelected : bool)
        (d : str) :
  row_description (menuItem item isSelected) = Some d ->
  d <> [] /\
  exists c,
    content (skill item) = Some c /\ c <> [] /\
    getSkillDescription c = Some d /\
    Subseq d c /\ Forall (fun x => x <> NL) d.
Proof.
  cbn [menuItem row_description]. unfold rendered, description.
  destruct (content (skill item)) as [[|c0 c]|]; try discriminate.
  destruct (getSkillDescription (c0 :: c)) as [[|d0 d']|] eqn:E;
    try discriminate.
  intros H. inversion H; subst d; clear H.
  split; [discriminate|]. exists (c0 :: c).
  split; [reflexivity|]. split; [discriminate|]. split; [exact E|].
  apply (getSkillDescription_part _ _ E).
Qed.

Lemma menu_row_description_witness :
  js "A tool." <> [] /\
  exists c,
    Some (js "# T\nA tool. More.") = Some c /\ c <> [] /\
    getSkillDescription c = Some (js "A tool.") /\
    Subseq (js "A tool.") c /\ Forall (fun x => x <> NL) (js "A tool.").
Proof.
  assert (H : row_description
                (menuItem
                   (mkItem (mkSkill (js "t") (js "agentskills")
                                    (Some (js "# T\nA tool. More.")) None)
                           (js "/t")) false) = Some (js "A tool."))
    by (vm_compute; reflexivity).
  exact (menu_row_description _ _ _ H).
Defined.

End MenuFacts.

Section MenuRuns.

Import Menu Hook Spec MenuView.

(** X17. Along every run of the hook from its initial state in which
    the skill list stays the same, or changes only while the highlighted
    index is 0, the menu drawn from the hook's list and index, when that
    list is not empty, has exactly one row marked selected: the row of
    the candidate that Enter and Tab commit. *)
Theorem reachable_menu_one_selected (skills : option (list Skill))
        (st : State) :
  SteadyRun skills st ->
  Spec.shown skills st <> [] ->
  exists rows item,
    slashCommandMenu (Spec.shown skills st) (selectedIndex st) = Some rows /\
    item_at (Spec.shown skills st) (selectedIndex st) = Some item /\
    filter row_selected rows = [menuItem item true].
Proof.
  intros Hreach Hne.
  assert (Hb : InBounds (selectedIndex st) (Spec.shown skills st)).
  { destruct (steady_index skills st Hreach) as [H0|H]; [|exact H].
    rewrite H0. unfold InBounds. destruct (Spec.shown skills st);
      [contradiction|]. simpl length. lia. }
  unfold InBounds in Hb.
  destruct (item_at (Spec.shown skills st) (selectedIndex st))
    as [item|] eqn:Eitem.
  - exists (rowsFrom 0 (Spec.shown skills st) (selectedIndex st)), item.
    repeat split.
    + unfold slashCommandMenu.
      destruct (Spec.shown skills st); [contradiction|reflexivity].
    + rewrite menu_selected, Eitem. reflexivity.
  - unfold item_at in Eitem.
    destruct (Z.ltb_spec (selectedIndex st) 0); [lia|].
    apply nth_error_None in Eitem. lia.
Qed.

(** X18. The highlighted index is not reset when the skill list
    changes.  When it lies at or past the end of the list now shown, as
    after the list shrank, then while the menu is open over candidates
    Enter and Tab are not consumed and change nothing, and the menu
    drawn from that list and index marks no row as selected. *)
Theorem stale_index_is_ignored (skills : option (list Skill))
        (chatInput : option Element) (st : State) (key : str) :
  isMenuOpen st = true ->
  Spec.shown skills st <> [] ->
  (Z.of_nat (length (Spec.shown skills st)) <= selectedIndex st)%Z ->
  key = js "Enter" \/ key = js "Tab" ->
  handleSlashKeyDown skills chatInput st key =
  mkKeyResult false false chatInput st /\
  exists rows,
    slashCommandMenu (Spec.shown skills st) (selectedIndex st) = Some rows /\
    length rows = length (Spec.shown skills st) /\
    filter row_selected rows = [].
Proof.
  intros Hopen Hne Hpast Hkey.
  assert (Hat : item_at (Spec.shown skills st) (selectedIndex st) = None).
  { unfold item_at. destruct (Z.ltb_spec (selectedIndex st) 0);
      [reflexivity|]. apply nth_error_None. lia. }
  split.
  - unfold handleSlashKeyDown. cbv zeta. fold (Spec.shown skills st).
    rewrite (handle_active skills st Hopen Hne).
    destruct Hkey as [-> | ->]; cbn [streq js]; rewrite Hat; reflexivity.
  - exists (rowsFrom 0 (Spec.shown skills st) (selectedIndex st)).
    repeat split.
    + unfold slashCommandMenu.
      destruct (Spec.shown skills st); [contradiction|reflexivity].
    + rewrite <- (length_map row_command), rowsFrom_commands.
      apply length_map.
    + rewrite menu_selected, Hat. reflexivity.
Qed.

End MenuRuns.

Section MenuRunsWitness.

Import Menu Hook Spec MenuView.

Lemma reachable_menu_one_selected_witness :
  exists rows item,
    slashCommandMenu
      (Spec.shown demoSkills
         (snd (step demoSkills (demoInput "/ra" 3) initialState
                    UpdateSlashMenu)))
      (selectedIndex
         (snd (step demoSkills (demoInput "/ra" 3) initialState
                    UpdateSlashMenu))) = Some rows /\
    item_at
      (Spec.shown demoSkills
         (snd (step demoSkills (demoInput "/ra" 3) initialState
                    UpdateSlashMenu)))
      (selectedIndex
         (snd (step demoSkills (demoInput "/ra" 3) initialState
                    UpdateSlashMenu))) = Some item /\
    filter row_selected rows = [menuItem item true].
Proof.
  apply (reachable_menu_one_selected demoSkills _
           (Steady_step demoSkills initialState (demoInput "/ra" 3)
              UpdateSlashMenu
              (Steady_reload None demoSkills initialState
                 (Steady_init None) eq_refl))).
  vm_compute. discriminate.
Defined.

(** The state [secondHighlighted] is reached while the list is
    [twoSkills]; once the list is [oneSkill] its index is past the
    end. *)
Lemma stale_index_is_ignored_witness :
  Reachable secondHighlighted /\
  handleSlashKeyDown oneSkill None secondHighlighted (js "Enter") =
  mkKeyResult false false None secondHighlighted /\
  exists rows,
    slashCommandMenu (Spec.shown oneSkill secondHighlighted)
                     (selectedIndex secondHighlighted) = Some rows /\
    length rows = length (Spec.shown oneSkill secondHighlighted) /\
    filter row_selected rows = [].
Proof.
  split.
  - unfold secondHighlighted. apply Reachable_step, Reachable_step.
    apply Reachable_init.
  - assert (H1 : isMenuOpen secondHighlighted = true)
      by (vm_compute; reflexivity).
    assert (H2 : Spec.shown oneSkill secondHighlighted <> [])
      by (vm_compute; discriminate).
    assert (H3 : (Z.of_nat (length (Spec.shown oneSkill secondHighlighted))
                  <= selectedIndex secondHighlighted)%Z)
      by (vm_compute; discriminate).
    exact (stale_index_is_ignored oneSkill None secondHighlighted
             (js "Enter") H1 H2 H3 (or_introl eq_refl)).
Defined.

End MenuRunsWitness.

(** ** The arrows are inverse to each other *)

Section Arrows.

Import Hook Spec.

Variable skills : option (list Skill).
Variable chatInput : option Element.

Lemma press_down (st : State) :
  isMenuOpen st = true ->
  Spec.shown skills st <> [] ->
  key_state (handleSlashKeyDown skills chatInput st (js "ArrowDown")) =
  mkState true (filterText st)
          (if (selectedIndex st <?
               Z.of_nat (length (Spec.shown skills st)) - 1)%Z
           then (selectedIndex st + 1)%Z else 0%Z)
          (slashRange st).
Proof.
  intros Hopen Hne. unfold handleSlashKeyDown. cbv zeta.
  fold (Spec.shown skills st).
  rewrite (handle_active skills st Hopen Hne), Hopen. reflexivity.
Qed.

Lemma press_up (st : State) :
  isMenuOpen st = true ->
  Spec.shown skills st <> [] ->
  key_state (handleSlashKeyDown skills chatInput st (js "ArrowUp")) =
  mkState true (filterText st)
          (if (selectedIndex st >? 0)%Z
           then (selectedIndex st - 1)%Z
           else (Z.of_nat (length (Spec.shown skills st)) - 1)%Z)
          (slashRange st).
Proof.
  intros Hopen Hne. unfold handleSlashKeyDown. cbv zeta.
  fold (Spec.shown skills st).
  rewrite (handle_active skills st Hopen Hne), Hopen. reflexivity.
Qed.

(** X10. While the menu is open over candidates and the highlighted
    index is one of the list's, ArrowDown followed by ArrowUp, and
    ArrowUp followed by ArrowDown, give back the state they started
    from, also across the two ends of the list. *)
Theorem arrows_undo_each_other (st : State) :
  isMenuOpen st = true ->
  Spec.shown skills st <> [] ->
  InBounds (selectedIndex st) (Spec.shown skills st) ->
  let press := fun key s =>
    key_state (handleSlashKeyDown skills chatInput s key) in
  press (js "ArrowUp") (press (js "ArrowDown") st) = st /\
  press (js "ArrowDown") (press (js "ArrowUp") st) = st.
Proof.
  intros Hopen Hne Hb press. subst press. cbv beta.
  rewrite (press_down st Hopen Hne), (press_up st Hopen Hne).
  rewrite press_up, press_down by (try reflexivity; exact Hne).
  unfold Spec.shown, InBounds in *.
  cbn [filterText selectedIndex slashRange].
  set (n := Z.of_nat (length (filteredItems (slashItems skills)
                                            (filterText st)))) in *.
  destruct st as [o f i r]. cbn [isMenuOpen filterText selectedIndex
                                 slashRange] in *.
  subst o. split; f_equal.
  - destruct (Z.ltb_spec i (n - 1)).
    + destruct (Z.gtb_spec (i + 1) 0); lia.
    + destruct (Z.gtb_spec 0 0); lia.
  - destruct (Z.gtb_spec i 0).
    + destruct (Z.ltb_spec (i - 1) (n - 1)); lia.
    + destruct (Z.ltb_spec (n - 1) (n - 1)); lia.
Qed.

End Arrows.

Section MoreWitnesses.

Import Menu Hook Spec.

Lemma arrows_undo_each_other_witness :
  key_state
    (handleSlashKeyDown demoSkills None
       (key_state (handleSlashKeyDown demoSkills None (demoOpen 1)
                                      (js "ArrowDown")))
       (js "ArrowUp")) = demoOpen 1.
Proof.
  assert (H1 : Spec.shown demoSkills (demoOpen 1) <> [])
    by (vm_compute; discriminate).
  assert (H2 : InBounds (selectedIndex (demoOpen 1))
                        (Spec.shown demoSkills (demoOpen 1)))
    by (vm_compute; split; [discriminate|reflexivity]).
  exact (proj1 (arrows_undo_each_other demoSkills None (demoOpen 1)
                  eq_refl H1 H2)).
Defined.

Example getSkillDescription_field_single_quoted :
  getSkillDescription
    (js "---" ++ NL :: ("d"%char :: js "escription: 'x'") ++
     NL :: js "---" ++ js "\nBody.") =
  Some (stripMarkdown (unquote (trim ("'"%char :: js "x'")))).
Proof.
  assert (Hfence : NoFence ("d"%char :: js "escription: 'x'")).
  { intros a b E Hb. destruct b as [|x b']; [contradiction|].
    assert (Hx : In x ("d"%char :: js "escription: 'x'"))
      by (rewrite E; apply in_or_app; right; left; reflexivity).
    assert (HF : Forall (fun x => Ascii.eqb NL x = false)
                        ("d"%char :: js "escription: 'x'"))
      by (vm_compute; repeat constructor).
    rewrite Forall_forall in HF. cbn [app prefixb].
    now rewrite (HF x Hx). }
  assert (Hnone : NoFieldBefore []).
  { intros a b E Hb. destruct a; [|discriminate].
    cbn [app] in E. now subst b. }
  assert (Hval : Forall (fun x => isLineTerminator x = false)
                        ("'"%char :: js "x'"))
    by (vm_compute; repeat constructor).
  assert (Hsp : Forall (fun x => isWhiteSpace x = true) (js " "))
    by (vm_compute; repeat constructor).
  exact (getSkillDescription_field "d"%char (js "escription: 'x'") []
           (js " ") [] (js "\nBody.") "'"%char (js "x'")
           eq_refl eq_refl Hfence (or_introl eq_refl) Hnone
           Hsp eq_refl Hval I).
Defined.

End MoreWitnesses.

(** ** The description field of a frontmatter *)

Section FieldValue.

Import Menu Spec.

Lemma dropWhile_all (p : ascii -> bool) (a b : str) :
  Forall (fun c => p c = true) a -> dropWhile p (a ++ b) = dropWhile p b.
Proof.
  induction 1 as [|c a Hc _ IH]; cbn [app dropWhile]; [reflexivity|].
  now rewrite Hc.
Qed.

Lemma dropWhile_head (p : ascii -> bool) (x : ascii) (t : str) :
  p x = false -> dropWhile p (x :: t) = x :: t.
Proof. intros H. cbn [dropWhile]. now rewrite H. Qed.

(** [trim] gives the text between the white space at the two ends. *)
Lemma trim_trimmed (l core : str) : Trimmed l core -> trim l = core.
Proof.
  intros (lead & trail & -> & Hlead & Htrail & Hcore).
  unfold trim, trimStart, trimEnd.
  rewrite (dropWhile_all _ lead _ Hlead).
  assert (Hrev : Forall (fun c => isWhiteSpace c = true) (rev trail))
    by (apply Forall_rev, Htrail).
  destruct Hcore as [-> | [(x & t & Ex & Hx) (t' & y & Ey & Hy)]].
  - cbn [app]. rewrite <- (app_nil_r trail) at 1.
    rewrite (dropWhile_all _ trail [] Htrail). reflexivity.
  - assert (E1 : dropWhile isWhiteSpace (core ++ trail) = core ++ trail)
      by (rewrite Ex; apply (dropWhile_head _ x _ Hx)).
    rewrite E1, rev_app_distr, (dropWhile_all _ (rev trail) _ Hrev).
    assert (E2 : dropWhile isWhiteSpace (rev core) = rev core).
    { rewrite Ey, rev_app_distr. apply (dropWhile_head _ y _ Hy). }
    rewrite E2. apply rev_involutive.
Qed.






Example valueDoc_text : textOf valueDoc = js "A bold move".
Proof. vm_compute. reflexivity. Qed.

End FieldValue.

(** ** The description taken from the body *)

Section BodyScan.

Import Menu Spec.

Lemma execFrom_none (multiline : bool) (r : regex) (s : str) :
  forall (prev : option ascii) (idx : nat),
    (forall a b, s = a ++ b ->
                 matchHere multiline r (prevAfter prev a) b = None) ->
    execFrom multiline r prev s idx = None.
Proof.
  induction s as [|c t IH]; intros prev idx H; cbn [execFrom].
  - assert (H0 := H [] [] eq_refl). cbn [prevAfter fold_left] in H0.
    now rewrite H0.
  - assert (H0 := H [] (c :: t) eq_refl). cbn [prevAfter fold_left] in H0.
    rewrite H0. apply IH.
    intros a b ->. apply (H (c :: a) b eq_refl).
Qed.

(** A block without the field has no match of the field's pattern. *)
Lemma noField_no_match (fm : str) :
  NoField fm -> exec true reDescription fm = None.
Proof.
  intros H. unfold exec. apply execFrom_none. intros a b ->.
  apply description_absent.
  destruct (prefixb (js "description:") b) eqn:E; [left|now right].
  apply prefixb_spec in E as [t ->]. apply (H a t eq_refl).
Qed.

Lemma bodyOf_code (content body : str) :
  BodyOf content body ->
  NoDescriptionField content /\ withoutFrontmatter content = body.
Proof.
  intros [content' Hplain | c fm' rest Hc Hfence Hfield _].
  - apply no_frontmatter_body.
    destruct (prefixb (js "---") content') eqn:E; [|reflexivity].
    apply prefixb_spec in E as [t E]. destruct (Hplain t E).
  - split.
    + unfold NoDescriptionField.
      rewrite (frontmatter_block c fm' rest Hc Hfence).
      apply (noField_no_match (c :: fm') Hfield).
    + apply (frontmatter_removed c fm' rest Hc Hfence).
Qed.

(** Splitting at the line feeds gives back the lines. *)
Lemma splitOn_join (l : str) (ls : list str) :
  Forall (Forall (fun c => c <> NL)) (l :: ls) ->
  splitOn NL (joinLines (l :: ls)) = l :: ls.
Proof.
  revert l; induction ls as [|l' ls IH]; intros l H.
  - cbn [joinLines]. inversion H as [|? ? Hl _]; subst. clear H.
    induction l as [|c l IHl]; [reflexivity|].
    inversion Hl as [|? ? Hc Hl']; subst. cbn [splitOn].
    destruct (Ascii.eqb c NL) eqn:E;
      [apply Ascii.eqb_eq in E; contradiction|].
    now rewrite (IHl Hl').
  - inversion H as [|? ? Hl Hrest]; subst. specialize (IH l' Hrest).
    change (joinLines (l :: l' :: ls))
      with (l ++ NL :: joinLines (l' :: ls)).
    clear H. induction l as [|c l IHl].
    + cbn [app splitOn]. rewrite Ascii.eqb_refl. now rewrite IH.
    + inversion Hl as [|? ? Hc Hl']; subst. cbn [app splitOn].
      destruct (Ascii.eqb c NL) eqn:E;
        [apply Ascii.eqb_eq in E; contradiction|].
      now rewrite (IHl Hl').
Qed.

Lemma skipped_not_meaningful (l : str) :
  Skipped l -> ~ Meaningful (trim l).
Proof.
  intros (core & Hcore & Hkind). rewrite (trim_trimmed l core Hcore).
  intros (Hne & Hhead & Hdash).
  destruct Hkind as [-> | [[t ->] | ->]].
  - now apply Hne.
  - now apply (Hhead t).
  - now apply Hdash.
Qed.

(** X19. Let the body be the content without its frontmatter block: the
    whole content when it does not start with three dashes, and what
    follows the closing line of three dashes when it starts with a
    block that has no description field.  Let the body be lines
    separated by line feeds.  When every line is blank, a heading or
    three dashes, white space at its ends apart, there is no
    description.  Otherwise, when the first other line is, without the
    white space at its ends, the source of well-formed markdown items,
    the description is the first sentence of the text of these items:
    up to and including the first ".", "!" or "?", or all of it when it
    has none.  The empty content and a content of headings give none,
    and "# Title\n\nThis is a description." gives
    "This is a description.". *)
Theorem body_first_sentence (content body : str) (ls : list str) :
  BodyOf content body ->
  body = joinLines ls ->
  Forall (Forall (fun c => c <> NL)) ls ->
  (Forall Skipped ls -> getSkillDescription content = None) /\
  (forall (skipped later : list str) (line : str) (items : list item),
      ls = skipped ++ line :: later ->
      Forall Skipped skipped ->
      Trimmed line (sourceOf items) ->
      Meaningful (sourceOf items) ->
      WellFormed items ->
      exists res,
        getSkillDescription content = Some res /\
        FirstSentence (textOf items) res) /\
  (getSkillDescription (js "") = None /\
   getSkillDescription (js "# Title\n## Sub") = None /\
   getSkillDescription (js "# Title\n\nThis is a description.") =
   Some (js "This is a description.")).
Proof.
  intros Hbody Hjoin Hnl.
  destruct (bodyOf_code content body Hbody) as [Hno Hwithout].
  destruct (describe_lines content Hno) as [Hnone Hsome].
  rewrite Hwithout, Hjoin in Hnone, Hsome.
  split; [|split].
  - intros Hskip. apply Hnone. destruct ls as [|l ls].
    + repeat constructor. apply not_meaningful. reflexivity.
    + rewrite (splitOn_join l ls Hnl). apply Forall_map.
      eapply Forall_impl; [|exact Hskip].
      intros l0. apply skipped_not_meaningful.
  - intros skipped later line items Els Hskip Hline Hmean Hwf.
    assert (Hlines : map trim (splitOn NL (joinLines ls)) =
                     map trim skipped ++ sourceOf items :: map trim later).
    { destruct ls as [|l ls]; [destruct skipped; discriminate|].
      rewrite (splitOn_join l ls Hnl), Els, map_app. cbn [map].
      now rewrite (trim_trimmed line (sourceOf items) Hline). }
    destruct (Hsome _ _ _ Hlines) as [Hres Hfirst]; [|exact Hmean|].
    + apply Forall_map. eapply Forall_impl; [|exact Hskip].
      intros l0. apply skipped_not_meaningful.
    + rewrite (stripMarkdown_items items Hwf) in Hres, Hfirst.
      eexists. split; [exact Hres|exact Hfirst].
  - repeat split; vm_compute; reflexivity.
Qed.

Lemma body_first_sentence_witness :
  exists res,
    getSkillDescription
      (js "---" ++ NL :: ("n"%char :: js "ame: t") ++ NL :: js "---" ++
       js "\n# Title\n\n  A **bold** move. More.  \nrest") = Some res /\
    FirstSentence (textOf sentenceDoc) res.
Proof.
  assert (Hfence : NoFence ("n"%char :: js "ame: t")).
  { intros a b E Hb. destruct b as [|x b']; [contradiction|].
    assert (Hx : In x ("n"%char :: js "ame: t"))
      by (rewrite E; apply in_or_app; right; left; reflexivity).
    assert (HF : Forall (fun x => Ascii.eqb NL x = false)
                        ("n"%char :: js "ame: t"))
      by (vm_compute; repeat constructor).
    rewrite Forall_forall in HF. cbn [app prefixb].
    now rewrite (HF x Hx). }
  assert (Hfield : NoField ("n"%char :: js "ame: t")).
  { intros a t E _. apply (f_equal (@length ascii)) in E.
    rewrite !length_app in E.
    change (length ("n"%char :: js "ame: t")) with 7 in E.
    change (length (js "description:")) with 12 in E. lia. }
  assert (Hbody : BodyOf
                    (js "---" ++ NL :: ("n"%char :: js "ame: t") ++
                     NL :: js "---" ++
                     js "\n# Title\n\n  A **bold** move. More.  \nrest")
                    (js "\n# Title\n\n  A **bold** move. More.  \nrest"))
    by (apply BodyOf_block; [reflexivity|exact Hfence|exact Hfield|
                             reflexivity]).
  assert (Hjoin : js "\n# Title\n\n  A **bold** move. More.  \nrest" =
                  joinLines ([[]; js "# Title"; []] ++
                             js "  A **bold** move. More.  " ::
                             [js "rest"]))
    by (vm_compute; reflexivity).
  assert (Hnl : Forall (Forall (fun c => c <> NL))
                       ([[]; js "# Title"; []] ++
                        js "  A **bold** move. More.  " :: [js "rest"])).
  { vm_compute. repeat first [constructor | discriminate]. }
  assert (Hskip : Forall Skipped [[]; js "# Title"; []]).
  { assert (Hempty : Skipped []).
    { exists []. split; [|now left].
      exists [], []. split; [reflexivity|].
      split; [constructor|]. split; [constructor|]. now left. }
    constructor; [exact Hempty|]. constructor; [|repeat constructor;
                                                  exact Hempty].
    exists (js "# Title"). split.
    - exists [], []. split; [vm_compute; reflexivity|].
      split; [constructor|]. split; [constructor|]. right. split.
      + exists "#"%char, (js " Title"). split; reflexivity.
      + exists (js "# Titl"), "e"%char. split; reflexivity.
    - right. left. exists (js " Title"). reflexivity. }
  assert (Hline : Trimmed (js "  A **bold** move. More.  ")
                          (sourceOf sentenceDoc)).
  { exists (js "  "), (js "  "). split; [vm_compute; reflexivity|].
    split; [vm_compute; repeat constructor|].
    split; [vm_compute; repeat constructor|]. right. split.
    - exists "A"%char, (js " **bold** move. More."). split; reflexivity.
    - exists (js "A **bold** move. More"), "."%char. split; reflexivity. }
  assert (Hmean : Meaningful (sourceOf sentenceDoc))
    by (apply isMeaningful_spec; reflexivity).
  assert (Hwf : WellFormed sentenceDoc).
  { unfold sentenceDoc, valueDoc. simpl. unfold Plain.
    repeat match goal with
           | |- context [js ?s] =>
               let v := eval vm_compute in (js s) in change (js s) with v
           end.
    repeat match goal with
           | |- _ /\ _ => split
           | |- True => exact I
           | |- Forall _ _ => constructor
           | |- _ <> _ => discriminate
           | |- _ = _ => reflexivity
           end. }
  exact (proj1 (proj2 (body_first_sentence _ _ _ Hbody Hjoin Hnl))
           [[]; js "# Title"; []] [js "rest"]
           (js "  A **bold** move. More.  ") sentenceDoc
           eq_refl Hskip Hline Hmean Hwf).
Defined.

Example body_first_sentence_result :
  getSkillDescription
    (js "---\nname: t\n---\n# Title\n\n  A **bold** move. More.  \nrest") =
  Some (js "A bold move.") /\
  textOf sentenceDoc = js "A bold move. More.".
Proof. split; vm_compute; reflexivity. Qed.

End BodyScan.
